(** * cyberpoet-node: the generative grammar engine

    A shallow embedding of the poetry engine of cyberpoet-node
    (src/services/word-selector.ts, structure-generator.ts and
    poetry-engine.ts) and the properties of its specification.

    - JavaScript strings are sequences of UTF-16 code units ([jstring]).
      The case mappings are those of JavaScript on ASCII, white space and
      Chinese text ([plain]); the statements that depend on the case of a
      letter are made for such text.
    - [Math.random] is an oracle of draws threaded through the code
      ([Rng]); an exception is an explicit result ([Throw]).
    - The vocabulary and template tables, which the engine only reads,
      are the fields of [DataService].
    - The file name and the text of a saved poem are the strings that
      [savePoetry] builds ([Save]). *)

From Stdlib Require Import Ascii String.
From Stdlib Require Import List NArith ZArith Bool Lia PeanoNat.
From Stdlib Require DecimalPos DecimalN.
Import ListNotations.

(* ================================================================== *)
(** * JavaScript strings *)
(* ================================================================== *)

Module JS.

(** A string is the list of its UTF-16 code units. *)
Definition jstring := list N.

Fixpoint eqb (s t : jstring) : bool :=
  match s, t with
  | [], [] => true
  | a :: s', b :: t' => N.eqb a b && eqb s' t'
  | _, _ => false
  end.

(** Source text literals: the UTF-8 bytes of a Rocq string literal decoded
    to UTF-16 code units (characters outside the BMP become a surrogate
    pair). *)
Fixpoint decode (bs : list N) : jstring :=
  match bs with
  | [] => []
  | b1 :: r1 =>
    if (b1 <? 128)%N then b1 :: decode r1
    else match r1 with
    | [] => [b1]
    | b2 :: r2 =>
      if (b1 <? 224)%N
      then ((b1 mod 32) * 64 + b2 mod 64)%N :: decode r2
      else match r2 with
      | [] => [b1; b2]
      | b3 :: r3 =>
        if (b1 <? 240)%N
        then ((b1 mod 16) * 4096 + (b2 mod 64) * 64 + b3 mod 64)%N :: decode r3
        else match r3 with
        | [] => [b1; b2; b3]
        | b4 :: r4 =>
          let cp := ((b1 mod 8) * 262144 + (b2 mod 64) * 4096
                     + (b3 mod 64) * 64 + b4 mod 64 - 65536)%N in
          (55296 + cp / 1024)%N :: (56320 + cp mod 1024)%N :: decode r4
        end
      end
    end
  end.

Definition utf16 (s : string) : jstring :=
  decode (map N_of_ascii (list_ascii_of_string s)).

(** [String.prototype.toLowerCase] / [toUpperCase].  The case mapping is
    modelled on the ASCII letters, the alphabet of every slot code and
    rhyme scheme of the program; every other code unit is its own lower
    and upper case. *)
Definition lowerUnit (c : N) : N :=
  if ((65 <=? c) && (c <=? 90))%N then (c + 32)%N else c.

Definition upperUnit (c : N) : N :=
  if ((97 <=? c) && (c <=? 122))%N then (c - 32)%N else c.

Definition toLowerCase (s : jstring) : jstring := map lowerUnit s.
Definition toUpperCase (s : jstring) : jstring := map upperUnit s.

(** [String.prototype.trim]: the WhiteSpace and LineTerminator code points
    of ECMAScript. *)
Definition isWhite (c : N) : bool :=
  ((9 <=? c) && (c <=? 13) || (c =? 32) || (c =? 160) || (c =? 5760)
   || (8192 <=? c) && (c <=? 8202) || (c =? 8232) || (c =? 8233)
   || (c =? 8239) || (c =? 8287) || (c =? 12288) || (c =? 65279))%N.

(** The text on which [toLowerCase] and [toUpperCase] above are the
    methods of JavaScript: ASCII, whose only cased characters are the 26
    letters, and characters that have no case, namely the white space of
    ECMAScript and the Chinese text of the tables (CJK symbols and
    punctuation U+3000 to U+303F, CJK unified ideographs U+4E00 to
    U+9FFF, full-width punctuation and digits U+FF01 to U+FF20).
    Elsewhere JavaScript follows the Unicode case tables, which can even
    change the length of a string; they are not modelled, and a
    statement that depends on the case of a character is made for
    [plain] strings. *)
Definition plainUnit (c : N) : bool :=
  ((c <? 128) || (12288 <=? c) && (c <=? 12351)
   || (19968 <=? c) && (c <=? 40959) || (65281 <=? c) && (c <=? 65312))%N
  || isWhite c.

Definition plain (s : jstring) : bool := forallb plainUnit s.

Fixpoint trimStart (s : jstring) : jstring :=
  match s with
  | [] => []
  | c :: s' => if isWhite c then trimStart s' else s
  end.

Fixpoint trimEnd (s : jstring) : jstring :=
  match s with
  | [] => []
  | c :: s' =>
    match trimEnd s' with
    | [] => if isWhite c then [] else [c]
    | t => c :: t
    end
  end.

Definition trim (s : jstring) : jstring := trimEnd (trimStart s).

(** [s.indexOf(c)] for a one-unit needle: the first position, or -1. *)
Fixpoint indexOf (s : jstring) (c : N) : Z :=
  match s with
  | [] => (-1)%Z
  | a :: s' =>
    if N.eqb a c then 0%Z
    else let k := indexOf s' c in
         if (k =? -1)%Z then (-1)%Z else (k + 1)%Z
  end.

(** [s.includes(c)] for a one-unit needle. *)
Definition includes (s : jstring) (c : N) : bool := existsb (N.eqb c) s.

(** [s.substring(start, end)]: both indices are clamped to [0, length]
    and swapped when out of order. *)
Definition clamp (s : jstring) (i : Z) : nat :=
  Nat.min (Z.to_nat i) (length s).

Definition substring (s : jstring) (i j : Z) : jstring :=
  let a := clamp s i in
  let b := clamp s j in
  firstn (Nat.max a b - Nat.min a b) (skipn (Nat.min a b) s).

(** [s.substring(start)]. *)
Definition substringFrom (s : jstring) (i : Z) : jstring :=
  substring s i (Z.of_nat (length s)).

(** Truthiness of a string: the empty string is falsy. *)
Definition truthy (s : jstring) : bool :=
  match s with [] => false | _ => true end.

End JS.

Import JS.

(** [l.includes(s)] on an array of strings, and a [case] list of a
    [switch] over strings. *)
Definition oneOf (s : jstring) (l : list jstring) : bool := existsb (eqb s) l.

(* ================================================================== *)
(** * Exceptions and the random source *)
(* ================================================================== *)

(** The errors the engine can raise: the [Error]s it throws itself and the
    [TypeError] of a property read on [undefined]. *)
Inductive Error : Type :=
  | UnsupportedPartOfSpeech   (* 未支持的词性 *)
  | NoLocationNoun            (* 没有找到合适的地点名词 *)
  | NoPersonNoun              (* 没有找到合适的人物名词 *)
  | NoSimpleVerb              (* 没有找到合适的简单动词 *)
  | NoProgressiveVerb         (* 没有找到合适的进行时动词 *)
  | NoResultativeVerb         (* 没有找到合适的结果补语动词 *)
  | EmptyWordList             (* 词汇列表为空 *)
  | TypeError.

Inductive Result (A : Type) : Type :=
  | Ok (a : A)
  | Throw (e : Error).

Arguments Ok {A} a.
Arguments Throw {A} e.

(** The random source: an unbounded supply of draws and the number of
    draws consumed so far. *)
Record Rng : Type := mkRng { source : nat -> nat; drawn : nat }.

Definition M (A : Type) : Type := Rng -> Result A * Rng.

Definition ret {A} (a : A) : M A := fun r => (Ok a, r).

Definition throw {A} (e : Error) : M A := fun r => (Throw e, r).

Definition bind {A B} (m : M A) (k : A -> M B) : M B :=
  fun r => match m r with
           | (Ok a, r') => k a r'
           | (Throw e, r') => (Throw e, r')
           end.

Notation "x <- m ;; k" := (bind m (fun x => k))
  (at level 61, m at next level, right associativity).

Definition lift {A} (x : Result A) : M A := fun r => (x, r).

Fixpoint mapM {A B} (f : A -> M B) (l : list A) : M (list B) :=
  match l with
  | [] => ret []
  | a :: l' => b <- f a ;; bs <- mapM f l' ;; ret (b :: bs)
  end.

(** [Math.floor(Math.random() * n)]: one draw, an index below [n]
    (and 0 when [n] is 0). *)
Definition randomIndex (n : nat) : M nat :=
  fun r =>
    let d := source r (drawn r) in
    (Ok (match n with 0 => 0 | _ => d mod n end),
     mkRng (source r) (S (drawn r))).

(* ================================================================== *)
(** * Data model (types/index.ts) *)
(* ================================================================== *)

Record WordRecord : Type := mkWord {
  word : jstring;
  vowel : jstring;
  property : jstring
}.

Record SpecialWord : Type := mkSpecial {
  content : jstring;
  type : Z
}.

Module SS.
Record t : Type := mk {
  internalNeed : Z;
  limitedRhyme : jstring;
  compoundStructureCount : Z;
  punctuation : jstring;
  elements : list jstring
}.
End SS.

Module WS.
Record t : Type := mk {
  compoundStructureCount : Z;
  punctuation : jstring;
  elements : list jstring
}.
End WS.

Definition SentenceStructure : Type := SS.t.
Definition WorkingStructure : Type := WS.t.

Inductive PoeticStyle : Type := quiet | bold.

(** [RhymeScheme | undefined]. *)
Definition RhymeOpt := option jstring.

Module Ctx.
Record t : Type := mk {
  partOfSpeech : jstring;
  needsRhyme : bool;
  rhymeScheme : RhymeOpt
}.
End Ctx.

Definition WordSelectionContext : Type := Ctx.t.

Record PoetryGenerationOptions : Type := mkOptions {
  style : PoeticStyle;
  paragraphCount : nat;
  linesPerParagraph : nat;
  useRhyme : bool;
  rhymeScheme : RhymeOpt
}.

(** [GeneratedPoem], without its creation date. *)
Record GeneratedPoem : Type := mkPoem {
  lines : list jstring;
  options : PoetryGenerationOptions
}.

(** The tables of the store once loaded (services/data-service.ts). *)
Record DataService : Type := mkData {
  getNouns : list WordRecord;
  getAdjectives : list WordRecord;
  getIntransitiveVerbs : list WordRecord;
  getTransitiveVerbs : list WordRecord;
  getInterjections : list WordRecord;
  getSentenceStructures : list SentenceStructure;
  getSpecialWords : list SpecialWord
}.

Definition getWordsByPartOfSpeech (D : DataService) (partOfSpeech : jstring)
  : Result (list WordRecord) :=
  if oneOf partOfSpeech [utf16 "MM"; utf16 "MC"; utf16 "MR"] then
    Ok (getNouns D)
  else if oneOf partOfSpeech [utf16 "DD"; utf16 "DI"; utf16 "DV"; utf16 "DO"] then
    Ok (getIntransitiveVerbs D)
  else if eqb partOfSpeech (utf16 "DJ") then Ok (getTransitiveVerbs D)
  else if eqb partOfSpeech (utf16 "XA") then Ok (getAdjectives D)
  else if eqb partOfSpeech (utf16 "TT") then Ok (getInterjections D)
  else if eqb partOfSpeech (utf16 "SS") then
    Ok (map (fun sw => mkWord (content sw) [] []) (getSpecialWords D))
  else Throw UnsupportedPartOfSpeech.

(* ================================================================== *)
(** * Word selector (services/word-selector.ts) *)
(* ================================================================== *)

(** The code unit of the separator of a splittable verb. *)
Definition slash : N := 47.

(** The guard [needsRhyme && rhymeScheme]: an absent or empty scheme is
    falsy. *)
Definition wantsRhyme (needsRhyme : bool) (rhymeScheme : RhymeOpt) : bool :=
  needsRhyme && match rhymeScheme with Some s => truthy s | None => false end.

(** [s === rhymeScheme]. *)
Definition isScheme (s : jstring) (rhymeScheme : RhymeOpt) : bool :=
  match rhymeScheme with Some r => eqb s r | None => false end.

Definition getRandomWord (words : list WordRecord) : M WordRecord :=
  match words with
  | [] => throw EmptyWordList
  | _ =>
    randomIndex <- randomIndex (length words) ;;
    match nth_error words randomIndex with
    | Some w => ret w
    | None => throw TypeError
    end
  end.

Definition getRandomRhymingWord (words : list WordRecord)
  (rhymeScheme : RhymeOpt) : M WordRecord :=
  let rhymingWords := filter (fun w => isScheme (vowel w) rhymeScheme) words in
  getRandomWord rhymingWords.

Definition selectBasicWord (words : list WordRecord) (needsRhyme : bool)
  (rhymeScheme : RhymeOpt) : M jstring :=
  let rhymingWords := filter (fun w => isScheme (vowel w) rhymeScheme) words in
  if wantsRhyme needsRhyme rhymeScheme && negb (length rhymingWords =? 0) then
    w <- getRandomWord rhymingWords ;; ret (word w)
  else
    w <- getRandomWord words ;; ret (word w).

Definition selectIntransitiveVerb (words : list WordRecord) (needsRhyme : bool)
  (rhymeScheme : RhymeOpt) : M jstring :=
  selectedWord <-
    (if wantsRhyme needsRhyme rhymeScheme
     then getRandomRhymingWord words rhymeScheme
     else getRandomWord words) ;;
  let wordText := word selectedWord in
  let slashIndex := indexOf wordText slash in
  if negb (slashIndex =? -1)%Z then
    ret (substring wordText 0 slashIndex ++ substringFrom wordText (slashIndex + 1))
  else ret wordText.

Definition selectLocationNoun (words : list WordRecord) (needsRhyme : bool)
  (rhymeScheme : RhymeOpt) : M jstring :=
  let locationWords :=
    filter (fun w => eqb (property w) (utf16 "时间")
                     || eqb (property w) (utf16 "地点")
                     || eqb (property w) (utf16 "地名")) words in
  let rhymingLocationWords :=
    filter (fun w => isScheme (vowel w) rhymeScheme) locationWords in
  if wantsRhyme needsRhyme rhymeScheme
     && negb (length rhymingLocationWords =? 0) then
    w <- getRandomWord rhymingLocationWords ;; ret (word w)
  else if length locationWords =? 0 then throw NoLocationNoun
  else w <- getRandomWord locationWords ;; ret (word w).

Definition selectPersonNoun (words : list WordRecord) (needsRhyme : bool)
  (rhymeScheme : RhymeOpt) : M jstring :=
  let personWords :=
    filter (fun w => eqb (property w) (utf16 "人物")
                     || eqb (property w) (utf16 "人名")) words in
  let rhymingPersonWords :=
    filter (fun w => isScheme (vowel w) rhymeScheme) personWords in
  if wantsRhyme needsRhyme rhymeScheme
     && negb (length rhymingPersonWords =? 0) then
    w <- getRandomWord rhymingPersonWords ;; ret (word w)
  else if length personWords =? 0 then throw NoPersonNoun
  else w <- getRandomWord personWords ;; ret (word w).

Definition selectSimpleVerb (words : list WordRecord) : M jstring :=
  let simpleVerbs := filter (fun w => negb (includes (word w) slash)) words in
  if length simpleVerbs =? 0 then throw NoSimpleVerb
  else w <- getRandomWord simpleVerbs ;; ret (word w).

Definition selectProgressiveVerb (words : list WordRecord) (needsRhyme : bool)
  (rhymeScheme : RhymeOpt) : M jstring :=
  let candidateWords := filter (fun w => includes (word w) slash) words in
  let rhymingWords :=
    filter (fun w => isScheme (vowel w) rhymeScheme) candidateWords in
  let candidateWords :=
    if wantsRhyme needsRhyme rhymeScheme && negb (length rhymingWords =? 0)
    then rhymingWords else candidateWords in
  if length candidateWords =? 0 then throw NoProgressiveVerb
  else
    selectedWord <- getRandomWord candidateWords ;;
    let wordText := word selectedWord in
    let slashIndex := indexOf wordText slash in
    if negb (slashIndex =? -1)%Z then
      ret (substring wordText 0 slashIndex ++ utf16 "着"
           ++ substringFrom wordText (slashIndex + 1))
    else ret (wordText ++ utf16 "着").

Definition selectResultativeVerb (words : list WordRecord) : M jstring :=
  let candidateWords := filter (fun w => includes (word w) slash) words in
  if length candidateWords =? 0 then throw NoResultativeVerb
  else
    selectedWord <- getRandomWord candidateWords ;;
    let wordText := word selectedWord in
    let slashIndex := indexOf wordText slash in
    if negb (slashIndex =? -1)%Z then
      ret (trim (substringFrom wordText (slashIndex + 1))
           ++ substring wordText 0 slashIndex ++ utf16 "得")
    else ret (wordText ++ utf16 "得").

Definition selectSpecialWord (D : DataService) : M jstring :=
  let specialWords := getSpecialWords D in
  if length specialWords =? 0 then ret []
  else
    randomIndex <- randomIndex (length specialWords) ;;
    match nth_error specialWords randomIndex with
    | Some sw => ret (content sw)
    | None => throw TypeError
    end.

Definition selectWord (D : DataService) (context : WordSelectionContext)
  : M jstring :=
  let partOfSpeech := Ctx.partOfSpeech context in
  let needsRhyme := Ctx.needsRhyme context in
  let rhymeScheme := Ctx.rhymeScheme context in
  words <- lift (getWordsByPartOfSpeech D partOfSpeech) ;;
  if oneOf partOfSpeech [utf16 "MM"; utf16 "TT"; utf16 "DJ"; utf16 "XA"] then
    selectBasicWord words needsRhyme rhymeScheme
  else if eqb partOfSpeech (utf16 "DD") then
    selectIntransitiveVerb words needsRhyme rhymeScheme
  else if eqb partOfSpeech (utf16 "MC") then
    selectLocationNoun words needsRhyme rhymeScheme
  else if eqb partOfSpeech (utf16 "MR") then
    selectPersonNoun words needsRhyme rhymeScheme
  else if eqb partOfSpeech (utf16 "DI") then selectSimpleVerb words
  else if eqb partOfSpeech (utf16 "DV") then
    selectProgressiveVerb words needsRhyme rhymeScheme
  else if eqb partOfSpeech (utf16 "DO") then selectResultativeVerb words
  else if eqb partOfSpeech (utf16 "SS") then selectSpecialWord D
  else throw UnsupportedPartOfSpeech.

(** [WordSelector.normalizeRhymeScheme]. *)
Definition normalizeRhymeScheme (rhyme : jstring) : jstring :=
  let normalizedRhyme := trim (toLowerCase rhyme) in
  if oneOf normalizedRhyme [utf16 "o"; utf16 "uo"] then utf16 "e"
  else if eqb normalizedRhyme (utf16 "ui") then utf16 "ei"
  else if oneOf normalizedRhyme [utf16 "in"; utf16 "un"; utf16 "vn"] then utf16 "en"
  else if eqb normalizedRhyme (utf16 "ing") then utf16 "eng"
  else if eqb normalizedRhyme (utf16 "ve") then utf16 "ie"
  else if eqb normalizedRhyme (utf16 "iu") then utf16 "ou"
  else if eqb normalizedRhyme (utf16 "z") then utf16 "r"
  else normalizedRhyme.

(* ================================================================== *)
(** * Structure generator (services/structure-generator.ts) *)
(* ================================================================== *)

Definition shouldLineRhyme (lineIndex totalLines : nat) : bool :=
  if totalLines mod 2 =? 0 then
    (lineIndex =? 1) || (lineIndex mod 2 =? 0)
  else (lineIndex + 1) mod 2 =? 0.

Definition maxAttempts : nat := 100.

(** The rhyme test shared by both styles: the candidate is rejected when
    a rhyme is wanted, the template is atomic and its [limitedRhyme] is
    neither the scheme nor ['E']. *)
Definition rhymeRejects (structure : SentenceStructure) (needsRhyme : bool)
  (rhymeScheme : RhymeOpt) : bool :=
  wantsRhyme needsRhyme rhymeScheme
  && (SS.compoundStructureCount structure =? 0)%Z
  && (negb (isScheme (SS.limitedRhyme structure) rhymeScheme)
      && negb (eqb (SS.limitedRhyme structure) (utf16 "E"))).

(** [structure.elements[9] === '']. *)
Definition isQuiet (structure : SentenceStructure) : bool :=
  match nth_error (SS.elements structure) 9 with
  | Some e => eqb e []
  | None => false
  end.

(** The loop of [selectQuietStructure]; [budget] is
    [maxAttempts - attempts].  The result is [None] for [undefined]. *)
Fixpoint selectQuietLoop (structures : list SentenceStructure)
  (needsRhyme : bool) (rhymeScheme : RhymeOpt) (budget : nat)
  : M (option SentenceStructure) :=
  match budget with
  | 0 => ret (nth_error structures 0)
  | S budget' =>
    randomIndex <- randomIndex (length structures) ;;
    match nth_error structures randomIndex with
    | None => throw TypeError
    | Some structure =>
      if negb (isQuiet structure) then
        selectQuietLoop structures needsRhyme rhymeScheme budget'
      else if rhymeRejects structure needsRhyme rhymeScheme then
        selectQuietLoop structures needsRhyme rhymeScheme budget'
      else ret (Some structure)
    end
  end.

Definition selectQuietStructure (structures : list SentenceStructure)
  (needsRhyme : bool) (rhymeScheme : RhymeOpt) : M (option SentenceStructure) :=
  selectQuietLoop structures needsRhyme rhymeScheme maxAttempts.

Fixpoint selectBoldLoop (structures : list SentenceStructure)
  (needsRhyme : bool) (rhymeScheme : RhymeOpt) (budget : nat)
  : M (option SentenceStructure) :=
  match budget with
  | 0 => ret (nth_error structures 0)
  | S budget' =>
    randomIndex <- randomIndex (length structures) ;;
    match nth_error structures randomIndex with
    | None =>
      if wantsRhyme needsRhyme rhymeScheme then throw TypeError else ret None
    | Some structure =>
      if rhymeRejects structure needsRhyme rhymeScheme then
        selectBoldLoop structures needsRhyme rhymeScheme budget'
      else ret (Some structure)
    end
  end.

Definition selectBoldStructure (structures : list SentenceStructure)
  (needsRhyme : bool) (rhymeScheme : RhymeOpt) : M (option SentenceStructure) :=
  selectBoldLoop structures needsRhyme rhymeScheme maxAttempts.

(** The slots pushed for one template slot. *)
Definition processElement (limitedRhyme element : jstring) : list jstring :=
  if eqb element (utf16 "Dd") && eqb limitedRhyme (utf16 "E") then
    [utf16 "DV"; utf16 "着"; utf16 "DO"]
  else if (length element =? 2)
          && eqb (firstn 1 element) (toLowerCase (firstn 1 element)) then
    [toUpperCase element]
  else [element].

(** The [for] loop of [processStructureElements]: [n] iterations are left,
    [i] is the index, [processedElements] the array built so far. *)
Fixpoint processLoop (structure : SentenceStructure) (n i : nat)
  (processedElements : list jstring) : list jstring :=
  match n with
  | 0 => processedElements
  | S n' =>
    let element := nth i (SS.elements structure) [] in
    if eqb element [] then processedElements
    else processLoop structure n' (i + 1)
           (processedElements ++ processElement (SS.limitedRhyme structure) element)
  end.

(** [while (processedElements.length < 30) processedElements.push('')]. *)
Definition padTo30 (processedElements : list jstring) : list jstring :=
  processedElements ++ repeat [] (30 - length processedElements).

Definition processStructureElements (structure : option SentenceStructure)
  (needsRhyme : bool) (rhymeScheme : RhymeOpt) : Result WorkingStructure :=
  match structure with
  | None => Throw TypeError
  | Some structure =>
    let processedElements := processLoop structure 27 0 [] in
    Ok (WS.mk (SS.compoundStructureCount structure)
              (SS.punctuation structure)
              (padTo30 processedElements))
  end.

Definition createStructure (D : DataService) (paragraphCount linesPerParagraph : nat)
  (style : PoeticStyle) (rhymeScheme : RhymeOpt) : M (list WorkingStructure) :=
  let sentenceStructures := getSentenceStructures D in
  tempStructures <-
    mapM (fun lineIndex =>
            let needsRhyme := shouldLineRhyme lineIndex linesPerParagraph in
            match style with
            | quiet => selectQuietStructure sentenceStructures needsRhyme rhymeScheme
            | bold => selectBoldStructure sentenceStructures needsRhyme rhymeScheme
            end)
         (seq 1 linesPerParagraph) ;;
  workingStructures <-
    mapM (fun paragraphIndex =>
            mapM (fun lineIndex =>
                    let baseStructure := nth (lineIndex - 1) tempStructures None in
                    let needsRhyme := shouldLineRhyme paragraphIndex paragraphCount in
                    lift (processStructureElements baseStructure needsRhyme rhymeScheme))
                 (seq 1 linesPerParagraph))
         (seq 1 paragraphCount) ;;
  ret (concat workingStructures).

(* ================================================================== *)
(** * Poetry engine (services/poetry-engine.ts) *)
(* ================================================================== *)

Definition partOfSpeechTags : list jstring :=
  map utf16 ["MM"; "MC"; "MR"; "DD"; "DI"; "DV"; "DO"; "DJ"; "XA"; "TT"; "SS"]%string.

(** The keys of the [legacyMappings] object literal and their values. *)
Definition legacyMappings : list (jstring * jstring) :=
  map (fun kv => (utf16 (fst kv), utf16 (snd kv)))
    [("XX", "XA"); ("Mm", "MM"); ("Mr", "MR"); ("Mc", "MC");
     ("DB", "DD"); ("Dd", "DD"); ("Dv", "DV"); ("Do", "DO")]%string.

(** The [in] operator also finds the members an object literal inherits
    from [Object.prototype]; none of them is a string. *)
Definition objectPrototypeKeys : list jstring :=
  map utf16 ["constructor"; "__defineGetter__"; "__defineSetter__";
             "hasOwnProperty"; "__lookupGetter__"; "__lookupSetter__";
             "isPrototypeOf"; "propertyIsEnumerable"; "toString"; "valueOf";
             "__proto__"; "toLocaleString"]%string.

Definition inLegacyMappings (element : jstring) : bool :=
  oneOf element (map fst legacyMappings) || oneOf element objectPrototypeKeys.

Fixpoint lookup (element : jstring) (m : list (jstring * jstring)) : option jstring :=
  match m with
  | [] => None
  | (k, v) :: m' => if eqb element k then Some v else lookup element m'
  end.

Definition isPartOfSpeech (element : jstring) : bool :=
  if oneOf element partOfSpeechTags then true
  else if oneOf (toUpperCase element) partOfSpeechTags then true
  else inLegacyMappings element.

(** [normalizePartOfSpeech]; [None] stands for the inherited member that
    [legacyMappings[element]] yields for a key of [Object.prototype]. *)
Definition normalizePartOfSpeech (element : jstring) : option jstring :=
  if inLegacyMappings element then lookup element legacyMappings
  else
    let upperElement := toUpperCase element in
    if oneOf upperElement partOfSpeechTags then Some upperElement
    else if oneOf element partOfSpeechTags then Some element
    else Some (utf16 "MM").

Definition selectWordForElement (D : DataService) (partOfSpeech : option jstring)
  (options : PoetryGenerationOptions) : M jstring :=
  match partOfSpeech with
  | None => throw UnsupportedPartOfSpeech
  | Some partOfSpeech =>
    selectWord D (Ctx.mk partOfSpeech (useRhyme options) (rhymeScheme options))
  end.

(** [partOfSpeech === 'DV' || partOfSpeech === 'DO']. *)
Definition isCompoundVerb (partOfSpeech : option jstring) : bool :=
  match partOfSpeech with
  | None => false
  | Some p => eqb p (utf16 "DV") || eqb p (utf16 "DO")
  end.

(** The [while] loop of [generateLine].  [elementIndex] grows at every
    turn, so 27 turns always reach the exit test ([generateLineLoop_fuel]);
    [fuel] only bounds the recursion. *)
Fixpoint generateLineLoop (D : DataService) (structure : WorkingStructure)
  (options : PoetryGenerationOptions) (fuel elementIndex : nat) (line : jstring)
  : M jstring :=
  match fuel with
  | 0 => ret line
  | S fuel' =>
    if elementIndex <? 27 then
      let element := nth elementIndex (WS.elements structure) [] in
      if eqb element [] then ret line
      else if isPartOfSpeech element then
        let partOfSpeech := normalizePartOfSpeech element in
        word <- selectWordForElement D partOfSpeech options ;;
        let elementIndex :=
          if isCompoundVerb partOfSpeech then elementIndex + 2 else elementIndex in
        generateLineLoop D structure options fuel' (elementIndex + 1) (line ++ word)
      else
        generateLineLoop D structure options fuel' (elementIndex + 1) (line ++ element)
    else ret line
  end.

Definition generateLine (D : DataService) (structure : WorkingStructure)
  (options : PoetryGenerationOptions) : M jstring :=
  line <- generateLineLoop D structure options 27 0 [] ;;
  ret (trim (line ++ WS.punctuation structure)).

Definition generatePoetry (D : DataService) (options : PoetryGenerationOptions)
  : M GeneratedPoem :=
  structures <- createStructure D (paragraphCount options)
                  (linesPerParagraph options) (style options)
                  (rhymeScheme options) ;;
  lines <- mapM (fun structure => generateLine D structure options) structures ;;
  ret (mkPoem lines options).

(* ================================================================== *)
(** * Notions used by the statements *)
(* ================================================================== *)

(** A string is clean at its start when it does not begin with white
    space. *)
Definition cleanStart (s : jstring) : Prop :=
  match s with [] => True | c :: _ => isWhite c = false end.

(** A string has ink when one of its code units is not white space. *)
Definition hasInk (s : jstring) : bool := existsb (fun c => negb (isWhite c)) s.

(** The code units of the progressive and of the resultative suffix. *)
Definition zhe : N := 30528.
Definition de : N := 24471.

(** The random source after one more draw. *)
Definition next (r : Rng) : Rng := mkRng (source r) (S (drawn r)).

(** The four tags served by [selectBasicWord]. *)
Definition basicTags : list jstring :=
  [utf16 "MM"; utf16 "TT"; utf16 "DJ"; utf16 "XA"].

(** The entries of a pool whose vowel is the scheme. *)
Definition rhyming (rs : jstring) (pool : list WordRecord) : list WordRecord :=
  filter (fun w => eqb (vowel w) rs) pool.

(** A pool of one splittable verb, whatever its other fields. *)
Definition ridePool (v p : jstring) : list WordRecord :=
  [mkWord (utf16 "骑/马") v p].


(** The template that draw number [i] of the source [src] designates. *)
Definition candidate (structures : list SentenceStructure) (src : nat -> nat)
  (i : nat) : option SentenceStructure :=
  nth_error structures (src i mod length structures).

(** The acceptance rule of each style. *)
Definition quietAccepts (needsRhyme : bool) (rs : RhymeOpt)
  (structure : SentenceStructure) : bool :=
  isQuiet structure && negb (rhymeRejects structure needsRhyme rs).

Definition boldAccepts (needsRhyme : bool) (rs : RhymeOpt)
  (structure : SentenceStructure) : bool :=
  negb (rhymeRejects structure needsRhyme rs).

(** The outcome of rejection sampling with [budget] attempts from the
    source state [r]: [k] draws were made, and either the last of them was
    accepted while those before it were rejected, or all [budget] draws
    were rejected and the first template of the table is returned. *)
Definition sampled (accepts : SentenceStructure -> bool)
  (structures : list SentenceStructure) (budget : nat) (r : Rng)
  (structure : SentenceStructure) (r' : Rng) : Prop :=
  In structure structures /\
  source r' = source r /\
  exists k, k <= budget /\ drawn r' = drawn r + k /\
    (forall i, i < k - 1 ->
       exists c, candidate structures (source r) (drawn r + i) = Some c
                 /\ accepts c = false) /\
    ((1 <= k /\ candidate structures (source r) (drawn r + (k - 1)) = Some structure
      /\ accepts structure = true)
     \/ (k = budget /\ nth_error structures 0 = Some structure /\
         forall i, i < budget ->
           exists c, candidate structures (source r) (drawn r + i) = Some c
                     /\ accepts c = false)).

(** The leading non-empty slots of a slot list. *)
Fixpoint takeContent (l : list jstring) : list jstring :=
  match l with
  | [] => []
  | e :: l' => if eqb e [] then [] else e :: takeContent l'
  end.

(** The slots [processStructureElements] walks: the first 27 at most, up to
    the first empty one. *)
Definition walked (structure : SentenceStructure) : list jstring :=
  takeContent (firstn 27 (SS.elements structure)).





(** The working structure of a template. *)
Definition expand (structure : SentenceStructure) : WorkingStructure :=
  WS.mk (SS.compoundStructureCount structure) (SS.punctuation structure)
        (padTo30 (flat_map (processElement (SS.limitedRhyme structure))
                           (walked structure))).

(** A slot list filled up to the capacity of a template. *)
Definition pad27 (l : list jstring) : list jstring :=
  l ++ repeat [] (27 - length l).


Definition overfullWorking : WorkingStructure :=
  WS.mk 0 (utf16 "。")
        ([utf16 "XX"; utf16 "DV"; utf16 "着"; utf16 "DO";
          utf16 "DV"; utf16 "着"; utf16 "DO"] ++ repeat (utf16 "MM") 24).

(** The statement that the stanza flag bears on the expansion. *)
Definition flagGovernsExpansion : Prop :=
  exists structure rs,
    processStructureElements structure true rs
    <> processStructureElements structure false rs.

(** A compound-verb template, expanded whatever the flag. *)
Definition compoundTemplate : SentenceStructure :=
  SS.mk 0 (utf16 "E") 0 (utf16 "！") (pad27 [utf16 "Mr"; utf16 "Dd"]).

(** [line] is a rendering of [structure]: what [generateLine] returns for
    it from some state of the random source. *)
Definition rendered (D : DataService) (options : PoetryGenerationOptions)
  (structure : WorkingStructure) (line : jstring) : Prop :=
  exists r1 r2, generateLine D structure options r1 = (Ok line, r2).

(** [s] ends with [suffix]. *)
Definition endsWith (s suffix : jstring) : Prop :=
  exists prefix, s = prefix ++ suffix.

(** A computation that returns, without throwing, from every state of
    the random source. *)
Definition total {A} (m : M A) : Prop :=
  forall r, exists a r', m r = (Ok a, r').

(** Tables and options under which every word selection of a generation
    can be served: the table has a template, no template slot is a member
    name of [Object.prototype], each word class has an entry, the nouns
    have a place or time and a person, the intransitive verbs a simple and
    a splittable one and, when a rhyme is wanted, one with that vowel. *)
Definition servable (D : DataService) (options : PoetryGenerationOptions) : Prop :=
  getSentenceStructures D <> []
  /\ (forall t e, In t (getSentenceStructures D) -> In e (SS.elements t) ->
                 ~ In e objectPrototypeKeys)
  /\ getNouns D <> []
  /\ getAdjectives D <> []
  /\ getTransitiveVerbs D <> []
  /\ getInterjections D <> []
  /\ (exists w, In w (getNouns D) /\
        eqb (property w) (utf16 "时间") || eqb (property w) (utf16 "地点")
        || eqb (property w) (utf16 "地名") = true)
  /\ (exists w, In w (getNouns D) /\
        eqb (property w) (utf16 "人物") || eqb (property w) (utf16 "人名") = true)
  /\ (exists w, In w (getIntransitiveVerbs D) /\
        negb (includes (word w) slash) = true)
  /\ (exists w, In w (getIntransitiveVerbs D) /\ includes (word w) slash = true)
  /\ (wantsRhyme (useRhyme options) (rhymeScheme options) = true ->
      exists w, In w (getIntransitiveVerbs D) /\
                isScheme (vowel w) (rhymeScheme options) = true).

(** ** Sample tables *)

Definition sampleNouns : list WordRecord :=
  [mkWord (utf16 "山") (utf16 "an") (utf16 "地点");
   mkWord (utf16 "花") (utf16 "a") [];
   mkWord (utf16 "诗人") (utf16 "en") (utf16 "人物");
   mkWord (utf16 "夜") (utf16 "ie") (utf16 "时间")].

Definition sampleAdjectives : list WordRecord :=
  [mkWord (utf16 "美丽") (utf16 "i") []; mkWord (utf16 "大") (utf16 "a") []].

Definition sampleIntransitiveVerbs : list WordRecord :=
  [mkWord (utf16 "骑/马") (utf16 "a") [];
   mkWord (utf16 "歌唱") (utf16 "ang") [];
   mkWord (utf16 "跳/舞") (utf16 "u") []].

Definition sampleTransitiveVerbs : list WordRecord :=
  [mkWord (utf16 "爱") (utf16 "ai") []; mkWord (utf16 "打") (utf16 "a") []].

Definition sampleInterjections : list WordRecord :=
  [mkWord (utf16 "啊") (utf16 "a") []].

Definition sampleStructures : list SentenceStructure :=
  [SS.mk 0 [] 0 (utf16 "。") (pad27 [utf16 "Mm"; utf16 "Dd"]);
   compoundTemplate;
   SS.mk 0 (utf16 "a") 0 (utf16 "，") (pad27 [utf16 "XX"; utf16 "的"; utf16 "Mm"])].

Definition sampleData : DataService :=
  mkData sampleNouns sampleAdjectives sampleIntransitiveVerbs
         sampleTransitiveVerbs sampleInterjections sampleStructures
         [mkSpecial (utf16 "的") 1].

(** A random source whose draws are 0, 1, 2, ... *)
Definition sampleRng : Rng := mkRng (fun i => i) 0.

(** Three stanzas of two lines, quiet, without rhyme. *)
Definition sampleOptions : PoetryGenerationOptions :=
  mkOptions quiet 3 2 false None.

Definition sampleRun : Result GeneratedPoem * Rng :=
  generatePoetry sampleData sampleOptions sampleRng.

Definition samplePoem : GeneratedPoem :=
  match fst sampleRun with
  | Ok poem => poem
  | Throw _ => mkPoem [] sampleOptions
  end.

(** One line in the rhyme "i", which no intransitive verb of the sample
    has, from a table whose template, a noun and a verb, is limited to
    that rhyme. *)
Definition rhymeOptions : PoetryGenerationOptions :=
  mkOptions bold 1 1 true (Some (utf16 "i")).

Definition rhymeData : DataService :=
  mkData sampleNouns sampleAdjectives sampleIntransitiveVerbs
         sampleTransitiveVerbs sampleInterjections
         [SS.mk 0 (utf16 "i") 0 (utf16 "。") (pad27 [utf16 "Mm"; utf16 "Dd"])]
         [mkSpecial (utf16 "的") 1].

(** Tables with one template, a special word, and no special words. *)
Definition bareData : DataService :=
  mkData sampleNouns sampleAdjectives sampleIntransitiveVerbs
         sampleTransitiveVerbs sampleInterjections
         [SS.mk 0 [] 0 [] (pad27 [utf16 "SS"])] [].

Definition bareOptions : PoetryGenerationOptions :=
  mkOptions bold 1 1 false None.

(** A working structure whose punctuation is a comma and a space. *)
Definition spacedStructure : WorkingStructure :=
  expand (SS.mk 0 [] 0 (utf16 "， ") (pad27 [utf16 "Mm"])).

(** The working structure of the first sample template, a noun and a
    verb. *)
Definition sampleStructure : WorkingStructure :=
  expand (SS.mk 0 [] 0 (utf16 "。") (pad27 [utf16 "Mm"; utf16 "Dd"])).


(** ** Notions for the selection rules *)

(** The property test of [selectLocationNoun] and of [selectPersonNoun]. *)
Definition isLocation (w : WordRecord) : bool :=
  eqb (property w) (utf16 "时间")
  || eqb (property w) (utf16 "地点")
  || eqb (property w) (utf16 "地名").

Definition isPerson (w : WordRecord) : bool :=
  eqb (property w) (utf16 "人物") || eqb (property w) (utf16 "人名").

(** The entries of a pool whose vowel is the scheme, for an optional
    scheme. *)
Definition rhymingOpt (rs : RhymeOpt) (pool : list WordRecord) : list WordRecord :=
  filter (fun w => isScheme (vowel w) rs) pool.

(** A string without the first occurrence of a code unit. *)
Fixpoint removeFirst (c : N) (s : jstring) : jstring :=
  match s with
  | [] => []
  | a :: s' => if N.eqb a c then s' else a :: removeFirst c s'
  end.

(** The error that the selection of a tag can raise. *)
Definition errorOf (tag : jstring) : option Error :=
  if oneOf tag (map utf16 ["MM"; "TT"; "DJ"; "XA"; "DD"]%string) then Some EmptyWordList
  else if eqb tag (utf16 "MC") then Some NoLocationNoun
  else if eqb tag (utf16 "MR") then Some NoPersonNoun
  else if eqb tag (utf16 "DI") then Some NoSimpleVerb
  else if eqb tag (utf16 "DV") then Some NoProgressiveVerb
  else if eqb tag (utf16 "DO") then Some NoResultativeVerb
  else if eqb tag (utf16 "SS") then None
  else Some UnsupportedPartOfSpeech.

(** ** Notions for the structure generator *)

(** A slot code without any ASCII lower-case letter. *)
Definition noLower (e : jstring) : bool :=
  forallb (fun c => negb ((97 <=? c) && (c <=? 122))%N) e.

(** The random source after [k] more draws. *)
Definition after (k : nat) (r : Rng) : Rng := mkRng (source r) (drawn r + k).

(** A table of two templates, neither of them quiet: slot J10 is in
    use. *)
Definition longTemplate (punctuation : jstring) : SentenceStructure :=
  SS.mk 0 [] 0 punctuation (pad27 (repeat (utf16 "MM") 10)).

Definition longTable : list SentenceStructure :=
  [longTemplate (utf16 "。"); longTemplate (utf16 "！")].

(** A template in canonical tags and Chinese literals. *)
Definition canonicalTemplate : SentenceStructure :=
  SS.mk 0 [] 0 (utf16 "。") (pad27 [utf16 "XA"; utf16 "的"; utf16 "MM"; utf16 "DD"]).

(** ** Notions for the poetry engine *)

(** The spellings that [normalizeRhymeScheme] maps to another scheme. *)
Definition rhymeAliases : list jstring :=
  map utf16 ["o"; "uo"; "ui"; "in"; "un"; "vn"; "ing"; "ve"; "iu"; "z"]%string.

(** [normalizePartOfSpeech] reaches its last branch, which warns of an
    unknown tag and answers MM. *)
Definition warnsUnknown (element : jstring) : bool :=
  negb (inLegacyMappings element)
  && negb (oneOf (toUpperCase element) partOfSpeechTags)
  && negb (oneOf element partOfSpeechTags).

(** The options with another value of [useRhyme]. *)
Definition withUseRhyme (b : bool) (options : PoetryGenerationOptions)
  : PoetryGenerationOptions :=
  mkOptions (style options) (paragraphCount options) (linesPerParagraph options)
            b (rhymeScheme options).

(** The sample tables without any template. *)
Definition emptyTableData : DataService :=
  mkData sampleNouns sampleAdjectives sampleIntransitiveVerbs
         sampleTransitiveVerbs sampleInterjections [] [mkSpecial (utf16 "的") 1].

(** A literal slot that expansion leaves alone: it is not empty, holds no
    ASCII lower-case letter and is not read as a part of speech. *)
Definition literalSlot (e : jstring) : bool :=
  negb (eqb e []) && noLower e && negb (isPartOfSpeech e).

(** The text of a run of literal slots. *)
Definition literalText (slots : list jstring) : jstring := concat slots.

(** An expandable template: an interjection, a compound verb and a
    particle. *)
Definition exclaimTemplate : SentenceStructure :=
  SS.mk 0 (utf16 "E") 0 (utf16 "！") (pad27 [utf16 "啊，"; utf16 "Dd"; utf16 "吧"]).

(** A computation that makes at most [k] draws from the random source,
    whether it returns or throws. *)
Definition spends {A} (m : M A) (k : nat) : Prop :=
  forall r, source (snd (m r)) = source r
            /\ drawn r <= drawn (snd (m r)) <= drawn r + k.

(** ** The text of a saved poem (PoetryEngine.savePoetry) *)

(** The code units of a decimal numeral, most significant digit first. *)
Fixpoint uintUnits (d : Decimal.uint) : jstring :=
  match d with
  | Decimal.Nil => []
  | Decimal.D0 d' => 48%N :: uintUnits d'
  | Decimal.D1 d' => 49%N :: uintUnits d'
  | Decimal.D2 d' => 50%N :: uintUnits d'
  | Decimal.D3 d' => 51%N :: uintUnits d'
  | Decimal.D4 d' => 52%N :: uintUnits d'
  | Decimal.D5 d' => 53%N :: uintUnits d'
  | Decimal.D6 d' => 54%N :: uintUnits d'
  | Decimal.D7 d' => 55%N :: uintUnits d'
  | Decimal.D8 d' => 56%N :: uintUnits d'
  | Decimal.D9 d' => 57%N :: uintUnits d'
  end.

(** [Number.prototype.toString] on a poem number: for a non-negative
    integer that a number holds exactly (below [2 ^ 53]) it is the decimal
    numeral without leading zeros. *)
Definition toString (n : N) : jstring := uintUnits (N.to_uint n).

(** [s.padStart(targetLength, fill)] for a fill string of one code
    unit: a string that is long enough is returned as it is. *)
Definition padStart (s : jstring) (targetLength : nat) (fill : N) : jstring :=
  repeat fill (targetLength - length s) ++ s.

Definition newline : jstring := [10%N].

(** The line of asterisks above and below the heading. *)
Definition banner : jstring := utf16 "**************************************".

(** The constants that [savePoetry] computes from the poem number of the
    configuration, the poem and the title. *)
Module Save.

Definition poemNumber (n : N) : jstring := padStart (toString n) 6 48%N.

Definition filename (n : N) : jstring :=
  utf16 "cp" ++ poemNumber n ++ utf16 ".txt".

(** The numbering line under the title. *)
Definition numbering (n : N) : jstring :=
  utf16 "（作品第" ++ poemNumber n ++ utf16 "号）".

Definition content (n : N) (poem : GeneratedPoem) (title : jstring) : jstring :=
  fold_left (fun content line => content ++ (line ++ newline)) (lines poem)
    (((([] ++ (banner ++ newline)) ++ (title ++ newline))
      ++ (numbering n ++ newline)) ++ (banner ++ newline)).

End Save.

(** Reading a decimal numeral: [None] for the empty string and for a
    string with a code unit that is not a digit; leading zeros are
    allowed. *)
Fixpoint unitsUint (s : jstring) : option Decimal.uint :=
  match s with
  | [] => Some Decimal.Nil
  | c :: s' =>
    match unitsUint s' with
    | None => None
    | Some d =>
      if (c =? 48)%N then Some (Decimal.D0 d)
      else if (c =? 49)%N then Some (Decimal.D1 d)
      else if (c =? 50)%N then Some (Decimal.D2 d)
      else if (c =? 51)%N then Some (Decimal.D3 d)
      else if (c =? 52)%N then Some (Decimal.D4 d)
      else if (c =? 53)%N then Some (Decimal.D5 d)
      else if (c =? 54)%N then Some (Decimal.D6 d)
      else if (c =? 55)%N then Some (Decimal.D7 d)
      else if (c =? 56)%N then Some (Decimal.D8 d)
      else if (c =? 57)%N then Some (Decimal.D9 d)
      else None
    end
  end.

Definition readDecimal (s : jstring) : option N :=
  match s with
  | [] => None
  | _ => option_map N.of_uint (unitsUint s)
  end.

(** The pieces of a text between its line feeds
    ([text.split('\n')]). *)
Fixpoint splitLines (text : jstring) : list jstring :=
  match text with
  | [] => [[]]
  | c :: text' =>
    if (c =? 10)%N then [] :: splitLines text'
    else match splitLines text' with
         | piece :: pieces => (c :: piece) :: pieces
         | [] => [[c]]
         end
  end.

(** A string without a line feed. *)
Definition oneLine (s : jstring) : Prop := ~ In 10%N s.

(** A poem number that a JavaScript number holds exactly. *)
Definition exactNumber (n : N) : Prop := (n < 2 ^ 53)%N.

(** A template limited to ['E'] whose only slot is the canonical tag of
    the plain intransitive verb. *)
Definition plainVerbTemplate : SentenceStructure :=
  SS.mk 0 (utf16 "E") 0 (utf16 "。") (pad27 [utf16 "DD"]).

(** The spellings, other than ['Dd'], that line rendering reads as the
    plain intransitive verb. *)
Definition plainVerbSpellings : list jstring :=
  map utf16 ["DD"; "DB"; "dd"; "dD"]%string.

(** The text that the walk of a structure can build, before the
    punctuation is appended. *)
Definition walkText (D : DataService) (options : PoetryGenerationOptions)
  (structure : WorkingStructure) (body : jstring) : Prop :=
  exists r1 r2, generateLineLoop D structure options 27 0 [] r1 = (Ok body, r2).

(** Tables with one template, a noun without punctuation. *)
Definition unpunctuatedData : DataService :=
  mkData sampleNouns sampleAdjectives sampleIntransitiveVerbs
         sampleTransitiveVerbs sampleInterjections
         [SS.mk 0 [] 0 [] (pad27 [utf16 "Mm"])] [].

(* ================================================================== *)
(** * Properties of the string operations *)
(* ================================================================== *)

Lemma eqb_eq (s t : jstring) : eqb s t = true <-> s = t.
Proof.
  revert t; induction s as [|a s IH]; intros [|b t]; simpl; split;
    try congruence; try reflexivity.
  - intros H. apply andb_true_iff in H as [H1 H2].
    apply N.eqb_eq in H1. apply IH in H2. congruence.
  - intros H. injection H as -> ->.
    rewrite N.eqb_refl. simpl. now apply IH.
Qed.

Lemma eqb_refl (s : jstring) : eqb s s = true.
Proof. now apply eqb_eq. Qed.

Lemma eqb_neq (s t : jstring) : eqb s t = false <-> s <> t.
Proof.
  split.
  - intros H E. apply eqb_eq in E. congruence.
  - intros H. destruct (eqb s t) eqn:E; [|reflexivity].
    apply eqb_eq in E. contradiction.
Qed.

Lemma oneOf_In (s : jstring) (l : list jstring) : oneOf s l = true <-> In s l.
Proof.
  unfold oneOf. rewrite existsb_exists. split.
  - intros (x & Hx & E). apply eqb_eq in E. now subst.
  - intros H. exists s. split; [assumption | apply eqb_refl].
Qed.

Lemma isWhite_letter (d : N) : (65 <= d <= 122)%N -> isWhite d = false.
Proof.
  intros Hd. unfold isWhite.
  rewrite (proj2 (N.leb_gt d 13)) by lia.
  rewrite (proj2 (N.leb_gt 8192 d)) by lia.
  rewrite !(proj2 (N.eqb_neq d _)) by lia.
  now rewrite andb_false_r.
Qed.

Lemma isWhite_lowerUnit (c : N) : isWhite (lowerUnit c) = isWhite c.
Proof.
  unfold lowerUnit.
  destruct ((65 <=? c) && (c <=? 90))%N eqn:E; [|reflexivity].
  apply andb_true_iff in E as [E1 E2].
  apply N.leb_le in E1, E2.
  rewrite !isWhite_letter by lia. reflexivity.
Qed.

Lemma lowerUnit_idem (c : N) : lowerUnit (lowerUnit c) = lowerUnit c.
Proof.
  unfold lowerUnit.
  destruct ((65 <=? c) && (c <=? 90))%N eqn:E.
  - apply andb_true_iff in E as [E1 E2]. apply N.leb_le in E1, E2.
    destruct (N.leb_spec 65 (c + 32)); destruct (N.leb_spec (c + 32) 90);
      simpl; try reflexivity; lia.
  - now rewrite E.
Qed.

Lemma toLowerCase_idem (s : jstring) : toLowerCase (toLowerCase s) = toLowerCase s.
Proof.
  unfold toLowerCase. rewrite map_map. apply map_ext. apply lowerUnit_idem.
Qed.

Lemma trimStart_toLowerCase (s : jstring) :
  trimStart (toLowerCase s) = toLowerCase (trimStart s).
Proof.
  induction s as [|c s IH]; simpl; [reflexivity|].
  rewrite isWhite_lowerUnit. now destruct (isWhite c).
Qed.

Lemma trimEnd_toLowerCase (s : jstring) :
  trimEnd (toLowerCase s) = toLowerCase (trimEnd s).
Proof.
  induction s as [|c s IH]; simpl; [reflexivity|].
  fold (toLowerCase s). rewrite IH, isWhite_lowerUnit.
  destruct (trimEnd s); simpl; [now destruct (isWhite c) | reflexivity].
Qed.

Lemma trim_toLowerCase (s : jstring) : trim (toLowerCase s) = toLowerCase (trim s).
Proof. unfold trim. now rewrite trimStart_toLowerCase, trimEnd_toLowerCase. Qed.

Lemma trimStart_cleanStart (s : jstring) : cleanStart (trimStart s).
Proof.
  induction s as [|c s IH]; simpl; [exact I|].
  destruct (isWhite c) eqn:E; [assumption | exact E].
Qed.

Lemma cleanStart_trimStart (s : jstring) : cleanStart s -> trimStart s = s.
Proof. destruct s as [|c s]; simpl; [reflexivity | now intros ->]. Qed.

Lemma trimEnd_cleanStart (s : jstring) : cleanStart s -> cleanStart (trimEnd s).
Proof.
  destruct s as [|c s]; simpl; [trivial|]. intros H.
  destruct (trimEnd s); [now rewrite H | exact H].
Qed.

Lemma trimEnd_idem (s : jstring) : trimEnd (trimEnd s) = trimEnd s.
Proof.
  induction s as [|c s IH]; simpl; [reflexivity|].
  destruct (trimEnd s) as [|d t] eqn:E.
  - destruct (isWhite c) eqn:W; simpl; [reflexivity | now rewrite W].
  - change (trimEnd (c :: d :: t)) with
      (match trimEnd (d :: t) with
       | [] => if isWhite c then [] else [c]
       | u => c :: u
       end).
    now rewrite IH.
Qed.

Lemma trim_idem (s : jstring) : trim (trim s) = trim s.
Proof.
  unfold trim.
  rewrite (cleanStart_trimStart (trimEnd (trimStart s))).
  - apply trimEnd_idem.
  - apply trimEnd_cleanStart, trimStart_cleanStart.
Qed.

Lemma trimStart_length (s : jstring) : length (trimStart s) <= length s.
Proof.
  induction s as [|c s IH]; simpl; [lia|].
  destruct (isWhite c); simpl; lia.
Qed.

Lemma trimEnd_length (s : jstring) : length (trimEnd s) <= length s.
Proof.
  induction s as [|c s IH]; simpl; [lia|].
  destruct (trimEnd s); [destruct (isWhite c)|]; simpl in *; lia.
Qed.

Lemma trim_fix_trimStart (p : jstring) : trim p = p -> trimStart p = p.
Proof.
  intros H. destruct p as [|c p]; [reflexivity|]. simpl.
  destruct (isWhite c) eqn:W; [|reflexivity]. exfalso.
  assert (L : length (trim (c :: p)) <= length p).
  { unfold trim. simpl. rewrite W.
    etransitivity; [apply trimEnd_length | apply trimStart_length]. }
  rewrite H in L. simpl in L. lia.
Qed.

Lemma trim_fix_trimEnd (p : jstring) : trim p = p -> trimEnd p = p.
Proof.
  intros H. pose proof (trim_fix_trimStart p H) as E.
  unfold trim in H. now rewrite E in H.
Qed.

Lemma trimEnd_app_fix (w p : jstring) :
  p <> [] -> trimEnd p = p -> trimEnd (w ++ p) = w ++ p.
Proof.
  intros Hp E. induction w as [|c w IH]; simpl; [assumption|].
  rewrite IH. destruct (w ++ p) eqn:A; [|reflexivity].
  apply app_eq_nil in A as [_ A]. contradiction.
Qed.

Lemma trimStart_app_fix (w p : jstring) :
  trimStart p = p -> exists w', trimStart (w ++ p) = w' ++ p.
Proof.
  intros E. induction w as [|c w IH]; simpl.
  - exists []. assumption.
  - destruct (isWhite c); [assumption|]. now exists (c :: w).
Qed.

(** Trimming keeps a suffix that is itself trimmed. *)
Lemma trim_app_fix (w p : jstring) :
  trim p = p -> exists w', trim (w ++ p) = w' ++ p.
Proof.
  intros H. destruct p as [|c p].
  - exists (trim (w ++ [])). symmetry. apply app_nil_r.
  - destruct (trimStart_app_fix w _ (trim_fix_trimStart _ H)) as [w' E].
    exists w'. unfold trim. rewrite E.
    apply trimEnd_app_fix; [discriminate | now apply trim_fix_trimEnd].
Qed.

Lemma trimStart_hasInk (s : jstring) : hasInk (trimStart s) = hasInk s.
Proof.
  induction s as [|c s IH]; simpl; [reflexivity|].
  destruct (isWhite c) eqn:W; simpl; [assumption | now rewrite W].
Qed.

Lemma trimEnd_nil (s : jstring) : trimEnd s = [] -> hasInk s = false.
Proof.
  induction s as [|c s IH]; simpl; [reflexivity|].
  destruct (trimEnd s); [|discriminate].
  destruct (isWhite c); [|discriminate]. intros _. now apply IH.
Qed.

Lemma trim_hasInk (s : jstring) : hasInk s = true -> trim s <> [].
Proof.
  intros H E. unfold trim in E. apply trimEnd_nil in E.
  rewrite trimStart_hasInk in E. congruence.
Qed.

Lemma hasInk_app_r (w p : jstring) : hasInk p = true -> hasInk (w ++ p) = true.
Proof. intros H. unfold hasInk in *. rewrite existsb_app, H. apply orb_true_r. Qed.

Lemma hasInk_app (w p : jstring) : hasInk (w ++ p) = hasInk w || hasInk p.
Proof. unfold hasInk. apply existsb_app. Qed.

Lemma trimStart_blank (s : jstring) : hasInk s = false -> trimStart s = [].
Proof.
  induction s as [|c s IH]; [reflexivity|].
  cbn [hasInk existsb trimStart]. intros H. apply orb_false_iff in H as [Hc Hs].
  apply negb_false_iff in Hc. rewrite Hc. apply IH. exact Hs.
Qed.

(** A string is trimmed to nothing exactly when it is blank. *)
Lemma trim_nil_iff (s : jstring) : trim s = [] <-> hasInk s = false.
Proof.
  split.
  - intros E. unfold trim in E. apply trimEnd_nil in E.
    rewrite trimStart_hasInk in E. exact E.
  - intros H. unfold trim. rewrite (trimStart_blank s H). reflexivity.
Qed.

Lemma trimStart_In (c : N) (s : jstring) : In c (trimStart s) -> In c s.
Proof.
  induction s as [|d s IH]; simpl; [trivial|].
  destruct (isWhite d); simpl; tauto.
Qed.

Lemma trimEnd_In (c : N) (s : jstring) : In c (trimEnd s) -> In c s.
Proof.
  induction s as [|d s IH]; simpl; [trivial|].
  destruct (trimEnd s) as [|e t].
  - destruct (isWhite d); simpl; tauto.
  - simpl in *. tauto.
Qed.

Lemma trim_In (c : N) (s : jstring) : In c (trim s) -> In c s.
Proof. intros H. now apply trimStart_In, trimEnd_In. Qed.

(* ================================================================== *)
(** * Properties of the monad and of the random pick *)
(* ================================================================== *)

Lemma bind_Ok {A B} (m : M A) (k : A -> M B) (r r' : Rng) (b : B) :
  bind m k r = (Ok b, r') ->
  exists a r1, m r = (Ok a, r1) /\ k a r1 = (Ok b, r').
Proof.
  unfold bind. destruct (m r) as [[a|e] r1]; intros H.
  - now exists a, r1.
  - discriminate.
Qed.

Lemma bind_run {A B} (m : M A) (k : A -> M B) (r r1 : Rng) (a : A) :
  m r = (Ok a, r1) -> bind m k r = k a r1.
Proof. unfold bind. now intros ->. Qed.

Lemma bind_throw {A B} (m : M A) (k : A -> M B) (r r1 : Rng) (e : Error) :
  m r = (Throw e, r1) -> bind m k r = (Throw e, r1).
Proof. unfold bind. now intros ->. Qed.

Lemma getRandomWord_nil (r : Rng) : getRandomWord [] r = (Throw EmptyWordList, r).
Proof. reflexivity. Qed.

(** On a non-empty list the pick consumes one draw and returns the entry
    at the drawn index. *)
Lemma getRandomWord_pick (words : list WordRecord) (r : Rng) :
  words <> [] ->
  exists w, In w words /\ getRandomWord words r = (Ok w, next r).
Proof.
  intros H. destruct words as [|w0 ws]; [contradiction|].
  pose (i := source r (drawn r) mod S (length ws)).
  assert (L : i < length (w0 :: ws)).
  { apply Nat.mod_upper_bound. discriminate. }
  destruct (nth_error (w0 :: ws) i) as [w|] eqn:E.
  - exists w. split; [eapply nth_error_In; eassumption|].
    unfold getRandomWord, bind, randomIndex.
    cbn [length]. fold i. now rewrite E.
  - apply nth_error_None in E. lia.
Qed.

Lemma filter_nil_length {A} (f : A -> bool) (l : list A) :
  (length (filter f l) =? 0) = true <-> filter f l = [].
Proof.
  rewrite Nat.eqb_eq. destruct (filter f l); simpl; split;
    congruence || discriminate || reflexivity.
Qed.

Lemma rhyming_vowel (rs : jstring) (pool : list WordRecord) (w : WordRecord) :
  In w (rhyming rs pool) -> In w pool /\ vowel w = rs.
Proof.
  unfold rhyming. rewrite filter_In. intros [H E].
  apply eqb_eq in E. now split.
Qed.

(** What [selectBasicWord] does when a rhyme is wanted. *)
Lemma selectBasicWord_rhyme (words : list WordRecord) (needsRhyme : bool)
  (rs : jstring) (r : Rng) :
  wantsRhyme needsRhyme (Some rs) = true ->
  selectBasicWord words needsRhyme (Some rs) r =
  match rhyming rs words with
  | [] => (w <- getRandomWord words ;; ret (word w)) r
  | _ => (w <- getRandomWord (rhyming rs words) ;; ret (word w)) r
  end.
Proof.
  intros H. unfold selectBasicWord. rewrite H. cbn [isScheme andb].
  fold (rhyming rs words). now destruct (rhyming rs words).
Qed.

Lemma selectWord_basic (D : DataService) (tag : jstring) (needsRhyme : bool)
  (rs : RhymeOpt) :
  In tag basicTags ->
  exists pool, getWordsByPartOfSpeech D tag = Ok pool /\
    forall r, selectWord D (Ctx.mk tag needsRhyme rs) r
              = selectBasicWord pool needsRhyme rs r.
Proof.
  intros H. simpl in H.
  destruct H as [<-|[<-|[<-|[<-|[]]]]]; eexists; split; reflexivity.
Qed.

Lemma selectWord_DD (D : DataService) (needsRhyme : bool) (rs : RhymeOpt) (r : Rng) :
  selectWord D (Ctx.mk (utf16 "DD") needsRhyme rs) r
  = selectIntransitiveVerb (getIntransitiveVerbs D) needsRhyme rs r.
Proof. reflexivity. Qed.

(* ================================================================== *)
(** * Rhyme scheme normalization *)
(* ================================================================== *)







(** Folding case and trimming a string that is already folded and trimmed
    changes nothing. *)
Lemma fold_trim_idem (x : jstring) :
  trim (toLowerCase (trim (toLowerCase x))) = trim (toLowerCase x).
Proof. now rewrite !trim_toLowerCase, trim_idem, toLowerCase_idem. Qed.


Lemma normalizeRhymeScheme_idem (x : jstring) :
  normalizeRhymeScheme (normalizeRhymeScheme x) = normalizeRhymeScheme x.
Proof.
  unfold normalizeRhymeScheme at 2 3. cbv zeta.
  pose proof (fold_trim_idem x) as F.
  set (y := trim (toLowerCase x)) in *.
  repeat match goal with
  | |- context [if ?b then _ else _] =>
      let E := fresh "E" in destruct b eqn:E; [reflexivity|]
  end.
  unfold normalizeRhymeScheme. cbv zeta. rewrite F.
  repeat match goal with
  | E : ?b = false |- context [if ?b then _ else _] => rewrite E
  end.
  reflexivity.
Qed.

Lemma plainUnit_lowerUnit (c : N) : plainUnit c = true -> plainUnit (lowerUnit c) = true.
Proof.
  unfold lowerUnit. destruct ((65 <=? c) && (c <=? 90))%N eqn:E; [|trivial].
  intros _. apply andb_true_iff in E as [_ E]. apply N.leb_le in E.
  unfold plainUnit. rewrite (proj2 (N.ltb_lt (c + 32) 128)) by lia. reflexivity.
Qed.

Lemma plainUnit_upperUnit (c : N) : plainUnit c = true -> plainUnit (upperUnit c) = true.
Proof.
  unfold upperUnit. destruct ((97 <=? c) && (c <=? 122))%N eqn:E; [|trivial].
  intros _. apply andb_true_iff in E as [_ E]. apply N.leb_le in E.
  unfold plainUnit. rewrite (proj2 (N.ltb_lt (c - 32) 128)) by lia. reflexivity.
Qed.

Lemma plain_toLowerCase (s : jstring) : plain s = true -> plain (toLowerCase s) = true.
Proof.
  unfold plain, toLowerCase. rewrite !forallb_forall. intros H c Hc.
  apply in_map_iff in Hc as (d & <- & Hd). apply plainUnit_lowerUnit, H, Hd.
Qed.

Lemma plain_toUpperCase (s : jstring) : plain s = true -> plain (toUpperCase s) = true.
Proof.
  unfold plain, toUpperCase. rewrite !forallb_forall. intros H c Hc.
  apply in_map_iff in Hc as (d & <- & Hd). apply plainUnit_upperUnit, H, Hd.
Qed.

Lemma plain_trim (s : jstring) : plain s = true -> plain (trim s) = true.
Proof.
  unfold plain. rewrite !forallb_forall. intros H c Hc. apply H, trim_In, Hc.
Qed.

(** The value of [normalizeRhymeScheme] on plain text is plain text. *)
Lemma plain_normalizeRhymeScheme (x : jstring) :
  plain x = true -> plain (normalizeRhymeScheme x) = true.
Proof.
  intros H. unfold normalizeRhymeScheme. cbv zeta.
  pose proof (plain_trim _ (plain_toLowerCase _ H)) as F.
  set (y := trim (toLowerCase x)) in *.
  repeat match goal with
  | |- context [if ?b then _ else _] => destruct b; [reflexivity|]
  end.
  exact F.
Qed.



(* ================================================================== *)
(** * Word selection under a rhyme *)
(* ================================================================== *)

(** C6.  For the tags MM, TT, DJ and XA, when [needsRhyme] is set and a
    (non-empty) scheme is given, the word is drawn from the entries of the
    pool whose vowel is the scheme as soon as there is one, so that the
    record it comes from has that vowel; only when there is none is it
    drawn from the whole pool. *)
Theorem basic_word_rhyme_restriction (D : DataService) (tag rs : jstring)
  (needsRhyme : bool) (r : Rng) :
  In tag basicTags ->
  wantsRhyme needsRhyme (Some rs) = true ->
  exists pool,
    getWordsByPartOfSpeech D tag = Ok pool /\
    (rhyming rs pool <> [] ->
       exists w, In w (rhyming rs pool) /\ In w pool /\ vowel w = rs /\
         selectWord D (Ctx.mk tag needsRhyme (Some rs)) r = (Ok (word w), next r)) /\
    (rhyming rs pool = [] ->
       selectWord D (Ctx.mk tag needsRhyme (Some rs)) r
       = (w <- getRandomWord pool ;; ret (word w)) r).
Proof.
  intros Htag Hwant.
  destruct (selectWord_basic D tag needsRhyme (Some rs) Htag) as (pool & Hpool & Hsel).
  exists pool. split; [assumption|]. split.
  - intros Hne.
    destruct (getRandomWord_pick (rhyming rs pool) r Hne) as (w & Hin & Hpick).
    exists w. destruct (rhyming_vowel rs pool w Hin) as [Hp Hv].
    repeat split; try assumption.
    rewrite Hsel, selectBasicWord_rhyme by assumption.
    destruct (rhyming rs pool); [contradiction|].
    now rewrite (bind_run _ _ _ _ _ Hpick).
  - intros Hnil. rewrite Hsel, selectBasicWord_rhyme by assumption.
    now rewrite Hnil.
Qed.

(** C10.  For the tag DD, when [needsRhyme] is set, a scheme is given and
    no intransitive verb has that vowel, [selectWord] throws (empty word
    list), whatever else the pool holds; for MM, TT, DJ and XA the same
    situation falls back to a word of the non-empty unfiltered pool. *)
Theorem intransitive_rhyme_no_fallback (D : DataService) (rs : jstring) (r : Rng) :
  truthy rs = true ->
  rhyming rs (getIntransitiveVerbs D) = [] ->
  selectWord D (Ctx.mk (utf16 "DD") true (Some rs)) r = (Throw EmptyWordList, r)
  /\ forall tag pool,
       In tag basicTags ->
       getWordsByPartOfSpeech D tag = Ok pool ->
       rhyming rs pool = [] ->
       pool <> [] ->
       exists w, In w pool /\
         selectWord D (Ctx.mk tag true (Some rs)) r = (Ok (word w), next r).
Proof.
  intros Hrs Hnil. split.
  - rewrite selectWord_DD. unfold selectIntransitiveVerb, getRandomRhymingWord.
    cbn [wantsRhyme andb isScheme]. rewrite Hrs.
    fold (rhyming rs (getIntransitiveVerbs D)). rewrite Hnil.
    reflexivity.
  - intros tag pool Htag Hpool Hempty Hne.
    destruct (selectWord_basic D tag true (Some rs) Htag) as (pool' & Hpool' & Hsel).
    assert (pool' = pool) by congruence. subst pool'.
    destruct (getRandomWord_pick pool r Hne) as (w & Hin & Hpick).
    exists w. split; [assumption|].
    rewrite Hsel, selectBasicWord_rhyme by (cbn; now rewrite Hrs).
    rewrite Hempty. now rewrite (bind_run _ _ _ _ _ Hpick).
Qed.

(* ================================================================== *)
(** * Splittable verbs *)
(* ================================================================== *)

Lemma indexOf_split (stem comp : jstring) :
  ~ In slash stem ->
  indexOf (stem ++ slash :: comp) slash = Z.of_nat (length stem).
Proof.
  induction stem as [|a stem IH]; intros H.
  - reflexivity.
  - cbn [app indexOf length].
    destruct (N.eqb_spec a slash) as [->|_]; [exfalso; apply H; now left|].
    rewrite IH by (intros F; apply H; now right).
    destruct (Z.eqb_spec (Z.of_nat (length stem)) (-1)); lia.
Qed.

Lemma substring_stem (stem comp : jstring) :
  substring (stem ++ slash :: comp) 0 (Z.of_nat (length stem)) = stem.
Proof.
  unfold substring, clamp. rewrite Nat2Z.id, length_app. cbn [length Z.to_nat].
  rewrite Nat.min_0_l, Nat.min_0_l, Nat.max_0_l, Nat.sub_0_r.
  rewrite (Nat.min_l (length stem)) by lia.
  cbn [skipn]. now rewrite firstn_app, firstn_all, Nat.sub_diag, app_nil_r.
Qed.

Lemma substringFrom_comp (stem comp : jstring) :
  substringFrom (stem ++ slash :: comp) (Z.of_nat (length stem) + 1) = comp.
Proof.
  unfold substringFrom, substring, clamp.
  rewrite Nat2Z.id, length_app. cbn [length].
  replace (Z.to_nat (Z.of_nat (length stem) + 1)) with (S (length stem)) by lia.
  rewrite Nat.min_id, (Nat.min_l (S (length stem))) by lia.
  rewrite Nat.max_r, Nat.min_l by lia.
  replace (length stem + S (length comp) - S (length stem)) with (length comp) by lia.
  replace (S (length stem)) with (length (stem ++ [slash]))
    by (rewrite length_app; simpl; lia).
  replace (stem ++ slash :: comp) with ((stem ++ [slash]) ++ comp)
    by (now rewrite <- app_assoc).
  now rewrite skipn_app, skipn_all, Nat.sub_diag, firstn_all.
Qed.

(** A word with exactly one separator is a stem, the separator and a
    complement, neither of which holds a separator. *)
Lemma split_once (w : jstring) :
  count_occ N.eq_dec w slash = 1 ->
  exists stem comp,
    w = stem ++ slash :: comp /\ ~ In slash stem /\ ~ In slash comp.
Proof.
  induction w as [|a w IH]; [discriminate|].
  destruct (N.eq_dec a slash) as [->|Hne].
  - rewrite count_occ_cons_eq by reflexivity. intros H.
    exists [], w. repeat split; [tauto|].
    apply (count_occ_not_In N.eq_dec). lia.
  - rewrite count_occ_cons_neq by assumption. intros H.
    destruct (IH H) as (stem & comp & -> & Hs & Hc).
    exists (a :: stem), comp. repeat split; [|assumption].
    intros [F|F]; [contradiction | now apply Hs].
Qed.

Lemma includes_In (w : jstring) (c : N) : includes w c = true <-> In c w.
Proof.
  unfold includes. rewrite existsb_exists. split.
  - intros (x & Hx & E). apply N.eqb_eq in E. now subst.
  - intros H. exists c. split; [assumption | apply N.eqb_refl].
Qed.

(** The pool [selectProgressiveVerb] draws from holds splittable verbs of
    [words] only, and one at least when [words] has one. *)
Lemma progressive_pool (words : list WordRecord) (needsRhyme : bool) (rs : RhymeOpt) :
  let candidateWords := filter (fun w => includes (word w) slash) words in
  let rhymingWords := filter (fun w => isScheme (vowel w) rs) candidateWords in
  let pool := if wantsRhyme needsRhyme rs && negb (length rhymingWords =? 0)
              then rhymingWords else candidateWords in
  candidateWords <> [] ->
  pool <> [] /\
  forall w, In w pool -> In w words /\ includes (word w) slash = true.
Proof.
  intros candidateWords rhymingWords pool Hne. subst pool.
  destruct (wantsRhyme needsRhyme rs && negb (length rhymingWords =? 0)) eqn:E.
  - apply andb_true_iff in E as [_ E]. apply negb_true_iff in E.
    split.
    + intros F. rewrite F in E. discriminate.
    + intros w Hw. apply filter_In in Hw as [Hw _].
      now apply filter_In in Hw.
  - split; [assumption|]. intros w Hw. now apply filter_In in Hw.
Qed.

Lemma nonempty_length {A} (l : list A) : l <> [] -> (length l =? 0) = false.
Proof. destruct l; [contradiction | reflexivity]. Qed.

Lemma selectProgressiveVerb_pick (words : list WordRecord) (needsRhyme : bool)
  (rs : RhymeOpt) (r : Rng) :
  filter (fun w => includes (word w) slash) words <> [] ->
  exists w, In w words /\ includes (word w) slash = true /\
    selectProgressiveVerb words needsRhyme rs r =
    (Ok (let wordText := word w in
         let slashIndex := indexOf wordText slash in
         if negb (slashIndex =? -1)%Z
         then substring wordText 0 slashIndex ++ utf16 "着"
              ++ substringFrom wordText (slashIndex + 1)
         else wordText ++ utf16 "着"), next r).
Proof.
  intros Hne.
  destruct (progressive_pool words needsRhyme rs Hne) as [Hpool Hsub].
  unfold selectProgressiveVerb. cbv zeta in *.
  match goal with |- context [getRandomWord ?l] => set (pool := l) in * end.
  rewrite (nonempty_length pool Hpool).
  destruct (getRandomWord_pick pool r Hpool) as (w & Hin & Hpick).
  exists w. destruct (Hsub w Hin) as [Hw Hs]. repeat split; try assumption.
  rewrite (bind_run _ _ _ _ _ Hpick).
  now destruct (negb (indexOf (word w) slash =? -1)%Z).
Qed.

Lemma selectResultativeVerb_pick (words : list WordRecord) (r : Rng) :
  filter (fun w => includes (word w) slash) words <> [] ->
  exists w, In w words /\ includes (word w) slash = true /\
    selectResultativeVerb words r =
    (Ok (let wordText := word w in
         let slashIndex := indexOf wordText slash in
         if negb (slashIndex =? -1)%Z
         then trim (substringFrom wordText (slashIndex + 1))
              ++ substring wordText 0 slashIndex ++ utf16 "得"
         else wordText ++ utf16 "得"), next r).
Proof.
  intros Hne. unfold selectResultativeVerb. cbv zeta.
  set (pool := filter _ words) in *.
  rewrite (nonempty_length pool Hne).
  destruct (getRandomWord_pick pool r Hne) as (w & Hin & Hpick).
  exists w. apply filter_In in Hin as [Hw Hs]. repeat split; try assumption.
  rewrite (bind_run _ _ _ _ _ Hpick).
  now destruct (negb (indexOf (word w) slash =? -1)%Z).
Qed.

Lemma splittable_nonempty (words : list WordRecord) :
  (exists rec, In rec words /\ includes (word rec) slash = true) ->
  filter (fun w => includes (word w) slash) words <> [].
Proof.
  intros (rec & Hin & Hs) F.
  assert (H : In rec (filter (fun w => includes (word w) slash) words))
    by (apply filter_In; now split).
  now rewrite F in H.
Qed.

Lemma split_forms (stem comp : jstring) :
  ~ In slash stem ->
  let wordText := stem ++ slash :: comp in
  let slashIndex := indexOf wordText slash in
  negb (slashIndex =? -1)%Z = true
  /\ substring wordText 0 slashIndex = stem
  /\ substringFrom wordText (slashIndex + 1) = comp.
Proof.
  intros Hs. cbv zeta. rewrite (indexOf_split stem comp Hs).
  split; [|split].
  - destruct (Z.eqb_spec (Z.of_nat (length stem)) (-1)); [lia | reflexivity].
  - apply substring_stem.
  - apply substringFrom_comp.
Qed.

(** C8.  In a pool whose splittable verbs hold the separator exactly once
    (stem/complement), the progressive selector returns stem + 着 +
    complement of one of them, which contains the progressive suffix, and
    the resultative selector returns trimmed complement + stem + 得 of one
    of them, which contains the resultative suffix and no separator.  On
    the single record 骑/马 the resultative selector yields 马骑得 and the
    progressive selector 骑着马. *)
Theorem splittable_verb_forms (words : list WordRecord) (needsRhyme : bool)
  (rs : RhymeOpt) (r : Rng) :
  (forall rec, In rec words -> includes (word rec) slash = true ->
               count_occ N.eq_dec (word rec) slash = 1) ->
  (exists rec, In rec words /\ includes (word rec) slash = true) ->
  (exists rec stem comp,
      In rec words /\ word rec = stem ++ slash :: comp /\
      ~ In slash stem /\ ~ In slash comp /\
      selectProgressiveVerb words needsRhyme rs r
        = (Ok (stem ++ utf16 "着" ++ comp), next r) /\
      In zhe (stem ++ utf16 "着" ++ comp))
  /\ (exists rec stem comp,
      In rec words /\ word rec = stem ++ slash :: comp /\
      ~ In slash stem /\ ~ In slash comp /\
      selectResultativeVerb words r
        = (Ok (trim comp ++ stem ++ utf16 "得"), next r) /\
      In de (trim comp ++ stem ++ utf16 "得") /\
      ~ In slash (trim comp ++ stem ++ utf16 "得"))
  /\ (forall v p,
      selectResultativeVerb (ridePool v p) r = (Ok (utf16 "马骑得"), next r) /\
      selectProgressiveVerb (ridePool v p) needsRhyme rs r
        = (Ok (utf16 "骑着马"), next r)).
Proof.
  intros Honce Hex.
  pose proof (splittable_nonempty words Hex) as Hne.
  split; [|split].
  - destruct (selectProgressiveVerb_pick words needsRhyme rs r Hne)
      as (w & Hw & Hs & Hsel).
    destruct (split_once (word w) (Honce w Hw Hs)) as (stem & comp & E & H1 & H2).
    exists w, stem, comp. repeat split; try assumption.
    + rewrite Hsel, E. cbv zeta.
      destruct (split_forms stem comp H1) as (-> & -> & ->). reflexivity.
    + rewrite !in_app_iff. right; left. now left.
  - destruct (selectResultativeVerb_pick words r Hne) as (w & Hw & Hs & Hsel).
    destruct (split_once (word w) (Honce w Hw Hs)) as (stem & comp & E & H1 & H2).
    exists w, stem, comp. repeat split; try assumption.
    + rewrite Hsel, E. cbv zeta.
      destruct (split_forms stem comp H1) as (-> & -> & ->). reflexivity.
    + rewrite !in_app_iff. right; right. now left.
    + rewrite !in_app_iff. intros [F|[F|F]].
      * apply trim_In in F. contradiction.
      * contradiction.
      * simpl in F. destruct F as [F|[]]. discriminate.
  - intros v p. split.
    + reflexivity.
    + unfold selectProgressiveVerb, ridePool. cbv zeta.
      destruct (wantsRhyme needsRhyme rs
                && negb (length (filter (fun w => isScheme (vowel w) rs)
                   (filter (fun w => includes (word w) slash)
                      [mkWord (utf16 "骑/马") v p])) =? 0)) eqn:E.
      * apply andb_true_iff in E as [_ E]. apply negb_true_iff in E.
        cbn [filter word] in *.
        change (includes (utf16 "骑/马") slash) with true in *. cbn [filter vowel] in *.
        destruct (isScheme v rs); [reflexivity | discriminate].
      * reflexivity.
Qed.

(* ================================================================== *)
(** * Template selection *)
(* ================================================================== *)

Lemma randomIndex_run (n : nat) (r : Rng) :
  n <> 0 -> randomIndex n r = (Ok (source r (drawn r) mod n), next r).
Proof. unfold randomIndex. destruct n; [contradiction | reflexivity]. Qed.

Lemma candidate_some (structures : list SentenceStructure) (src : nat -> nat) (i : nat) :
  structures <> [] ->
  exists c, candidate structures src i = Some c /\ In c structures.
Proof.
  intros H. unfold candidate.
  destruct (nth_error structures (src i mod length structures)) as [c|] eqn:E.
  - exists c. split; [reflexivity | eapply nth_error_In; eassumption].
  - apply nth_error_None in E.
    assert (src i mod length structures < length structures).
    { apply Nat.mod_upper_bound. destruct structures; [contradiction | discriminate]. }
    lia.
Qed.

Lemma length_nonzero {A} (l : list A) : l <> [] -> length l <> 0.
Proof. destruct l; [contradiction | discriminate]. Qed.

(** One more rejected draw in front of a sampling outcome. *)
Lemma sampled_step (accepts : SentenceStructure -> bool)
  (structures : list SentenceStructure) (budget : nat) (r r' : Rng)
  (c structure : SentenceStructure) :
  candidate structures (source r) (drawn r) = Some c ->
  accepts c = false ->
  sampled accepts structures budget (next r) structure r' ->
  sampled accepts structures (S budget) r structure r'.
Proof.
  intros Hc Hrej (Hin & Hsrc & k & Hk & Hd & Hbefore & Hend).
  cbn [next source drawn] in *.
  split; [assumption|]. split; [assumption|].
  assert (Hshift : forall i, i < S k - 1 ->
            exists c0, candidate structures (source r) (drawn r + i) = Some c0
                       /\ accepts c0 = false).
  { intros [|i] Hi.
    - rewrite Nat.add_0_r. now exists c.
    - replace (drawn r + S i) with (S (drawn r) + i) by lia.
      apply Hbefore. lia. }
  exists (S k). split; [lia|]. split; [lia|]. split; [exact Hshift|].
  destruct Hend as [(Hk1 & Hlast & Hacc)|(Hkb & Hfirst & Hall)].
  - left. split; [lia|]. split; [|assumption].
    replace (drawn r + (S k - 1)) with (S (drawn r) + (k - 1)) by lia.
    assumption.
  - right. split; [lia|]. split; [assumption|].
    intros [|i] Hi.
    + rewrite Nat.add_0_r. now exists c.
    + replace (drawn r + S i) with (S (drawn r) + i) by lia.
      apply Hall. lia.
Qed.

Lemma sampled_accept (accepts : SentenceStructure -> bool)
  (structures : list SentenceStructure) (budget : nat) (r : Rng)
  (c : SentenceStructure) :
  candidate structures (source r) (drawn r) = Some c ->
  In c structures ->
  accepts c = true ->
  sampled accepts structures (S budget) r c (next r).
Proof.
  intros Hc Hin Hacc. split; [assumption|]. split; [reflexivity|].
  exists 1. cbn [next drawn]. split; [lia|]. split; [lia|]. split.
  - intros i Hi. lia.
  - left. split; [lia|]. cbn. rewrite Nat.add_0_r. now split.
Qed.

Lemma sampled_exhausted (accepts : SentenceStructure -> bool)
  (structures : list SentenceStructure) (r : Rng) (c : SentenceStructure) :
  nth_error structures 0 = Some c ->
  sampled accepts structures 0 r c r.
Proof.
  intros H. split; [eapply nth_error_In; eassumption|]. split; [reflexivity|].
  exists 0. split; [lia|]. split; [lia|]. split.
  - intros i Hi. lia.
  - right. split; [reflexivity|]. split; [assumption|]. intros i Hi. lia.
Qed.

Lemma selectQuietLoop_sampled (structures : list SentenceStructure)
  (needsRhyme : bool) (rs : RhymeOpt) (budget : nat) (r : Rng) :
  structures <> [] ->
  exists structure r',
    selectQuietLoop structures needsRhyme rs budget r = (Ok (Some structure), r')
    /\ sampled (quietAccepts needsRhyme rs) structures budget r structure r'.
Proof.
  intros Hne. revert r. induction budget as [|budget IH]; intros r.
  - destruct structures as [|c0 rest]; [contradiction|].
    exists c0, r. split; [reflexivity|]. now apply sampled_exhausted.
  - destruct (candidate_some structures (source r) (drawn r) Hne) as (c & Hc & Hin).
    cbn [selectQuietLoop].
    rewrite (bind_run _ _ _ _ _ (randomIndex_run _ r (length_nonzero _ Hne))).
    unfold candidate in Hc. rewrite Hc.
    destruct (quietAccepts needsRhyme rs c) eqn:A; unfold quietAccepts in A.
    + apply andb_true_iff in A as [A1 A2]. apply negb_true_iff in A2.
      rewrite A1, A2. cbn [negb]. exists c, (next r). split; [reflexivity|].
      apply sampled_accept; try assumption.
      unfold quietAccepts. now rewrite A1, A2.
    + destruct (IH (next r)) as (s & r' & Hrun & Hs).
      exists s, r'. split.
      * destruct (isQuiet c); cbn [negb]; [|exact Hrun].
        cbn [andb negb] in A. apply negb_false_iff in A. now rewrite A.
      * eapply sampled_step; eassumption.
Qed.

Lemma selectBoldLoop_sampled (structures : list SentenceStructure)
  (needsRhyme : bool) (rs : RhymeOpt) (budget : nat) (r : Rng) :
  structures <> [] ->
  exists structure r',
    selectBoldLoop structures needsRhyme rs budget r = (Ok (Some structure), r')
    /\ sampled (boldAccepts needsRhyme rs) structures budget r structure r'.
Proof.
  intros Hne. revert r. induction budget as [|budget IH]; intros r.
  - destruct structures as [|c0 rest]; [contradiction|].
    exists c0, r. split; [reflexivity|]. now apply sampled_exhausted.
  - destruct (candidate_some structures (source r) (drawn r) Hne) as (c & Hc & Hin).
    cbn [selectBoldLoop].
    rewrite (bind_run _ _ _ _ _ (randomIndex_run _ r (length_nonzero _ Hne))).
    unfold candidate in Hc. rewrite Hc.
    destruct (boldAccepts needsRhyme rs c) eqn:A; unfold boldAccepts in A.
    + apply negb_true_iff in A. rewrite A.
      exists c, (next r). split; [reflexivity|].
      apply sampled_accept; try assumption.
      unfold boldAccepts. now rewrite A.
    + destruct (IH (next r)) as (s & r' & Hrun & Hs).
      exists s, r'. apply negb_false_iff in A. rewrite A. split; [exact Hrun|].
      eapply sampled_step; try eassumption.
      unfold boldAccepts. now rewrite A.
Qed.

(** C5, as amended.  On a non-empty table, selecting a template for one
    line position raises no error and makes at most 100 draws: it returns
    a template of the table that is either the last one drawn, which
    passes the style and rhyme rules while every draw before it failed
    them, or, after 100 rejected draws, the first template of the table. *)
Theorem template_selection_bounded (structures : list SentenceStructure)
  (needsRhyme : bool) (rs : RhymeOpt) (r : Rng) :
  structures <> [] ->
  (exists structure r',
     selectQuietStructure structures needsRhyme rs r = (Ok (Some structure), r')
     /\ sampled (quietAccepts needsRhyme rs) structures 100 r structure r')
  /\ (exists structure r',
     selectBoldStructure structures needsRhyme rs r = (Ok (Some structure), r')
     /\ sampled (boldAccepts needsRhyme rs) structures 100 r structure r').
Proof.
  intros Hne. split.
  - apply selectQuietLoop_sampled; assumption.
  - apply selectBoldLoop_sampled; assumption.
Qed.

(* ================================================================== *)
(** * Expansion of a template *)
(* ================================================================== *)

Lemma skipn_cons_nth {A} (l : list A) (i : nat) (e d : A) (rest : list A) :
  skipn i l = e :: rest -> nth i l d = e /\ skipn (i + 1) l = rest.
Proof.
  revert l. induction i as [|i IH]; intros [|a l] H; simpl in *; try discriminate.
  - injection H as -> ->. now split.
  - now apply IH.
Qed.

Lemma skipn_nil_nth {A} (l : list A) (i : nat) (d : A) :
  skipn i l = [] -> nth i l d = d.
Proof.
  revert l. induction i as [|i IH]; intros [|a l] H; simpl in *;
    try reflexivity; try discriminate.
  now apply IH.
Qed.

(** The loop pushes the images of the walked slots, in order. *)
Lemma processLoop_flat_map (structure : SentenceStructure) (n i : nat)
  (acc : list jstring) :
  processLoop structure n i acc
  = acc ++ flat_map (processElement (SS.limitedRhyme structure))
                    (takeContent (firstn n (skipn i (SS.elements structure)))).
Proof.
  revert i acc. induction n as [|n IH]; intros i acc.
  - simpl. now rewrite app_nil_r.
  - cbn [processLoop].
    destruct (skipn i (SS.elements structure)) as [|e rest] eqn:E.
    + pose proof (skipn_nil_nth _ _ [] E) as H.
      unfold jstring in *. rewrite H. simpl. now rewrite app_nil_r.
    + destruct (skipn_cons_nth _ _ _ [] _ E) as [H Hrest].
      unfold jstring in *. rewrite H.
      cbn [firstn takeContent]. destruct (eqb e []).
      * simpl. now rewrite app_nil_r.
      * rewrite IH, Hrest. cbn [flat_map]. now rewrite app_assoc.
Qed.

Lemma processStructureElements_expand (structure : SentenceStructure)
  (needsRhyme : bool) (rs : RhymeOpt) :
  processStructureElements (Some structure) needsRhyme rs = Ok (expand structure).
Proof.
  unfold processStructureElements, expand, walked.
  now rewrite processLoop_flat_map.
Qed.

(** The image of a slot is the compound triple or a single slot. *)
Lemma processElement_cases (limitedRhyme element : jstring) :
  exists slot,
    processElement limitedRhyme element
    = if eqb element (utf16 "Dd") && eqb limitedRhyme (utf16 "E")
      then [utf16 "DV"; utf16 "着"; utf16 "DO"]
      else [slot].
Proof.
  unfold processElement.
  destruct (eqb element (utf16 "Dd") && eqb limitedRhyme (utf16 "E")).
  - now exists [].
  - destruct ((length element =? 2)
              && eqb (firstn 1 element) (toLowerCase (firstn 1 element)));
      eexists; reflexivity.
Qed.







(** C3, as stated, fails: the claim speaks of every slot code that denotes
    the plain intransitive verb, but the codes ['DD'], ['DB'], ['dd'] and
    ['dD'], which line rendering reads as the plain intransitive verb like
    ['Dd'], are not expanded in a template limited to ['E']: the working
    structure of the template made of the slot ['DD'] holds that slot
    alone, and its line is a plain intransitive verb. *)
Lemma compound_expansion_counterexample :
  SS.limitedRhyme plainVerbTemplate = utf16 "E"
  /\ walked plainVerbTemplate = [utf16 "DD"]
  /\ normalizePartOfSpeech (utf16 "DD") = normalizePartOfSpeech (utf16 "Dd")
  /\ processStructureElements (Some plainVerbTemplate) false None
     = Ok (WS.mk 0 (utf16 "。") (padTo30 [utf16 "DD"]))
  /\ fst (generateLine sampleData (expand plainVerbTemplate) sampleOptions sampleRng)
     = Ok (utf16 "骑马。")
  /\ map normalizePartOfSpeech plainVerbSpellings
     = repeat (Some (utf16 "DD")) 4
  /\ map (processElement (utf16 "E")) plainVerbSpellings
     = [[utf16 "DD"]; [utf16 "DB"]; [utf16 "DD"]; [utf16 "DD"]].
Proof. repeat split; vm_compute; reflexivity. Qed.

(** C3, as amended.  The working structure holds, slot by slot and in
    order, the images of the walked template slots.  The image of the
    slot spelled ['Dd'] is the three slots ['DV'; '着'; 'DO'] when the
    template's [limitedRhyme] is ['E'] and the slot itself otherwise; the
    image of any other slot is a single slot, in particular that of the
    other spellings of the plain intransitive verb (['DD'], ['DB'],
    ['dd'], ['dD']), which stay one slot read as the plain intransitive
    verb whatever [limitedRhyme] is. *)
Theorem compound_expansion_rule (structure : SentenceStructure)
  (needsRhyme : bool) (rs : RhymeOpt) :
  (exists ws,
     processStructureElements (Some structure) needsRhyme rs = Ok ws /\
     WS.elements ws
     = padTo30 (flat_map (processElement (SS.limitedRhyme structure))
                         (walked structure)))
  /\ processElement (SS.limitedRhyme structure) (utf16 "Dd")
     = (if eqb (SS.limitedRhyme structure) (utf16 "E")
        then [utf16 "DV"; utf16 "着"; utf16 "DO"]
        else [utf16 "Dd"])
  /\ (forall element, exists slot,
       processElement (SS.limitedRhyme structure) element
       = if eqb element (utf16 "Dd") && eqb (SS.limitedRhyme structure) (utf16 "E")
         then [utf16 "DV"; utf16 "着"; utf16 "DO"]
         else [slot])
  /\ (forall element, In element plainVerbSpellings ->
       normalizePartOfSpeech element = Some (utf16 "DD") /\
       exists slot,
         processElement (SS.limitedRhyme structure) element = [slot] /\
         normalizePartOfSpeech slot = Some (utf16 "DD")).
Proof.
  split; [|split; [|split]].
  - exists (expand structure). split; [|reflexivity].
    apply processStructureElements_expand.
  - unfold processElement.
    destruct (eqb (SS.limitedRhyme structure) (utf16 "E")); reflexivity.
  - intros element. apply processElement_cases.
  - intros element Hin. cbn [plainVerbSpellings map In] in Hin.
    unfold processElement.
    destruct Hin as [<-|[<-|[<-|[<-|[]]]]]; (split; [reflexivity|]);
      cbn [eqb N.eqb andb]; eexists; (split; [reflexivity | reflexivity]).
Qed.



(* ================================================================== *)
(** * Structure of a poem *)
(* ================================================================== *)

Lemma mapM_total {A B C} (f : A -> M B) (g : C -> B) (P : C -> Prop) :
  (forall a r, exists c r',
      f a r = (Ok (g c), r') /\ P c /\ source r' = source r) ->
  forall l r, exists cs r',
      mapM f l r = (Ok (map g cs), r') /\ length cs = length l /\
      Forall P cs /\ source r' = source r.
Proof.
  intros Hf. induction l as [|a l IH]; intros r.
  - exists [], r. repeat split. constructor.
  - destruct (Hf a r) as (c & r1 & Hrun & Hc & Hs1).
    destruct (IH r1) as (cs & r2 & Hruns & Hlen & Hcs & Hs2).
    exists (c :: cs), r2. cbn [mapM].
    rewrite (bind_run _ _ _ _ _ Hrun), (bind_run _ _ _ _ _ Hruns).
    repeat split.
    + simpl. now rewrite Hlen.
    + now constructor.
    + congruence.
Qed.

Lemma mapM_const {A B} (f : A -> M B) (x : B) :
  (forall a r, f a r = (Ok x, r)) ->
  forall l r, mapM f l r = (Ok (repeat x (length l)), r).
Proof.
  intros Hf. induction l as [|a l IH]; intros r; [reflexivity|].
  cbn [mapM]. rewrite (bind_run _ _ _ _ _ (Hf a r)), (bind_run _ _ _ _ _ (IH r)).
  reflexivity.
Qed.

(** The lines of one stanza: the expansions of the base templates, for
    any value of the stanza flag. *)
Lemma stanza_run (bases : list SentenceStructure) (flag : bool) (rs : RhymeOpt)
  (m i : nat) (r : Rng) :
  i + m <= length bases ->
  mapM (fun lineIndex =>
          lift (processStructureElements
                  (nth (lineIndex - 1) (map Some bases) None) flag rs))
       (seq (S i) m) r
  = (Ok (map expand (firstn m (skipn i bases))), r).
Proof.
  revert i. induction m as [|m IH]; intros i Hi; [reflexivity|].
  destruct (skipn i bases) as [|x rest] eqn:E.
  { apply (f_equal (@length _)) in E. rewrite length_skipn in E. simpl in E. lia. }
  assert (Hmap : skipn i (map Some bases) = Some x :: map Some rest)
    by (now rewrite skipn_map, E).
  destruct (skipn_cons_nth _ _ _ None _ Hmap) as [Hnth _].
  destruct (skipn_cons_nth _ _ _ x _ E) as [_ Hrest].
  cbn [seq mapM]. unfold bind at 1. unfold lift at 1.
  replace (S i - 1) with i by lia.
  rewrite Hnth, processStructureElements_expand.
  rewrite (bind_run _ _ _ _ _ (IH (S i) ltac:(lia))).
  replace (S i) with (i + 1) by lia. rewrite Hrest. reflexivity.
Qed.

(** On a non-empty table [createStructure] returns, and every stanza
    receives the same working structures, those of the base templates. *)
Lemma createStructure_total (D : DataService) (paragraphCount linesPerParagraph : nat)
  (style : PoeticStyle) (rs : RhymeOpt) (r : Rng) :
  getSentenceStructures D <> [] ->
  exists bases r',
    length bases = linesPerParagraph /\
    Forall (fun b => In b (getSentenceStructures D)) bases /\
    source r' = source r /\
    createStructure D paragraphCount linesPerParagraph style rs r
    = (Ok (concat (repeat (map expand bases) paragraphCount)), r').
Proof.
  intros Hne. unfold createStructure. cbv zeta.
  match goal with
  | |- context [bind (mapM ?f (seq 1 linesPerParagraph))] =>
      destruct (mapM_total f Some
                  (fun b => In b (getSentenceStructures D))) with
        (l := seq 1 linesPerParagraph) (r := r)
        as (bases & r1 & Hrun & Hlen & Hin & Hsrc)
  end.
  { intros lineIndex r0. destruct style.
    - destruct (selectQuietLoop_sampled (getSentenceStructures D)
                  (shouldLineRhyme lineIndex linesPerParagraph) rs maxAttempts r0 Hne)
        as (s & r' & Hs & Hin & Hsrc & _).
      exists s, r'. split; [exact Hs | split; assumption].
    - destruct (selectBoldLoop_sampled (getSentenceStructures D)
                  (shouldLineRhyme lineIndex linesPerParagraph) rs maxAttempts r0 Hne)
        as (s & r' & Hs & Hin & Hsrc & _).
      exists s, r'. split; [exact Hs | split; assumption]. }
  rewrite length_seq in Hlen.
  exists bases, r1. repeat split; try assumption.
  rewrite (bind_run _ _ _ _ _ Hrun).
  assert (Hstanza : forall (paragraphIndex : nat) (r0 : Rng),
    mapM (fun lineIndex =>
            lift (processStructureElements
                    (nth (lineIndex - 1) (map Some bases) None)
                    (shouldLineRhyme paragraphIndex paragraphCount) rs))
         (seq 1 linesPerParagraph) r0
    = (Ok (map expand bases), r0)).
  { intros paragraphIndex r0. rewrite stanza_run by (simpl; lia).
    cbn [skipn]. rewrite <- Hlen, firstn_all. reflexivity. }
  rewrite (bind_run _ _ _ _ _ (mapM_const _ _ Hstanza (seq 1 paragraphCount) r1)).
  now rewrite length_seq.
Qed.

(** C2, as stated, fails: the working structure never depends on the
    flag.  A compound-verb template is expanded when the flag is off as
    when it is on. *)
Lemma flag_governs_expansion_counterexample :
  ~ flagGovernsExpansion
  /\ processStructureElements (Some compoundTemplate) false (Some (utf16 "a"))
     = processStructureElements (Some compoundTemplate) true (Some (utf16 "a"))
  /\ (exists ws,
        processStructureElements (Some compoundTemplate) false (Some (utf16 "a"))
        = Ok ws /\
        firstn 5 (WS.elements ws)
        = [utf16 "Mr"; utf16 "DV"; utf16 "着"; utf16 "DO"; []]).
Proof.
  split; [|split].
  - intros (structure & rs & H). apply H. reflexivity.
  - reflexivity.
  - eexists. split; reflexivity.
Qed.

(** C2, as amended.  [createStructure] recomputes the flag from the stanza
    index and the stanza count and hands it to [processStructureElements],
    which ignores it, as it ignores the rhyme scheme: the working
    structure depends on the base template alone, and on a non-empty table
    every stanza receives the same [linesPerParagraph] working
    structures. *)
Theorem expansion_ignores_rhyme_flag (D : DataService)
  (paragraphCount linesPerParagraph : nat) (style : PoeticStyle)
  (rs : RhymeOpt) (r : Rng) :
  getSentenceStructures D <> [] ->
  (forall structure paragraphIndex flag rs',
      processStructureElements structure
        (shouldLineRhyme paragraphIndex paragraphCount) rs
      = processStructureElements structure flag rs')
  /\ (exists stanza r',
        length stanza = linesPerParagraph /\
        createStructure D paragraphCount linesPerParagraph style rs r
        = (Ok (concat (repeat stanza paragraphCount)), r')).
Proof.
  intros Hne. split; [reflexivity|].
  destruct (createStructure_total D paragraphCount linesPerParagraph style rs r Hne)
    as (bases & r' & Hlen & _ & _ & Hrun).
  exists (map expand bases), r'. split; [|exact Hrun].
  now rewrite length_map.
Qed.

(* ================================================================== *)
(** * Line rendering and the poem *)
(* ================================================================== *)

(** The walk of [generateLine] leaves through its exit test or its
    [break]: fuel beyond [27 - elementIndex] is never used. *)
Lemma generateLineLoop_fuel (D : DataService) (structure : WorkingStructure)
  (options : PoetryGenerationOptions) (fuel elementIndex : nat)
  (line : jstring) (r : Rng) :
  27 <= fuel + elementIndex ->
  generateLineLoop D structure options (S fuel) elementIndex line r
  = generateLineLoop D structure options fuel elementIndex line r.
Proof.
  revert elementIndex line r.
  induction fuel as [|fuel IH]; intros elementIndex line r H.
  - cbn [generateLineLoop].
    destruct (Nat.ltb_spec elementIndex 27); [lia | reflexivity].
  - change (generateLineLoop D structure options (S (S fuel)) elementIndex line r)
      with
      ((if elementIndex <? 27 then
          let element := nth elementIndex (WS.elements structure) [] in
          if eqb element [] then ret line
          else if isPartOfSpeech element then
            let partOfSpeech := normalizePartOfSpeech element in
            word <- selectWordForElement D partOfSpeech options ;;
            generateLineLoop D structure options (S fuel)
              ((if isCompoundVerb partOfSpeech
                then elementIndex + 2 else elementIndex) + 1) (line ++ word)
          else generateLineLoop D structure options (S fuel)
                 (elementIndex + 1) (line ++ element)
        else ret line) r).
    cbn [generateLineLoop].
    destruct (elementIndex <? 27); [|reflexivity]. cbv zeta.
    destruct (eqb (nth elementIndex (WS.elements structure) []) []); [reflexivity|].
    destruct (isPartOfSpeech (nth elementIndex (WS.elements structure) [])).
    + unfold bind.
      destruct (selectWordForElement D _ options r) as [[word|e] r1];
        [|reflexivity].
      apply IH.
      destruct (isCompoundVerb _); lia.
    + apply IH. lia.
Qed.

(** Any fuel of 27 or more gives the walk of [generateLine]. *)
Lemma generateLineLoop_enough (D : DataService) (structure : WorkingStructure)
  (options : PoetryGenerationOptions) (extra : nat) (r : Rng) :
  generateLineLoop D structure options (extra + 27) 0 [] r
  = generateLineLoop D structure options 27 0 [] r.
Proof.
  induction extra as [|extra IH]; [reflexivity|].
  cbn [Nat.add]. rewrite generateLineLoop_fuel by lia. exact IH.
Qed.

Lemma generateLine_trim (D : DataService) (structure : WorkingStructure)
  (options : PoetryGenerationOptions) (r r' : Rng) (line : jstring) :
  generateLine D structure options r = (Ok line, r') ->
  exists body,
    generateLineLoop D structure options 27 0 [] r = (Ok body, r') /\
    line = trim (body ++ WS.punctuation structure).
Proof.
  unfold generateLine. intros H.
  apply bind_Ok in H as (body & r1 & Hbody & Hret).
  unfold ret in Hret. injection Hret as <- <-.
  exists body. split; [exact Hbody | reflexivity].
Qed.

Lemma mapM_Ok {A B} (f : A -> M B) (l : list A) (r r' : Rng) (bs : list B) :
  mapM f l r = (Ok bs, r') ->
  Forall2 (fun a b => exists r1 r2, f a r1 = (Ok b, r2)) l bs.
Proof.
  revert r r' bs. induction l as [|a l IH]; intros r r' bs H.
  - cbn in H. injection H as <- _. constructor.
  - cbn [mapM] in H.
    apply bind_Ok in H as (b & r1 & Hb & H).
    apply bind_Ok in H as (bs' & r2 & Hbs & H).
    unfold ret in H. injection H as <- _.
    constructor; [exists r, r1; exact Hb | eapply IH; exact Hbs].
Qed.

Lemma Forall2_length_eq {A B} (R : A -> B -> Prop) (l : list A) (l' : list B) :
  Forall2 R l l' -> length l = length l'.
Proof. induction 1; simpl; congruence. Qed.

Lemma concat_repeat_length {A} (x : list A) (n : nat) :
  length (concat (repeat x n)) = n * length x.
Proof.
  induction n as [|n IH]; [reflexivity|].
  cbn [repeat concat]. rewrite length_app, IH. lia.
Qed.

(** C9, as stated, fails on a structure whose punctuation ends with a
    space: the line is trimmed after the punctuation is appended. *)
Lemma line_ends_with_punctuation_counterexample :
  generateLine sampleData spacedStructure sampleOptions sampleRng
  = (Ok (utf16 "山，"), next sampleRng)
  /\ WS.punctuation spacedStructure = utf16 "， "
  /\ ~ endsWith (utf16 "山，") (WS.punctuation spacedStructure).
Proof.
  split; [reflexivity|]. split; [reflexivity|].
  intros [prefix H].
  apply (f_equal (@rev N)) in H. rewrite rev_app_distr in H.
  discriminate H.
Qed.

(** C9, as amended.  The line that [generateLine] returns is the text of
    the slot walk followed by the punctuation of the structure, trimmed;
    it ends with the punctuation whenever the punctuation has no white
    space at either end. *)
Theorem line_ends_with_punctuation (D : DataService)
  (structure : WorkingStructure) (options : PoetryGenerationOptions)
  (r r' : Rng) (line : jstring) :
  generateLine D structure options r = (Ok line, r') ->
  (exists body,
     generateLineLoop D structure options 27 0 [] r = (Ok body, r') /\
     line = trim (body ++ WS.punctuation structure))
  /\ (trim (WS.punctuation structure) = WS.punctuation structure ->
      endsWith line (WS.punctuation structure)).
Proof.
  intros H. destruct (generateLine_trim _ _ _ _ _ _ H) as (body & Hbody & ->).
  split; [exists body; split; [exact Hbody | reflexivity]|].
  intros Hp. apply trim_app_fix. exact Hp.
Qed.

(** On an empty table the first template read is [undefined]: nothing can
    be expanded. *)
Lemma selectQuietStructure_empty (needsRhyme : bool) (rs : RhymeOpt) (r : Rng) :
  selectQuietStructure [] needsRhyme rs r = (Throw TypeError, next r).
Proof. reflexivity. Qed.

Lemma selectBoldStructure_empty (needsRhyme : bool) (rs : RhymeOpt) (r : Rng) :
  selectBoldStructure [] needsRhyme rs r
  = if wantsRhyme needsRhyme rs then (Throw TypeError, next r)
    else (Ok None, next r).
Proof.
  unfold selectBoldStructure. change maxAttempts with (S 99).
  cbn [selectBoldLoop]. unfold bind, randomIndex. cbn.
  destruct (wantsRhyme needsRhyme rs); reflexivity.
Qed.

Lemma mapM_bold_empty (rs : RhymeOpt) (total : nat) (l : list nat) (r : Rng) :
  exists r',
    let run := mapM (fun lineIndex =>
                       selectBoldStructure [] (shouldLineRhyme lineIndex total) rs)
                    l r in
    run = (Throw TypeError, r') \/ run = (Ok (repeat None (length l)), r').
Proof.
  revert r. induction l as [|a l IH]; intros r.
  - exists r. right. reflexivity.
  - cbv zeta in *. cbn [mapM].
    pose proof (selectBoldStructure_empty (shouldLineRhyme a total) rs r) as H.
    destruct (wantsRhyme (shouldLineRhyme a total) rs).
    + exists (next r). left. rewrite (bind_throw _ _ _ _ _ H). reflexivity.
    + rewrite (bind_run _ _ _ _ _ H).
      destruct (IH (next r)) as (r' & [E|E]); exists r'.
      * left. rewrite (bind_throw _ _ _ _ _ E). reflexivity.
      * right. rewrite (bind_run _ _ _ _ _ E). reflexivity.
Qed.

Lemma createStructure_empty (D : DataService) (paragraphCount linesPerParagraph : nat)
  (style : PoeticStyle) (rs : RhymeOpt) (r : Rng) :
  getSentenceStructures D = [] ->
  1 <= paragraphCount -> 1 <= linesPerParagraph ->
  exists r',
    createStructure D paragraphCount linesPerParagraph style rs r
    = (Throw TypeError, r').
Proof.
  intros Hnil Hp Hl. unfold createStructure. cbv zeta. rewrite Hnil.
  destruct linesPerParagraph as [|l]; [lia|].
  destruct paragraphCount as [|q]; [lia|].
  destruct style.
  - exists (next r). apply bind_throw. cbn [seq mapM].
    apply bind_throw. apply selectQuietStructure_empty.
  - destruct (mapM_bold_empty rs (S l) (seq 1 (S l)) r) as (r' & [E|E]);
      cbv zeta in E; exists r'.
    + apply bind_throw. exact E.
    + rewrite (bind_run _ _ _ _ _ E). apply bind_throw.
      cbn [seq mapM]. apply bind_throw. apply bind_throw.
      unfold lift. cbn [Nat.sub]. rewrite nth_repeat. reflexivity.
Qed.

(* ================================================================== *)
(** * When generation returns *)
(* ================================================================== *)

Lemma total_ret {A} (a : A) : total (ret a).
Proof. intros r. exists a, r. reflexivity. Qed.

Lemma total_bind {A B} (m : M A) (k : A -> M B) :
  total m -> (forall a, total (k a)) -> total (bind m k).
Proof.
  intros Hm Hk r. destruct (Hm r) as (a & r1 & E).
  destruct (Hk a r1) as (b & r2 & E'). exists b, r2.
  rewrite (bind_run _ _ _ _ _ E). exact E'.
Qed.

Lemma total_getRandomWord (words : list WordRecord) :
  words <> [] -> total (getRandomWord words).
Proof.
  intros H r. destruct (getRandomWord_pick words r H) as (w & _ & E).
  exists w, (next r). exact E.
Qed.

Lemma total_pick (words : list WordRecord) :
  words <> [] -> total (w <- getRandomWord words ;; ret (word w)).
Proof.
  intros H. apply total_bind; [apply total_getRandomWord, H|].
  intros w. apply total_ret.
Qed.

Lemma filter_nonempty {A} (f : A -> bool) (l : list A) :
  (exists x, In x l /\ f x = true) -> filter f l <> [].
Proof.
  intros (x & Hin & Hf) E.
  assert (H : In x (filter f l)) by (apply filter_In; split; assumption).
  rewrite E in H. exact H.
Qed.

Lemma length_zero_false {A} (l : list A) : (length l =? 0) = false -> l <> [].
Proof. destruct l; [discriminate | discriminate]. Qed.

(** A pool and its rhyming part: the selection [if] of the selectors. *)
Lemma total_pick_rhyme (wants : bool) (rhymingWords words : list WordRecord) :
  words <> [] ->
  total (if wants && negb (length rhymingWords =? 0)
         then w <- getRandomWord rhymingWords ;; ret (word w)
         else w <- getRandomWord words ;; ret (word w)).
Proof.
  intros H. destruct (wants && negb (length rhymingWords =? 0)) eqn:E.
  - apply andb_true_iff in E as [_ E]. apply negb_true_iff in E.
    apply total_pick, length_zero_false, E.
  - apply total_pick, H.
Qed.

Lemma total_selectBasicWord (words : list WordRecord) (needsRhyme : bool)
  (rs : RhymeOpt) :
  words <> [] -> total (selectBasicWord words needsRhyme rs).
Proof. intros H. unfold selectBasicWord. apply total_pick_rhyme, H. Qed.

Lemma total_if_split (wordText : jstring) (a b : jstring) :
  total (if negb (indexOf wordText slash =? -1)%Z then ret a else ret b).
Proof. destruct (negb _); apply total_ret. Qed.

Lemma total_selectWord (D : DataService) (options : PoetryGenerationOptions)
  (tag : jstring) :
  servable D options ->
  In tag partOfSpeechTags ->
  total (selectWord D (Ctx.mk tag (useRhyme options) (rhymeScheme options))).
Proof.
  intros (_ & _ & Hn & Ha & Ht & Hi & Hloc & Hper & Hsim & Hspl & Hrhy) Htag.
  assert (Hv : getIntransitiveVerbs D <> []).
  { destruct Hspl as (w & Hw & _). intros E. rewrite E in Hw. exact Hw. }
  cbn [partOfSpeechTags map In] in Htag.
  destruct Htag as [<-|[<-|[<-|[<-|[<-|[<-|[<-|[<-|[<-|[<-|[<-|[]]]]]]]]]]]].
  - (* MM *) apply (total_selectBasicWord _ _ _ Hn).
  - (* MC *)
    change (total (selectLocationNoun (getNouns D) (useRhyme options)
                     (rhymeScheme options))).
    unfold selectLocationNoun. cbv zeta.
    pose proof (filter_nonempty _ _ Hloc) as Hf.
    match goal with |- context [getRandomWord (filter ?f (getNouns D))] =>
      set (locationWords := filter f (getNouns D)) in * end.
    destruct (wantsRhyme _ _ && negb (length (filter _ locationWords) =? 0)) eqn:E.
    + apply andb_true_iff in E as [_ E]. apply negb_true_iff in E.
      apply total_pick, length_zero_false, E.
    + rewrite (nonempty_length _ Hf). apply total_pick, Hf.
  - (* MR *)
    change (total (selectPersonNoun (getNouns D) (useRhyme options)
                     (rhymeScheme options))).
    unfold selectPersonNoun. cbv zeta.
    pose proof (filter_nonempty _ _ Hper) as Hf.
    match goal with |- context [getRandomWord (filter ?f (getNouns D))] =>
      set (personWords := filter f (getNouns D)) in * end.
    destruct (wantsRhyme _ _ && negb (length (filter _ personWords) =? 0)) eqn:E.
    + apply andb_true_iff in E as [_ E]. apply negb_true_iff in E.
      apply total_pick, length_zero_false, E.
    + rewrite (nonempty_length _ Hf). apply total_pick, Hf.
  - (* DD *)
    change (total (selectIntransitiveVerb (getIntransitiveVerbs D)
                     (useRhyme options) (rhymeScheme options))).
    unfold selectIntransitiveVerb. apply total_bind.
    + destruct (wantsRhyme (useRhyme options) (rhymeScheme options)) eqn:E.
      * apply total_getRandomWord, filter_nonempty, Hrhy. reflexivity.
      * apply total_getRandomWord, Hv.
    + intros w. cbv zeta. apply total_if_split.
  - (* DI *)
    change (total (selectSimpleVerb (getIntransitiveVerbs D))).
    unfold selectSimpleVerb. cbv zeta.
    pose proof (filter_nonempty _ _ Hsim) as Hf.
    rewrite (nonempty_length _ Hf). apply total_pick, Hf.
  - (* DV *)
    change (total (selectProgressiveVerb (getIntransitiveVerbs D)
                     (useRhyme options) (rhymeScheme options))).
    intros r.
    destruct (selectProgressiveVerb_pick (getIntransitiveVerbs D)
                (useRhyme options) (rhymeScheme options) r
                (filter_nonempty _ _ Hspl)) as (w & _ & _ & E).
    eexists. eexists. exact E.
  - (* DO *)
    change (total (selectResultativeVerb (getIntransitiveVerbs D))).
    intros r.
    destruct (selectResultativeVerb_pick (getIntransitiveVerbs D) r
                (filter_nonempty _ _ Hspl)) as (w & _ & _ & E).
    eexists. eexists. exact E.
  - (* DJ *) apply (total_selectBasicWord _ _ _ Ht).
  - (* XA *) apply (total_selectBasicWord _ _ _ Ha).
  - (* TT *) apply (total_selectBasicWord _ _ _ Hi).
  - (* SS *)
    change (total (selectSpecialWord D)).
    unfold selectSpecialWord. cbv zeta.
    destruct (getSpecialWords D) as [|sw0 sws] eqn:E; [apply total_ret|].
    cbn [length Nat.eqb]. intros r.
    pose (i := source r (drawn r) mod S (length sws)).
    assert (L : i < length (sw0 :: sws))
      by (apply Nat.mod_upper_bound; discriminate).
    destruct (nth_error (sw0 :: sws) i) as [sw|] eqn:N.
    + exists (content sw), (next r). unfold bind, randomIndex. fold i.
      rewrite N. reflexivity.
    + apply nth_error_None in N. lia.
Qed.

Lemma lookup_legacy_tag (element : jstring) :
  In element (map fst legacyMappings) ->
  exists tag, lookup element legacyMappings = Some tag /\ In tag partOfSpeechTags.
Proof.
  intros H. cbn [legacyMappings map fst In] in H.
  destruct H as [<-|[<-|[<-|[<-|[<-|[<-|[<-|[<-|[]]]]]]]]];
    eexists; (split; [reflexivity|]); vm_compute; tauto.
Qed.

(** Apart from the member names of [Object.prototype], every slot code is
    normalized to one of the eleven tags. *)
Lemma normalizePartOfSpeech_tag (element : jstring) :
  ~ In element objectPrototypeKeys ->
  exists tag, normalizePartOfSpeech element = Some tag /\ In tag partOfSpeechTags.
Proof.
  intros Hkey. unfold normalizePartOfSpeech, inLegacyMappings.
  destruct (oneOf element (map fst legacyMappings)) eqn:E1.
  - cbn [orb]. apply lookup_legacy_tag, oneOf_In, E1.
  - destruct (oneOf element objectPrototypeKeys) eqn:E2.
    + apply oneOf_In in E2. contradiction.
    + cbn [orb]. cbv zeta.
      destruct (oneOf (toUpperCase element) partOfSpeechTags) eqn:E3.
      * eexists. split; [reflexivity | apply oneOf_In, E3].
      * destruct (oneOf element partOfSpeechTags) eqn:E4.
        -- eexists. split; [reflexivity | apply oneOf_In, E4].
        -- eexists. split; [reflexivity | left; reflexivity].
Qed.

Lemma total_generateLineLoop (D : DataService) (structure : WorkingStructure)
  (options : PoetryGenerationOptions) :
  servable D options ->
  (forall e, In e (WS.elements structure) -> ~ In e objectPrototypeKeys) ->
  forall fuel elementIndex line,
    total (generateLineLoop D structure options fuel elementIndex line).
Proof.
  intros Hs Hkeys. induction fuel as [|fuel IH]; intros elementIndex line.
  - apply total_ret.
  - cbn [generateLineLoop].
    destruct (elementIndex <? 27); [|apply total_ret]. cbv zeta.
    destruct (eqb (nth elementIndex (WS.elements structure) []) []) eqn:E;
      [apply total_ret|].
    destruct (isPartOfSpeech (nth elementIndex (WS.elements structure) []));
      [|apply IH].
    destruct (nth_in_or_default elementIndex (WS.elements structure) [])
      as [Hin|Hd]; [|rewrite Hd in E; discriminate E].
    destruct (normalizePartOfSpeech_tag _ (Hkeys _ Hin)) as (tag & -> & Htag).
    apply total_bind.
    + apply (total_selectWord D options tag Hs Htag).
    + intros word. apply IH.
Qed.

Lemma takeContent_In (e : jstring) (l : list jstring) :
  In e (takeContent l) -> In e l.
Proof.
  induction l as [|a l IH]; simpl; [trivial|].
  destruct (eqb a []); simpl; [contradiction | tauto].
Qed.

Lemma firstn_subset {A} (x : A) (n : nat) (l : list A) :
  In x (firstn n l) -> In x l.
Proof.
  revert l. induction n as [|n IH]; intros [|a l]; simpl; try tauto.
  intros [->|H]; [now left | right; apply IH, H].
Qed.

Lemma prototypeKey_long (e : jstring) :
  In e objectPrototypeKeys -> 7 <= length e.
Proof.
  intros H. cbn [objectPrototypeKeys map In] in H.
  repeat (destruct H as [<-|H]; [vm_compute; lia|]). contradiction.
Qed.

(** Expansion brings no member name of [Object.prototype] into a working
    structure. *)
Lemma expand_keys (structure : SentenceStructure) :
  (forall e, In e (SS.elements structure) -> ~ In e objectPrototypeKeys) ->
  forall e, In e (WS.elements (expand structure)) -> ~ In e objectPrototypeKeys.
Proof.
  intros Hkeys e Hin Hkey. unfold expand, padTo30 in Hin. cbn [WS.elements] in Hin.
  apply in_app_or in Hin as [Hin|Hin].
  - apply in_flat_map in Hin as (x & Hx & Hin).
    assert (Hxe : In x (SS.elements structure)).
    { apply takeContent_In in Hx. eapply firstn_subset. exact Hx. }
    unfold processElement in Hin.
    destruct (eqb x (utf16 "Dd") && eqb (SS.limitedRhyme structure) (utf16 "E")).
    { apply prototypeKey_long in Hkey.
      destruct Hin as [<-|[<-|[<-|[]]]]; vm_compute in Hkey; lia. }
    destruct (length x =? 2) eqn:L; cbn [andb] in Hin.
    + destruct (eqb (firstn 1 x) (toLowerCase (firstn 1 x))).
      * destruct Hin as [<-|[]]. apply prototypeKey_long in Hkey.
        unfold toUpperCase in Hkey. rewrite length_map in Hkey.
        apply Nat.eqb_eq in L. lia.
      * destruct Hin as [<-|[]]. exact (Hkeys _ Hxe Hkey).
    + destruct Hin as [<-|[]]. exact (Hkeys _ Hxe Hkey).
  - apply repeat_spec in Hin. subst e.
    apply prototypeKey_long in Hkey. simpl in Hkey. lia.
Qed.

Lemma total_mapM {A B} (f : A -> M B) (l : list A) :
  (forall a, In a l -> total (f a)) -> total (mapM f l).
Proof.
  induction l as [|a l IH]; intros H; [apply total_ret|].
  cbn [mapM]. apply total_bind; [apply H; left; reflexivity|].
  intros b. apply total_bind.
  - apply IH. intros a' Ha'. apply H. right. exact Ha'.
  - intros bs. apply total_ret.
Qed.

Lemma In_concat_repeat {A} (x : A) (l : list A) (n : nat) :
  In x (concat (repeat l n)) -> In x l.
Proof.
  induction n as [|n IH]; [contradiction|].
  cbn [repeat concat]. rewrite in_app_iff. tauto.
Qed.

(** Under [servable] tables generation returns a poem. *)
Lemma generatePoetry_returns (D : DataService) (options : PoetryGenerationOptions) :
  servable D options -> total (generatePoetry D options).
Proof.
  intros Hs r. pose proof Hs as (Hne & Hkeys & _).
  destruct (createStructure_total D (paragraphCount options)
              (linesPerParagraph options) (style options) (rhymeScheme options)
              r Hne) as (bases & r1 & _ & Hin & _ & E).
  unfold generatePoetry. rewrite (bind_run _ _ _ _ _ E).
  apply total_bind.
  - apply total_mapM. intros structure Hstructure.
    apply In_concat_repeat in Hstructure.
    apply in_map_iff in Hstructure as (base & <- & Hbase).
    unfold generateLine. apply total_bind.
    + apply total_generateLineLoop; [exact Hs|].
      apply expand_keys. intros e He.
      apply (Hkeys base e); [|exact He].
      rewrite Forall_forall in Hin. apply Hin, Hbase.
    + intros line. apply total_ret.
  - intros ls. apply total_ret.
Qed.

(** C1, as stated, fails: with a rhyme that no intransitive verb has, a
    line with a verb slot makes the whole generation throw; and with
    no special words, a template made of a special-word slot and no
    punctuation yields an empty line. *)
Lemma poem_shape_counterexample :
  fst (generatePoetry rhymeData rhymeOptions sampleRng) = Throw EmptyWordList
  /\ fst (generatePoetry bareData bareOptions sampleRng)
     = Ok (mkPoem [[]] bareOptions).
Proof. split; vm_compute; reflexivity. Qed.

(** C1, as amended.  For every style, every stanza count and line count of
    at least 1 and any rhyme options, [generatePoetry] returns whenever the
    tables can serve every word selection ([servable]: the template table
    is not empty, no template slot is a member name of [Object.prototype],
    the nouns, adjectives, transitive verbs and interjections are not
    empty, a noun has a place or time property and one a person property,
    an intransitive verb is simple and one splittable and, when a rhyme is
    wanted, one has that vowel); it throws when a word selection fails or
    the table is empty.  When it returns, its [lines] array has exactly
    [paragraphCount * linesPerParagraph] entries in stanza-major order:
    [linesPerParagraph] base templates of the table are expanded, the same
    for every stanza, and the lines are the renderings of these working
    structures, stanza after stanza.  A line is the text of the walk of
    its structure followed by the punctuation, trimmed: it is empty
    exactly when both the text of the walk and the punctuation are
    blank. *)
Theorem poem_shape (D : DataService) (options : PoetryGenerationOptions)
  (r : Rng) :
  1 <= paragraphCount options ->
  1 <= linesPerParagraph options ->
  (servable D options ->
   exists poem r', generatePoetry D options r = (Ok poem, r'))
  /\ (forall poem r',
       generatePoetry D options r = (Ok poem, r') ->
       length (lines poem) = paragraphCount options * linesPerParagraph options
       /\ exists bases,
            length bases = linesPerParagraph options /\
            Forall (fun b => In b (getSentenceStructures D)) bases /\
            Forall2 (fun structure line =>
                       rendered D options structure line /\
                       (hasInk (WS.punctuation structure) = true -> line <> []) /\
                       exists body,
                         walkText D options structure body /\
                         line = trim (body ++ WS.punctuation structure) /\
                         (line = [] <->
                          hasInk body = false /\
                          hasInk (WS.punctuation structure) = false))
                    (concat (repeat (map expand bases) (paragraphCount options)))
                    (lines poem)).
Proof.
  intros Hp Hl. split.
  { intros Hs. apply (generatePoetry_returns D options Hs r). }
  intros poem r' Hrun. unfold generatePoetry in Hrun.
  apply bind_Ok in Hrun as (structures & r1 & Hcreate & Hrun).
  apply bind_Ok in Hrun as (ls & r2 & Hlines & Hret).
  unfold ret in Hret. injection Hret as <- _. cbn [lines].
  destruct (getSentenceStructures D) as [|s0 table] eqn:Htable.
  { destruct (createStructure_empty D _ _ (style options) (rhymeScheme options)
                r Htable Hp Hl) as (r0 & E).
    rewrite E in Hcreate. discriminate. }
  assert (Hne : getSentenceStructures D <> []) by (rewrite Htable; discriminate).
  destruct (createStructure_total D (paragraphCount options)
              (linesPerParagraph options) (style options) (rhymeScheme options)
              r Hne) as (bases & r0 & Hlen & Hin & _ & E).
  rewrite E in Hcreate. injection Hcreate as <- _.
  apply mapM_Ok in Hlines.
  assert (Hshape :
    Forall2 (fun structure line =>
               rendered D options structure line /\
               (hasInk (WS.punctuation structure) = true -> line <> []) /\
               exists body,
                 walkText D options structure body /\
                 line = trim (body ++ WS.punctuation structure) /\
                 (line = [] <->
                  hasInk body = false /\
                  hasInk (WS.punctuation structure) = false))
            (concat (repeat (map expand bases) (paragraphCount options))) ls).
  { eapply Forall2_impl; [|exact Hlines].
    intros structure line (ra & rb & Hline). split; [exists ra, rb; exact Hline|].
    destruct (generateLine_trim _ _ _ _ _ _ Hline) as (body & Hbody & ->).
    split.
    - intros Hink. apply trim_hasInk. apply hasInk_app_r. exact Hink.
    - exists body. split; [exists ra, rb; exact Hbody|].
      split; [reflexivity|].
      rewrite trim_nil_iff, hasInk_app. apply orb_false_iff. }
  split.
  - rewrite <- (Forall2_length_eq _ _ _ Hshape), concat_repeat_length.
    rewrite length_map, Hlen. reflexivity.
  - exists bases. rewrite Htable in Hin.
    split; [exact Hlen | split; [exact Hin | exact Hshape]].
Qed.

(* ================================================================== *)
(** * The statements at work on the sample tables *)
(* ================================================================== *)

(** A line without punctuation is not empty when its walk has text. *)
Example unpunctuated_line :
  fst (generatePoetry unpunctuatedData bareOptions sampleRng)
  = Ok (mkPoem [utf16 "花"] bareOptions).
Proof. vm_compute. reflexivity. Qed.

Example utf16_suffixes : utf16 "着" = [zhe] /\ utf16 "得" = [de] /\ utf16 "/" = [slash].
Proof. repeat split. Qed.

(** The cases of tests/word-selector.test.ts. *)
Example normalizeRhymeScheme_tests :
  map normalizeRhymeScheme
    (map utf16 ["o"; "uo"; "ui"; "in"; "un"; "vn"; "ing"; "ve"; "iu"; "z"; "a";
                "A"; "AI"; "UO"; " a "; "  ai  "]%string)
  = map utf16 ["e"; "e"; "ei"; "en"; "en"; "en"; "eng"; "ie"; "ou"; "r"; "a";
               "a"; "ai"; "e"; "a"; "ai"]%string.
Proof. reflexivity. Qed.

Example normalizePartOfSpeech_legacy :
  map normalizePartOfSpeech (map utf16 ["XX"; "Mm"; "DB"; "Dd"; "dv"; "SS"; "toString"]%string)
  = [Some (utf16 "XA"); Some (utf16 "MM"); Some (utf16 "DD"); Some (utf16 "DD");
     Some (utf16 "DV"); Some (utf16 "SS"); None].
Proof. reflexivity. Qed.

Example isPartOfSpeech_cases :
  map isPartOfSpeech (map utf16 ["MM"; "Mm"; "XX"; "的"; "着"; "，"; "toString"]%string)
  = [true; true; true; false; false; false; true].
Proof. reflexivity. Qed.

Example shouldLineRhyme_four :
  map (fun i => shouldLineRhyme i 4) [1; 2; 3; 4] = [true; true; false; true]
  /\ map (fun i => shouldLineRhyme i 3) [1; 2; 3] = [true; false; true].
Proof. split; reflexivity. Qed.

Example sample_poem_lines :
  lines samplePoem
  = map utf16 ["诗人骑马。"; "诗人跳着舞！"; "诗人歌唱。";
               "诗人跳着舞！"; "诗人跳舞。"; "诗人跳着舞！"]%string.
Proof. vm_compute. reflexivity. Qed.

(** C5, as stated, fails on an empty table: the template read from it is
    [undefined], and reading its fields raises a [TypeError]. *)
Lemma template_selection_counterexample :
  selectQuietStructure [] false None sampleRng
  = (Throw TypeError, next sampleRng)
  /\ selectBoldStructure [] true (Some (utf16 "a")) sampleRng
     = (Throw TypeError, next sampleRng).
Proof. split; reflexivity. Qed.

Example sample_servable : servable sampleData sampleOptions.
Proof.
  unfold servable. cbn [sampleData getSentenceStructures getNouns getAdjectives
    getTransitiveVerbs getInterjections getIntransitiveVerbs sampleOptions
    useRhyme rhymeScheme].
  split; [discriminate|]. split.
  { intros t e Ht He Hkey. apply prototypeKey_long in Hkey.
    destruct Ht as [<-|[<-|[<-|[]]]]; cbn [SS.elements compoundTemplate] in He;
      unfold pad27 in He; apply in_app_or in He as [He|He];
      try (apply repeat_spec in He; subst e; simpl in Hkey; lia);
      cbn [In] in He;
      repeat (destruct He as [<-|He]; [vm_compute in Hkey; lia|]);
      contradiction. }
  repeat (split; [discriminate|]).
  split; [exists (mkWord (utf16 "山") (utf16 "an") (utf16 "地点"));
          split; [left; reflexivity | reflexivity]|].
  split; [exists (mkWord (utf16 "诗人") (utf16 "en") (utf16 "人物"));
          split; [right; right; left; reflexivity | reflexivity]|].
  split; [exists (mkWord (utf16 "歌唱") (utf16 "ang") []);
          split; [right; left; reflexivity | reflexivity]|].
  split; [exists (mkWord (utf16 "骑/马") (utf16 "a") []);
          split; [left; reflexivity | reflexivity]|].
  discriminate.
Qed.

(** The sample poem has three stanzas of two lines. *)
Lemma poem_shape_witness :
  1 <= paragraphCount sampleOptions
  /\ 1 <= linesPerParagraph sampleOptions
  /\ generatePoetry sampleData sampleOptions sampleRng
     = (Ok samplePoem, snd sampleRun)
  /\ length (lines samplePoem) = 3 * 2.
Proof.
  assert (H1 : 1 <= paragraphCount sampleOptions) by (simpl; lia).
  assert (H2 : 1 <= linesPerParagraph sampleOptions) by (simpl; lia).
  assert (H3 : generatePoetry sampleData sampleOptions sampleRng
               = (Ok samplePoem, snd sampleRun)) by (vm_compute; reflexivity).
  split; [exact H1|]. split; [exact H2|]. split; [exact H3|].
  exact (proj1 (proj2 (poem_shape sampleData sampleOptions sampleRng H1 H2)
                  samplePoem (snd sampleRun) H3)).
Defined.

(** The three stanzas of the sample share their working structures. *)
Lemma expansion_ignores_rhyme_flag_witness :
  getSentenceStructures sampleData <> []
  /\ exists stanza r',
       length stanza = 2 /\
       createStructure sampleData 3 2 quiet None sampleRng
       = (Ok (concat (repeat stanza 3)), r').
Proof.
  assert (H : getSentenceStructures sampleData <> []) by (simpl; discriminate).
  split; [exact H|].
  exact (proj2 (expansion_ignores_rhyme_flag sampleData 3 2 quiet None sampleRng H)).
Defined.

(** A quiet template for a rhyming line of the sample. *)
Lemma template_selection_bounded_witness :
  sampleStructures <> []
  /\ exists structure r',
       selectQuietStructure sampleStructures true (Some (utf16 "a")) sampleRng
       = (Ok (Some structure), r')
       /\ sampled (quietAccepts true (Some (utf16 "a"))) sampleStructures 100
                  sampleRng structure r'.
Proof.
  assert (H : sampleStructures <> []) by (simpl; discriminate).
  split; [exact H|].
  exact (proj1 (template_selection_bounded sampleStructures true
                  (Some (utf16 "a")) sampleRng H)).
Defined.

(** A noun of the sample in the rhyme "a". *)
Lemma basic_word_rhyme_restriction_witness :
  In (utf16 "MM") basicTags
  /\ wantsRhyme true (Some (utf16 "a")) = true
  /\ exists pool,
       getWordsByPartOfSpeech sampleData (utf16 "MM") = Ok pool /\
       (rhyming (utf16 "a") pool <> [] ->
          exists w, In w (rhyming (utf16 "a") pool) /\ In w pool /\
            vowel w = utf16 "a" /\
            selectWord sampleData (Ctx.mk (utf16 "MM") true (Some (utf16 "a")))
              sampleRng = (Ok (word w), next sampleRng)) /\
       (rhyming (utf16 "a") pool = [] ->
          selectWord sampleData (Ctx.mk (utf16 "MM") true (Some (utf16 "a")))
            sampleRng
          = (w <- getRandomWord pool ;; ret (word w)) sampleRng).
Proof.
  assert (H1 : In (utf16 "MM") basicTags) by (simpl; left; reflexivity).
  assert (H2 : wantsRhyme true (Some (utf16 "a")) = true) by reflexivity.
  split; [exact H1|]. split; [exact H2|].
  exact (basic_word_rhyme_restriction sampleData (utf16 "MM") (utf16 "a") true
           sampleRng H1 H2).
Defined.

(** No intransitive verb of the sample has the vowel "i". *)
Lemma intransitive_rhyme_no_fallback_witness :
  truthy (utf16 "i") = true
  /\ rhyming (utf16 "i") (getIntransitiveVerbs sampleData) = []
  /\ selectWord sampleData (Ctx.mk (utf16 "DD") true (Some (utf16 "i"))) sampleRng
     = (Throw EmptyWordList, sampleRng).
Proof.
  assert (H1 : truthy (utf16 "i") = true) by reflexivity.
  assert (H2 : rhyming (utf16 "i") (getIntransitiveVerbs sampleData) = [])
    by reflexivity.
  split; [exact H1|]. split; [exact H2|].
  exact (proj1 (intransitive_rhyme_no_fallback sampleData (utf16 "i") sampleRng
                  H1 H2)).
Defined.

(** The resultative form of a splittable verb of the sample. *)
Lemma splittable_verb_forms_witness :
  (forall rec, In rec sampleIntransitiveVerbs ->
     includes (word rec) slash = true ->
     count_occ N.eq_dec (word rec) slash = 1)
  /\ (exists rec, In rec sampleIntransitiveVerbs /\ includes (word rec) slash = true)
  /\ exists rec stem comp,
       In rec sampleIntransitiveVerbs /\ word rec = stem ++ slash :: comp /\
       ~ In slash stem /\ ~ In slash comp /\
       selectResultativeVerb sampleIntransitiveVerbs sampleRng
       = (Ok (trim comp ++ stem ++ utf16 "得"), next sampleRng) /\
       In de (trim comp ++ stem ++ utf16 "得") /\
       ~ In slash (trim comp ++ stem ++ utf16 "得").
Proof.
  assert (H1 : forall rec, In rec sampleIntransitiveVerbs ->
                 includes (word rec) slash = true ->
                 count_occ N.eq_dec (word rec) slash = 1).
  { intros rec [<-|[<-|[<-|[]]]] H; vm_compute in H |- *;
      reflexivity || discriminate H. }
  assert (H2 : exists rec, In rec sampleIntransitiveVerbs
                           /\ includes (word rec) slash = true).
  { exists (mkWord (utf16 "骑/马") (utf16 "a") []).
    split; [left; reflexivity | reflexivity]. }
  split; [exact H1|]. split; [exact H2|].
  exact (proj1 (proj2 (splittable_verb_forms sampleIntransitiveVerbs false None
                         sampleRng H1 H2))).
Defined.

(** A line of the sample and its full stop. *)
Lemma line_ends_with_punctuation_witness :
  generateLine sampleData sampleStructure sampleOptions sampleRng
  = (Ok (utf16 "山歌唱。"), next (next sampleRng))
  /\ trim (WS.punctuation sampleStructure) = WS.punctuation sampleStructure
  /\ endsWith (utf16 "山歌唱。") (WS.punctuation sampleStructure).
Proof.
  assert (H1 : generateLine sampleData sampleStructure sampleOptions sampleRng
               = (Ok (utf16 "山歌唱。"), next (next sampleRng)))
    by (vm_compute; reflexivity).
  assert (H2 : trim (WS.punctuation sampleStructure)
               = WS.punctuation sampleStructure) by reflexivity.
  split; [exact H1|]. split; [exact H2|].
  exact (proj2 (line_ends_with_punctuation sampleData sampleStructure
                  sampleOptions sampleRng (next (next sampleRng))
                  (utf16 "山歌唱。") H1) H2).
Defined.

(* ================================================================== *)
(** * Outcomes of the selection rules *)
(* ================================================================== *)

(** A random pick either returns an entry of the list after one draw or,
    on the empty list, throws without drawing. *)
Lemma getRandomWord_outcome (words : list WordRecord) (r : Rng) :
  match getRandomWord words r with
  | (Ok w, r') => In w words /\ r' = next r
  | (Throw e, r') => e = EmptyWordList /\ words = [] /\ r' = r
  end.
Proof.
  destruct words as [|w0 ws].
  - cbn. repeat split.
  - destruct (getRandomWord_pick (w0 :: ws) r) as (w & Hin & E); [discriminate|].
    rewrite E. split; [exact Hin | reflexivity].
Qed.

Lemma pick_word_outcome (words : list WordRecord) (r : Rng) :
  match (w <- getRandomWord words ;; ret (word w)) r with
  | (Ok s, r') => (exists w, In w words /\ word w = s) /\ r' = next r
  | (Throw e, r') => e = EmptyWordList /\ words = [] /\ r' = r
  end.
Proof.
  pose proof (getRandomWord_outcome words r) as H. unfold bind.
  destruct (getRandomWord words r) as [[w|e] r'].
  - destruct H as [Hin ->]. cbn. split; [|reflexivity].
    exists w. split; [exact Hin | reflexivity].
  - exact H.
Qed.

(** The shape shared by [selectLocationNoun] and [selectPersonNoun]. *)
Lemma property_pick_outcome (P : WordRecord -> bool) (err : Error)
  (words : list WordRecord) (needsRhyme : bool) (rs : RhymeOpt) (r : Rng) :
  match (if wantsRhyme needsRhyme rs
            && negb (length (rhymingOpt rs (filter P words)) =? 0)
         then w <- getRandomWord (rhymingOpt rs (filter P words)) ;; ret (word w)
         else if length (filter P words) =? 0 then throw err
         else w <- getRandomWord (filter P words) ;; ret (word w)) r with
  | (Ok s, r') =>
      r' = next r /\
      exists w, In w words /\ P w = true /\ word w = s /\
        (wantsRhyme needsRhyme rs = true ->
         rhymingOpt rs (filter P words) <> [] ->
         isScheme (vowel w) rs = true)
  | (Throw e, r') => r' = r /\ e = err /\ filter P words = []
  end.
Proof.
  destruct (wantsRhyme needsRhyme rs
            && negb (length (rhymingOpt rs (filter P words)) =? 0)) eqn:E.
  - apply andb_true_iff in E as [_ E]. apply negb_true_iff in E.
    apply length_zero_false in E.
    pose proof (pick_word_outcome (rhymingOpt rs (filter P words)) r) as H.
    destruct ((w <- getRandomWord (rhymingOpt rs (filter P words)) ;; ret (word w)) r)
      as [[s|e] r'].
    + destruct H as [(w & Hin & Hs) ->]. split; [reflexivity|].
      unfold rhymingOpt in Hin. apply filter_In in Hin as [Hin Hv].
      apply filter_In in Hin as [Hin HP].
      exists w. repeat split; try assumption. intros _ _. exact Hv.
    + destruct H as (_ & H & _). contradiction.
  - destruct (length (filter P words) =? 0) eqn:L.
    + apply Nat.eqb_eq in L. apply length_zero_iff_nil in L.
      cbn. repeat split. exact L.
    + apply length_zero_false in L.
      pose proof (pick_word_outcome (filter P words) r) as H.
      destruct ((w <- getRandomWord (filter P words) ;; ret (word w)) r)
        as [[s|e] r'].
      * destruct H as [(w & Hin & Hs) ->]. split; [reflexivity|].
        apply filter_In in Hin as [Hin HP].
        exists w. repeat split; try assumption. intros Hw Hne.
        rewrite Hw in E. cbn [andb] in E. apply negb_false_iff in E.
        apply Nat.eqb_eq, length_zero_iff_nil in E. contradiction.
      * destruct H as (_ & H & _). contradiction.
Qed.

Lemma selectLocationNoun_outcome (words : list WordRecord) (needsRhyme : bool)
  (rs : RhymeOpt) (r : Rng) :
  match selectLocationNoun words needsRhyme rs r with
  | (Ok s, r') =>
      r' = next r /\
      exists w, In w words /\ isLocation w = true /\ word w = s /\
        (wantsRhyme needsRhyme rs = true ->
         rhymingOpt rs (filter isLocation words) <> [] ->
         isScheme (vowel w) rs = true)
  | (Throw e, r') => r' = r /\ e = NoLocationNoun /\ filter isLocation words = []
  end.
Proof.
  exact (property_pick_outcome isLocation NoLocationNoun words needsRhyme rs r).
Qed.

Lemma selectPersonNoun_outcome (words : list WordRecord) (needsRhyme : bool)
  (rs : RhymeOpt) (r : Rng) :
  match selectPersonNoun words needsRhyme rs r with
  | (Ok s, r') =>
      r' = next r /\
      exists w, In w words /\ isPerson w = true /\ word w = s /\
        (wantsRhyme needsRhyme rs = true ->
         rhymingOpt rs (filter isPerson words) <> [] ->
         isScheme (vowel w) rs = true)
  | (Throw e, r') => r' = r /\ e = NoPersonNoun /\ filter isPerson words = []
  end.
Proof.
  exact (property_pick_outcome isPerson NoPersonNoun words needsRhyme rs r).
Qed.

(** X1.  The location-noun rule (MC) returns, after one draw, the word of a
    noun whose property is 时间, 地点 or 地名, with the wanted vowel as
    soon as such a noun has it; it fails only for want of such a noun,
    with its own error and before any draw. *)
Theorem location_noun_outcome (D : DataService) (needsRhyme : bool)
  (rs : RhymeOpt) (r : Rng) :
  match selectWord D (Ctx.mk (utf16 "MC") needsRhyme rs) r with
  | (Ok s, r') =>
      r' = next r /\
      exists w, In w (getNouns D) /\ isLocation w = true /\ word w = s /\
        (wantsRhyme needsRhyme rs = true ->
         rhymingOpt rs (filter isLocation (getNouns D)) <> [] ->
         isScheme (vowel w) rs = true)
  | (Throw e, r') =>
      r' = r /\ e = NoLocationNoun /\ filter isLocation (getNouns D) = []
  end.
Proof. exact (selectLocationNoun_outcome (getNouns D) needsRhyme rs r). Qed.

(** X2.  The person-noun rule (MR) returns, after one draw, the word of a
    noun whose property is 人物 or 人名, with the wanted vowel as soon as
    such a noun has it; it fails only for want of such a noun, with its
    own error and before any draw. *)
Theorem person_noun_outcome (D : DataService) (needsRhyme : bool)
  (rs : RhymeOpt) (r : Rng) :
  match selectWord D (Ctx.mk (utf16 "MR") needsRhyme rs) r with
  | (Ok s, r') =>
      r' = next r /\
      exists w, In w (getNouns D) /\ isPerson w = true /\ word w = s /\
        (wantsRhyme needsRhyme rs = true ->
         rhymingOpt rs (filter isPerson (getNouns D)) <> [] ->
         isScheme (vowel w) rs = true)
  | (Throw e, r') =>
      r' = r /\ e = NoPersonNoun /\ filter isPerson (getNouns D) = []
  end.
Proof. exact (selectPersonNoun_outcome (getNouns D) needsRhyme rs r). Qed.

Lemma selectBasicWord_outcome (words : list WordRecord) (needsRhyme : bool)
  (rs : RhymeOpt) (r : Rng) :
  match selectBasicWord words needsRhyme rs r with
  | (Ok s, r') => r' = next r /\ exists w, In w words /\ word w = s
  | (Throw e, r') => r' = r /\ e = EmptyWordList /\ words = []
  end.
Proof.
  unfold selectBasicWord. fold (rhymingOpt rs words).
  destruct (wantsRhyme needsRhyme rs && negb (length (rhymingOpt rs words) =? 0))
    eqn:E.
  - apply andb_true_iff in E as [_ E]. apply negb_true_iff in E.
    apply length_zero_false in E.
    pose proof (pick_word_outcome (rhymingOpt rs words) r) as H.
    destruct ((w <- getRandomWord (rhymingOpt rs words) ;; ret (word w)) r)
      as [[s|e] r'].
    + destruct H as [(w & Hin & Hs) ->]. split; [reflexivity|].
      apply filter_In in Hin as [Hin _]. exists w. split; assumption.
    + destruct H as (_ & H & _). contradiction.
  - pose proof (pick_word_outcome words r) as H.
    destruct ((w <- getRandomWord words ;; ret (word w)) r) as [[s|e] r'].
    + destruct H as [Hw ->]. split; [reflexivity | exact Hw].
    + destruct H as (-> & -> & ->). repeat split.
Qed.

Lemma indexOf_absent (w : jstring) (c : N) : ~ In c w -> indexOf w c = (-1)%Z.
Proof.
  induction w as [|a w IH]; intros H; [reflexivity|].
  cbn [indexOf]. destruct (N.eqb_spec a c) as [->|_].
  - exfalso. apply H. left. reflexivity.
  - rewrite IH by (intros F; apply H; right; exact F). reflexivity.
Qed.

Lemma first_occurrence (c : N) (w : jstring) :
  In c w -> exists stem comp, w = stem ++ c :: comp /\ ~ In c stem.
Proof.
  induction w as [|a w IH]; [contradiction|].
  destruct (N.eq_dec a c) as [->|Hne].
  - intros _. exists [], w. split; [reflexivity | intros []].
  - intros [F|F]; [contradiction|].
    destruct (IH F) as (stem & comp & -> & Hs).
    exists (a :: stem), comp. split; [reflexivity|].
    intros [G|G]; [contradiction | exact (Hs G)].
Qed.

Lemma removeFirst_split (c : N) (stem comp : jstring) :
  ~ In c stem -> removeFirst c (stem ++ c :: comp) = stem ++ comp.
Proof.
  induction stem as [|a stem IH]; intros H.
  - cbn. now rewrite N.eqb_refl.
  - cbn [app removeFirst]. destruct (N.eqb_spec a c) as [->|_].
    + exfalso. apply H. left. reflexivity.
    + rewrite IH by (intros F; apply H; right; exact F). reflexivity.
Qed.

Lemma removeFirst_absent (c : N) (w : jstring) : ~ In c w -> removeFirst c w = w.
Proof.
  induction w as [|a w IH]; intros H; [reflexivity|].
  cbn [removeFirst]. destruct (N.eqb_spec a c) as [->|_].
  - exfalso. apply H. left. reflexivity.
  - rewrite IH by (intros F; apply H; right; exact F). reflexivity.
Qed.

Lemma removeFirst_count (c : N) (w : jstring) :
  In c (removeFirst c w) -> 2 <= count_occ N.eq_dec w c.
Proof.
  induction w as [|a w IH]; [contradiction|].
  cbn [removeFirst]. destruct (N.eqb_spec a c) as [->|Hne].
  - intros H. rewrite count_occ_cons_eq by reflexivity.
    apply (count_occ_In N.eq_dec) in H. lia.
  - intros [F|F]; [contradiction|].
    rewrite count_occ_cons_neq by assumption. apply IH, F.
Qed.

(** What the plain intransitive rule makes of the text of an entry: the
    text without its first separator. *)
Lemma plain_form (wordText : jstring) :
  (let slashIndex := indexOf wordText slash in
   if negb (slashIndex =? -1)%Z
   then substring wordText 0 slashIndex ++ substringFrom wordText (slashIndex + 1)
   else wordText)
  = removeFirst slash wordText.
Proof.
  cbv zeta. destruct (in_dec N.eq_dec slash wordText) as [Hin|Hout].
  - destruct (first_occurrence slash wordText Hin) as (stem & comp & -> & Hs).
    destruct (split_forms stem comp Hs) as (-> & -> & ->).
    symmetry. apply removeFirst_split, Hs.
  - rewrite (indexOf_absent _ _ Hout). cbn.
    symmetry. apply removeFirst_absent, Hout.
Qed.

Lemma plain_form_run (wordText : jstring) (r : Rng) :
  (if negb (indexOf wordText slash =? -1)%Z
   then ret (substring wordText 0 (indexOf wordText slash)
             ++ substringFrom wordText (indexOf wordText slash + 1))
   else ret wordText) r
  = (Ok (removeFirst slash wordText), r).
Proof.
  rewrite <- plain_form. cbv zeta.
  destruct (negb (indexOf wordText slash =? -1)%Z); reflexivity.
Qed.

Lemma selectIntransitiveVerb_outcome (words : list WordRecord)
  (needsRhyme : bool) (rs : RhymeOpt) (r : Rng) :
  match selectIntransitiveVerb words needsRhyme rs r with
  | (Ok s, r') =>
      r' = next r /\
      exists w, In w words /\ s = removeFirst slash (word w) /\
        (wantsRhyme needsRhyme rs = true -> isScheme (vowel w) rs = true)
  | (Throw e, r') =>
      r' = r /\ e = EmptyWordList /\
      (if wantsRhyme needsRhyme rs then rhymingOpt rs words else words) = []
  end.
Proof.
  unfold selectIntransitiveVerb, getRandomRhymingWord. fold (rhymingOpt rs words).
  unfold bind at 1.
  destruct (wantsRhyme needsRhyme rs).
  - pose proof (getRandomWord_outcome (rhymingOpt rs words) r) as H.
    destruct (getRandomWord (rhymingOpt rs words) r) as [[w|e] r'].
    + destruct H as [Hin ->]. apply filter_In in Hin as [Hin Hv].
      cbv beta zeta. rewrite plain_form_run. split; [reflexivity|].
      exists w. repeat split; [exact Hin | intros _; exact Hv].
    + destruct H as (-> & -> & ->). repeat split.
  - pose proof (getRandomWord_outcome words r) as H.
    destruct (getRandomWord words r) as [[w|e] r'].
    + destruct H as [Hin ->]. cbv beta zeta. rewrite plain_form_run.
      split; [reflexivity|].
      exists w. repeat split; [exact Hin | discriminate].
    + destruct H as (-> & -> & ->). repeat split.
Qed.

(** X3.  The plain intransitive rule (DD) returns, after one draw, the text
    of an intransitive verb (one with the wanted vowel when a rhyme is
    wanted) without its first separator, hence without any separator when
    the entry holds at most one; it fails, before any draw, only when the
    pool it draws from is empty. *)
Theorem intransitive_verb_outcome (D : DataService) (needsRhyme : bool)
  (rs : RhymeOpt) (r : Rng) :
  match selectWord D (Ctx.mk (utf16 "DD") needsRhyme rs) r with
  | (Ok s, r') =>
      r' = next r /\
      exists w, In w (getIntransitiveVerbs D) /\
        s = removeFirst slash (word w) /\
        (wantsRhyme needsRhyme rs = true -> isScheme (vowel w) rs = true) /\
        (count_occ N.eq_dec (word w) slash <= 1 -> ~ In slash s)
  | (Throw e, r') =>
      r' = r /\ e = EmptyWordList /\
      (if wantsRhyme needsRhyme rs
       then rhymingOpt rs (getIntransitiveVerbs D)
       else getIntransitiveVerbs D) = []
  end.
Proof.
  rewrite selectWord_DD.
  pose proof (selectIntransitiveVerb_outcome (getIntransitiveVerbs D)
                needsRhyme rs r) as H.
  destruct (selectIntransitiveVerb (getIntransitiveVerbs D) needsRhyme rs r)
    as [[s|e] r']; [|exact H].
  destruct H as (-> & w & Hin & -> & Hv). split; [reflexivity|].
  exists w. repeat split; try assumption.
  intros Hc F. apply removeFirst_count in F. lia.
Qed.

Lemma selectSimpleVerb_outcome (words : list WordRecord) (r : Rng) :
  match selectSimpleVerb words r with
  | (Ok s, r') =>
      r' = next r /\ exists w, In w words /\ word w = s /\ ~ In slash s
  | (Throw e, r') =>
      r' = r /\ e = NoSimpleVerb /\
      forall w, In w words -> In slash (word w)
  end.
Proof.
  unfold selectSimpleVerb. cbv zeta.
  set (simple := filter (fun w => negb (includes (word w) slash)) words).
  destruct (length simple =? 0) eqn:L.
  - apply Nat.eqb_eq, length_zero_iff_nil in L. cbn. repeat split.
    intros w Hin. apply includes_In.
    destruct (includes (word w) slash) eqn:E; [reflexivity|]. exfalso.
    assert (H : In w simple) by (apply filter_In; split; [exact Hin | now rewrite E]).
    rewrite L in H. exact H.
  - apply length_zero_false in L.
    pose proof (pick_word_outcome simple r) as H.
    destruct ((w <- getRandomWord simple ;; ret (word w)) r) as [[s|e] r'].
    + destruct H as [(w & Hin & <-) ->]. split; [reflexivity|].
      apply filter_In in Hin as [Hin Hs]. exists w. repeat split; [exact Hin|].
      intros F. apply includes_In in F. rewrite F in Hs. discriminate.
    + destruct H as (_ & H & _). contradiction.
Qed.

(** X4.  The simple-verb rule (DI) returns, after one draw, the word of an
    intransitive verb that holds no separator; it fails, before any draw,
    only when every intransitive verb holds one. *)
Theorem simple_verb_outcome (D : DataService) (needsRhyme : bool)
  (rs : RhymeOpt) (r : Rng) :
  match selectWord D (Ctx.mk (utf16 "DI") needsRhyme rs) r with
  | (Ok s, r') =>
      r' = next r /\
      exists w, In w (getIntransitiveVerbs D) /\ word w = s /\ ~ In slash s
  | (Throw e, r') =>
      r' = r /\ e = NoSimpleVerb /\
      forall w, In w (getIntransitiveVerbs D) -> In slash (word w)
  end.
Proof. exact (selectSimpleVerb_outcome (getIntransitiveVerbs D) r). Qed.

Lemma selectSpecialWord_outcome (D : DataService) (r : Rng) :
  match selectSpecialWord D r with
  | (Ok s, r') =>
      (getSpecialWords D = [] /\ s = [] /\ r' = r)
      \/ (exists sw, In sw (getSpecialWords D) /\ s = content sw /\ r' = next r)
  | (Throw e, r') => False
  end.
Proof.
  unfold selectSpecialWord. cbv zeta.
  destruct (getSpecialWords D) as [|sw0 sws]; [left; repeat split|].
  cbn [length Nat.eqb].
  pose (i := source r (drawn r) mod S (length sws)).
  assert (L : i < length (sw0 :: sws))
    by (apply Nat.mod_upper_bound; discriminate).
  unfold bind, randomIndex. fold i.
  destruct (nth_error (sw0 :: sws) i) as [sw|] eqn:E.
  - right. exists sw. repeat split. eapply nth_error_In. exact E.
  - apply nth_error_None in E. lia.
Qed.

(** X5.  The special-word rule (SS) never fails: on an empty pool it
    returns the empty string without drawing, otherwise the content of a
    special word after one draw. *)
Theorem special_word_outcome (D : DataService) (needsRhyme : bool)
  (rs : RhymeOpt) (r : Rng) :
  match selectWord D (Ctx.mk (utf16 "SS") needsRhyme rs) r with
  | (Ok s, r') =>
      (getSpecialWords D = [] /\ s = [] /\ r' = r)
      \/ (exists sw, In sw (getSpecialWords D) /\ s = content sw /\ r' = next r)
  | (Throw e, r') => False
  end.
Proof. exact (selectSpecialWord_outcome D r). Qed.

Lemma selectProgressiveVerb_outcome (words : list WordRecord)
  (needsRhyme : bool) (rs : RhymeOpt) (r : Rng) :
  match selectProgressiveVerb words needsRhyme rs r with
  | (Ok s, r') =>
      r' = next r /\
      exists w stem comp,
        In w words /\ word w = stem ++ slash :: comp /\ ~ In slash stem /\
        s = stem ++ utf16 "着" ++ comp /\
        (wantsRhyme needsRhyme rs = true ->
         rhymingOpt rs (filter (fun w => includes (word w) slash) words) <> [] ->
         isScheme (vowel w) rs = true)
  | (Throw e, r') =>
      r' = r /\ e = NoProgressiveVerb /\
      forall w, In w words -> ~ In slash (word w)
  end.
Proof.
  unfold selectProgressiveVerb. cbv zeta.
  set (candidateWords := filter (fun w => includes (word w) slash) words).
  fold (rhymingOpt rs candidateWords).
  set (pool := if wantsRhyme needsRhyme rs
                  && negb (length (rhymingOpt rs candidateWords) =? 0)
               then rhymingOpt rs candidateWords else candidateWords).
  assert (Hpool : forall w, In w pool ->
            In w words /\ In slash (word w) /\
            (wantsRhyme needsRhyme rs = true ->
             rhymingOpt rs candidateWords <> [] -> isScheme (vowel w) rs = true)).
  { intros w Hw. subst pool.
    destruct (wantsRhyme needsRhyme rs
              && negb (length (rhymingOpt rs candidateWords) =? 0)) eqn:E.
    - apply filter_In in Hw as [Hw Hv]. apply filter_In in Hw as [Hw Hs].
      apply includes_In in Hs. repeat split; try assumption. intros _ _. exact Hv.
    - apply filter_In in Hw as [Hw Hs]. apply includes_In in Hs.
      repeat split; try assumption. intros Hwant Hne. rewrite Hwant in E.
      cbn [andb] in E. apply negb_false_iff, Nat.eqb_eq, length_zero_iff_nil in E.
      contradiction. }
  destruct (length pool =? 0) eqn:L.
  - apply Nat.eqb_eq, length_zero_iff_nil in L. cbn. repeat split.
    intros w Hin Hs.
    assert (Hc : In w candidateWords)
      by (apply filter_In; split; [exact Hin | apply includes_In, Hs]).
    subst pool.
    destruct (wantsRhyme needsRhyme rs
              && negb (length (rhymingOpt rs candidateWords) =? 0)) eqn:E.
    + apply andb_true_iff in E as [_ E]. rewrite L in E. discriminate.
    + rewrite L in Hc. exact Hc.
  - pose proof (getRandomWord_outcome pool r) as H. unfold bind.
    destruct (getRandomWord pool r) as [[w|e] r'].
    + destruct H as [Hin ->]. destruct (Hpool w Hin) as (Hw & Hs & Hv).
      destruct (first_occurrence slash (word w) Hs) as (stem & comp & E & Hstem).
      rewrite E. destruct (split_forms stem comp Hstem) as (-> & -> & ->).
      cbn. split; [reflexivity|].
      exists w, stem, comp. repeat split; assumption.
    + destruct H as (_ & H & _). apply length_zero_false in L. contradiction.
Qed.

(** X6.  The progressive rule (DV) returns, after one draw, stem + 着 +
    complement of a splittable intransitive verb, split at its first
    separator, with the wanted vowel as soon as a splittable verb has it;
    it fails, before any draw, only when no intransitive verb holds a
    separator. *)
Theorem progressive_verb_outcome (D : DataService) (needsRhyme : bool)
  (rs : RhymeOpt) (r : Rng) :
  match selectWord D (Ctx.mk (utf16 "DV") needsRhyme rs) r with
  | (Ok s, r') =>
      r' = next r /\
      exists w stem comp,
        In w (getIntransitiveVerbs D) /\
        word w = stem ++ slash :: comp /\ ~ In slash stem /\
        s = stem ++ utf16 "着" ++ comp /\
        (wantsRhyme needsRhyme rs = true ->
         rhymingOpt rs (filter (fun w => includes (word w) slash)
                               (getIntransitiveVerbs D)) <> [] ->
         isScheme (vowel w) rs = true)
  | (Throw e, r') =>
      r' = r /\ e = NoProgressiveVerb /\
      forall w, In w (getIntransitiveVerbs D) -> ~ In slash (word w)
  end.
Proof.
  exact (selectProgressiveVerb_outcome (getIntransitiveVerbs D) needsRhyme rs r).
Qed.

Lemma selectResultativeVerb_outcome (words : list WordRecord) (r : Rng) :
  match selectResultativeVerb words r with
  | (Ok s, r') =>
      r' = next r /\
      exists w stem comp,
        In w words /\ word w = stem ++ slash :: comp /\ ~ In slash stem /\
        s = trim comp ++ stem ++ utf16 "得"
  | (Throw e, r') =>
      r' = r /\ e = NoResultativeVerb /\
      forall w, In w words -> ~ In slash (word w)
  end.
Proof.
  unfold selectResultativeVerb. cbv zeta.
  set (pool := filter (fun w => includes (word w) slash) words).
  destruct (length pool =? 0) eqn:L.
  - apply Nat.eqb_eq, length_zero_iff_nil in L. cbn. repeat split.
    intros w Hin Hs.
    assert (Hc : In w pool)
      by (apply filter_In; split; [exact Hin | apply includes_In, Hs]).
    rewrite L in Hc. exact Hc.
  - pose proof (getRandomWord_outcome pool r) as H. unfold bind.
    destruct (getRandomWord pool r) as [[w|e] r'].
    + destruct H as [Hin ->]. apply filter_In in Hin as [Hw Hs].
      apply includes_In in Hs.
      destruct (first_occurrence slash (word w) Hs) as (stem & comp & E & Hstem).
      rewrite E. destruct (split_forms stem comp Hstem) as (-> & -> & ->).
      cbn. split; [reflexivity|].
      exists w, stem, comp. repeat split; assumption.
    + destruct H as (_ & H & _). apply length_zero_false in L. contradiction.
Qed.

Lemma oneOf_tags_false (tag : jstring) :
  oneOf tag partOfSpeechTags = false ->
  eqb tag (utf16 "MM") = false /\ eqb tag (utf16 "MC") = false /\
  eqb tag (utf16 "MR") = false /\ eqb tag (utf16 "DD") = false /\
  eqb tag (utf16 "DI") = false /\ eqb tag (utf16 "DV") = false /\
  eqb tag (utf16 "DO") = false /\ eqb tag (utf16 "DJ") = false /\
  eqb tag (utf16 "XA") = false /\ eqb tag (utf16 "TT") = false /\
  eqb tag (utf16 "SS") = false.
Proof.
  unfold oneOf, partOfSpeechTags. cbn [map existsb]. intros H.
  repeat (apply orb_false_iff in H; destruct H as [? H]).
  repeat split; assumption.
Qed.

(** X7.  [selectWord] fails with one error per tag, always before it
    draws: the empty-word-list error for MM, TT, DJ, XA and DD, the error
    of its own rule for MC, MR, DI, DV and DO, never for SS, and the
    unsupported-tag error exactly for a tag outside the eleven; when it
    returns, the tag is one of the eleven and at most one draw was
    made. *)
Theorem selection_errors (D : DataService) (tag : jstring) (needsRhyme : bool)
  (rs : RhymeOpt) (r : Rng) :
  match selectWord D (Ctx.mk tag needsRhyme rs) r with
  | (Ok s, r') => In tag partOfSpeechTags /\ (r' = next r \/ r' = r)
  | (Throw e, r') =>
      errorOf tag = Some e /\ r' = r /\
      (e = UnsupportedPartOfSpeech <-> ~ In tag partOfSpeechTags)
  end.
Proof.
  destruct (oneOf tag partOfSpeechTags) eqn:T.
  - apply oneOf_In in T.
    assert (Hin := T). cbn [partOfSpeechTags map In] in T.
    assert (Hiff : forall e, e <> UnsupportedPartOfSpeech ->
              (e = UnsupportedPartOfSpeech <-> ~ In tag partOfSpeechTags))
      by (intros e He; split; [intros F; contradiction | intros F; contradiction]).
    destruct T as [<-|[<-|[<-|[<-|[<-|[<-|[<-|[<-|[<-|[<-|[<-|[]]]]]]]]]]]].
    + pose proof (selectBasicWord_outcome (getNouns D) needsRhyme rs r) as H.
      change (selectWord D (Ctx.mk (utf16 "MM") needsRhyme rs) r)
        with (selectBasicWord (getNouns D) needsRhyme rs r).
      destruct (selectBasicWord (getNouns D) needsRhyme rs r) as [[s|e] r'].
      * destruct H as [-> _]. split; [exact Hin | left; reflexivity].
      * destruct H as (-> & -> & _). repeat split; try apply Hiff; discriminate.
    + pose proof (selectLocationNoun_outcome (getNouns D) needsRhyme rs r) as H.
      change (selectWord D (Ctx.mk (utf16 "MC") needsRhyme rs) r)
        with (selectLocationNoun (getNouns D) needsRhyme rs r).
      destruct (selectLocationNoun (getNouns D) needsRhyme rs r) as [[s|e] r'].
      * destruct H as [-> _]. split; [exact Hin | left; reflexivity].
      * destruct H as (-> & -> & _). repeat split; try apply Hiff; discriminate.
    + pose proof (selectPersonNoun_outcome (getNouns D) needsRhyme rs r) as H.
      change (selectWord D (Ctx.mk (utf16 "MR") needsRhyme rs) r)
        with (selectPersonNoun (getNouns D) needsRhyme rs r).
      destruct (selectPersonNoun (getNouns D) needsRhyme rs r) as [[s|e] r'].
      * destruct H as [-> _]. split; [exact Hin | left; reflexivity].
      * destruct H as (-> & -> & _). repeat split; try apply Hiff; discriminate.
    + pose proof (selectIntransitiveVerb_outcome (getIntransitiveVerbs D)
                    needsRhyme rs r) as H.
      rewrite selectWord_DD.
      destruct (selectIntransitiveVerb (getIntransitiveVerbs D) needsRhyme rs r)
        as [[s|e] r'].
      * destruct H as [-> _]. split; [exact Hin | left; reflexivity].
      * destruct H as (-> & -> & _). repeat split; try apply Hiff; discriminate.
    + pose proof (selectSimpleVerb_outcome (getIntransitiveVerbs D) r) as H.
      change (selectWord D (Ctx.mk (utf16 "DI") needsRhyme rs) r)
        with (selectSimpleVerb (getIntransitiveVerbs D) r).
      destruct (selectSimpleVerb (getIntransitiveVerbs D) r) as [[s|e] r'].
      * destruct H as [-> _]. split; [exact Hin | left; reflexivity].
      * destruct H as (-> & -> & _). repeat split; try apply Hiff; discriminate.
    + pose proof (selectProgressiveVerb_outcome (getIntransitiveVerbs D)
                    needsRhyme rs r) as H.
      change (selectWord D (Ctx.mk (utf16 "DV") needsRhyme rs) r)
        with (selectProgressiveVerb (getIntransitiveVerbs D) needsRhyme rs r).
      destruct (selectProgressiveVerb (getIntransitiveVerbs D) needsRhyme rs r)
        as [[s|e] r'].
      * destruct H as [-> _]. split; [exact Hin | left; reflexivity].
      * destruct H as (-> & -> & _). repeat split; try apply Hiff; discriminate.
    + pose proof (selectResultativeVerb_outcome (getIntransitiveVerbs D) r) as H.
      change (selectWord D (Ctx.mk (utf16 "DO") needsRhyme rs) r)
        with (selectResultativeVerb (getIntransitiveVerbs D) r).
      destruct (selectResultativeVerb (getIntransitiveVerbs D) r) as [[s|e] r'].
      * destruct H as [-> _]. split; [exact Hin | left; reflexivity].
      * destruct H as (-> & -> & _). repeat split; try apply Hiff; discriminate.
    + pose proof (selectBasicWord_outcome (getTransitiveVerbs D) needsRhyme rs r) as H.
      change (selectWord D (Ctx.mk (utf16 "DJ") needsRhyme rs) r)
        with (selectBasicWord (getTransitiveVerbs D) needsRhyme rs r).
      destruct (selectBasicWord (getTransitiveVerbs D) needsRhyme rs r) as [[s|e] r'].
      * destruct H as [-> _]. split; [exact Hin | left; reflexivity].
      * destruct H as (-> & -> & _). repeat split; try apply Hiff; discriminate.
    + pose proof (selectBasicWord_outcome (getAdjectives D) needsRhyme rs r) as H.
      change (selectWord D (Ctx.mk (utf16 "XA") needsRhyme rs) r)
        with (selectBasicWord (getAdjectives D) needsRhyme rs r).
      destruct (selectBasicWord (getAdjectives D) needsRhyme rs r) as [[s|e] r'].
      * destruct H as [-> _]. split; [exact Hin | left; reflexivity].
      * destruct H as (-> & -> & _). repeat split; try apply Hiff; discriminate.
    + pose proof (selectBasicWord_outcome (getInterjections D) needsRhyme rs r) as H.
      change (selectWord D (Ctx.mk (utf16 "TT") needsRhyme rs) r)
        with (selectBasicWord (getInterjections D) needsRhyme rs r).
      destruct (selectBasicWord (getInterjections D) needsRhyme rs r) as [[s|e] r'].
      * destruct H as [-> _]. split; [exact Hin | left; reflexivity].
      * destruct H as (-> & -> & _). repeat split; try apply Hiff; discriminate.
    + pose proof (selectSpecialWord_outcome D r) as H.
      change (selectWord D (Ctx.mk (utf16 "SS") needsRhyme rs) r)
        with (selectSpecialWord D r).
      destruct (selectSpecialWord D r) as [[s|e] r']; [|contradiction].
      split; [exact Hin|].
      destruct H as [(_ & _ & ->)|(sw & _ & _ & ->)]; [right | left]; reflexivity.
  - assert (Hout : ~ In tag partOfSpeechTags).
    { intros F. apply oneOf_In in F. rewrite F in T. discriminate. }
    destruct (oneOf_tags_false tag T)
      as (E1 & E2 & E3 & E4 & E5 & E6 & E7 & E8 & E9 & E10 & E11).
    unfold selectWord, getWordsByPartOfSpeech, errorOf, oneOf.
    cbn [Ctx.partOfSpeech map existsb].
    rewrite E1, E2, E3, E4, E5, E6, E7, E8, E9, E10, E11. cbn.
    repeat split; intros; assumption || reflexivity.
Qed.

(* ================================================================== *)
(** * More on the structure generator *)
(* ================================================================== *)

Lemma mod2_succ_odd (n : nat) : n mod 2 <> 0 -> (n + 1) mod 2 = 0.
Proof.
  intros H. pose proof (Nat.div_mod_eq n 2) as D.
  pose proof (Nat.mod_upper_bound n 2 ltac:(discriminate)) as U.
  symmetry. apply (Nat.mod_unique (n + 1) 2 (n / 2 + 1) 0); lia.
Qed.

(** X8.  Whatever the number of lines, the first and the last line of a
    stanza need the rhyme, and of two consecutive lines one at least
    does. *)
Theorem rhyme_positions (total : nat) :
  shouldLineRhyme 1 total = true
  /\ shouldLineRhyme total total = true
  /\ forall lineIndex,
       shouldLineRhyme lineIndex total || shouldLineRhyme (lineIndex + 1) total
       = true.
Proof.
  unfold shouldLineRhyme.
  split; [|split].
  - destruct (Nat.eqb_spec (total mod 2) 0); reflexivity.
  - destruct (Nat.eqb_spec (total mod 2) 0) as [E|E].
    + apply orb_true_r.
    + apply Nat.eqb_eq, mod2_succ_odd, E.
  - intros lineIndex.
    destruct (Nat.eqb_spec (total mod 2) 0) as [E|E].
    + destruct (Nat.eqb_spec (lineIndex mod 2) 0) as [F|F].
      * now rewrite orb_true_r.
      * rewrite (mod2_succ_odd lineIndex F). cbn. now rewrite !orb_true_r.
    + destruct (Nat.eqb_spec ((lineIndex + 1) mod 2) 0) as [F|F];
        [reflexivity|].
      apply Nat.eqb_eq, mod2_succ_odd, F.
Qed.

Lemma rng_eta (r r' : Rng) (k : nat) :
  source r' = source r -> drawn r' = drawn r + k -> r' = after k r.
Proof. destruct r, r'. unfold after. cbn. intros -> ->. reflexivity. Qed.

(** When every template of the table is rejected, sampling ends on the
    first template after the whole budget of draws. *)
Lemma sampled_all_rejected (accepts : SentenceStructure -> bool)
  (structures : list SentenceStructure) (budget : nat) (r r' : Rng)
  (structure : SentenceStructure) :
  (forall s, In s structures -> accepts s = false) ->
  sampled accepts structures budget r structure r' ->
  nth_error structures 0 = Some structure /\ r' = after budget r.
Proof.
  intros Hall (Hin & Hsrc & k & Hk & Hd & _ & [(_ & _ & Hacc)|(-> & Hfirst & _)]).
  - rewrite (Hall _ Hin) in Hacc. discriminate.
  - split; [exact Hfirst | apply rng_eta; assumption].
Qed.

(** X9.  When no template of a non-empty table passes the tests of the
    style (quiet: the tenth slot, [elements[9]], is empty and the rhyme
    test passes; bold: the rhyme test passes), the selection makes exactly
    100 draws and returns the first template of the table, although that
    template does not pass them either: in the quiet style the result can
    be a template whose tenth slot is in use. *)
Theorem selection_exhausted (structures : list SentenceStructure)
  (needsRhyme : bool) (rs : RhymeOpt) (r : Rng) :
  structures <> [] ->
  ((forall s, In s structures -> quietAccepts needsRhyme rs s = false) ->
   selectQuietStructure structures needsRhyme rs r
   = (Ok (nth_error structures 0), after 100 r))
  /\ ((forall s, In s structures -> boldAccepts needsRhyme rs s = false) ->
      selectBoldStructure structures needsRhyme rs r
      = (Ok (nth_error structures 0), after 100 r)).
Proof.
  intros Hne. split; intros Hall.
  - destruct (selectQuietLoop_sampled structures needsRhyme rs maxAttempts r Hne)
      as (s & r' & Hrun & Hs).
    destruct (sampled_all_rejected _ _ _ _ _ _ Hall Hs) as [Hfirst ->].
    rewrite Hfirst. exact Hrun.
  - destruct (selectBoldLoop_sampled structures needsRhyme rs maxAttempts r Hne)
      as (s & r' & Hrun & Hs).
    destruct (sampled_all_rejected _ _ _ _ _ _ Hall Hs) as [Hfirst ->].
    rewrite Hfirst. exact Hrun.
Qed.

(** The quiet style on a table without a quiet template. *)
Lemma selection_exhausted_witness :
  longTable <> []
  /\ (forall s, In s longTable -> quietAccepts false None s = false)
  /\ selectQuietStructure longTable false None sampleRng
     = (Ok (Some (longTemplate (utf16 "。"))), after 100 sampleRng).
Proof.
  assert (H1 : longTable <> []) by (simpl; discriminate).
  assert (H2 : forall s, In s longTable -> quietAccepts false None s = false)
    by (intros s [<-|[<-|[]]]; reflexivity).
  split; [exact H1|]. split; [exact H2|].
  exact (proj1 (selection_exhausted longTable false None sampleRng H1) H2).
Defined.

(** X10.  In the bold style, when no rhyme is wanted (the flag is off or
    no scheme is given), the template of a line is the one designated by a
    single draw, whatever it is. *)
Theorem bold_single_draw (structures : list SentenceStructure)
  (needsRhyme : bool) (rs : RhymeOpt) (r : Rng) :
  structures <> [] ->
  wantsRhyme needsRhyme rs = false ->
  selectBoldStructure structures needsRhyme rs r
  = (Ok (candidate structures (source r) (drawn r)), next r).
Proof.
  intros Hne Hw.
  destruct (candidate_some structures (source r) (drawn r) Hne) as (c & Hc & _).
  unfold selectBoldStructure. change maxAttempts with (S 99).
  cbn [selectBoldLoop].
  rewrite (bind_run _ _ _ _ _ (randomIndex_run _ r (length_nonzero _ Hne))).
  rewrite Hc. unfold candidate in Hc. rewrite Hc.
  unfold rhymeRejects. rewrite Hw. reflexivity.
Qed.

Lemma bold_single_draw_witness :
  sampleStructures <> []
  /\ wantsRhyme true None = false
  /\ selectBoldStructure sampleStructures true None (next sampleRng)
     = (Ok (Some compoundTemplate), next (next sampleRng)).
Proof.
  assert (H1 : sampleStructures <> []) by (simpl; discriminate).
  assert (H2 : wantsRhyme true None = false) by reflexivity.
  split; [exact H1|]. split; [exact H2|].
  exact (bold_single_draw sampleStructures true None (next sampleRng) H1 H2).
Defined.

Lemma takeContent_nonempty (l : list jstring) :
  Forall (fun e => e <> []) (takeContent l).
Proof.
  induction l as [|e l IH]; simpl; [constructor|].
  destruct (eqb e []) eqn:E; [constructor|].
  constructor; [|exact IH]. apply eqb_neq, E.
Qed.

Lemma processElement_nonempty (limitedRhyme element slot : jstring) :
  element <> [] ->
  In slot (processElement limitedRhyme element) -> slot <> [].
Proof.
  intros He. unfold processElement.
  destruct (eqb element (utf16 "Dd") && eqb limitedRhyme (utf16 "E")).
  { intros [<-|[<-|[<-|[]]]]; discriminate. }
  destruct ((length element =? 2)
            && eqb (firstn 1 element) (toLowerCase (firstn 1 element))).
  - intros [<-|[]]. destruct element; [contradiction | discriminate].
  - intros [<-|[]]. exact He.
Qed.

(** X11.  A working structure is left-packed: its slots are non-empty
    slots followed by empty ones only, at least 30 in all, and it keeps
    the punctuation and the compound count of its template. *)
Theorem working_structure_left_packed (structure : SentenceStructure)
  (needsRhyme : bool) (rs : RhymeOpt) :
  exists ws content,
    processStructureElements (Some structure) needsRhyme rs = Ok ws /\
    WS.elements ws = content ++ repeat [] (30 - length content) /\
    Forall (fun e => e <> []) content /\
    30 <= length (WS.elements ws) /\
    WS.punctuation ws = SS.punctuation structure /\
    WS.compoundStructureCount ws = SS.compoundStructureCount structure.
Proof.
  exists (expand structure),
         (flat_map (processElement (SS.limitedRhyme structure)) (walked structure)).
  split; [apply processStructureElements_expand|].
  split; [reflexivity|]. split.
  - apply Forall_forall. intros slot Hin.
    apply in_flat_map in Hin as (element & He & Hin).
    eapply processElement_nonempty; [|exact Hin].
    pose proof (takeContent_nonempty (firstn 27 (SS.elements structure))) as H.
    rewrite Forall_forall in H. apply H, He.
  - split; [|split; reflexivity].
    unfold expand, padTo30. cbn [WS.elements].
    rewrite length_app, repeat_length. lia.
Qed.

Lemma upperUnit_noLower (c : N) :
  negb ((97 <=? c) && (c <=? 122))%N = true -> upperUnit c = c.
Proof. unfold upperUnit. intros H. apply negb_true_iff in H. now rewrite H. Qed.

Lemma toUpperCase_noLower (e : jstring) : noLower e = true -> toUpperCase e = e.
Proof.
  induction e as [|c e IH]; [reflexivity|].
  cbn [noLower forallb]. intros H. apply andb_true_iff in H as [Hc He].
  cbn [toUpperCase map]. rewrite (upperUnit_noLower c Hc).
  f_equal. apply IH, He.
Qed.

Lemma processElement_noLower (limitedRhyme element : jstring) :
  noLower element = true -> processElement limitedRhyme element = [element].
Proof.
  intros H. unfold processElement.
  destruct (eqb element (utf16 "Dd")) eqn:E.
  { apply eqb_eq in E. subst element. discriminate H. }
  cbn [andb]. rewrite (toUpperCase_noLower element H).
  now destruct ((length element =? 2)
                && eqb (firstn 1 element) (toLowerCase (firstn 1 element))).
Qed.

Lemma flat_map_singleton {A} (f : A -> list A) (l : list A) :
  (forall x, In x l -> f x = [x]) -> flat_map f l = l.
Proof.
  induction l as [|a l IH]; intros H; [reflexivity|].
  cbn [flat_map]. rewrite (H a) by (left; reflexivity).
  cbn. f_equal. apply IH. intros x Hx. apply H. right. exact Hx.
Qed.

(** X12.  A template whose walked slots are plain text (ASCII, white
    space and Chinese characters) without a lower-case letter, such as
    canonical tags and Chinese literals, is not altered by expansion: its
    working structure holds the same slots, padded to 30. *)
Theorem expansion_keeps_canonical (structure : SentenceStructure)
  (needsRhyme : bool) (rs : RhymeOpt) :
  (forall e, In e (walked structure) -> plain e = true /\ noLower e = true) ->
  processStructureElements (Some structure) needsRhyme rs
  = Ok (WS.mk (SS.compoundStructureCount structure) (SS.punctuation structure)
              (padTo30 (walked structure))).
Proof.
  intros H. rewrite processStructureElements_expand. unfold expand.
  rewrite flat_map_singleton; [reflexivity|].
  intros e He. apply processElement_noLower. exact (proj2 (H e He)).
Qed.

Lemma expansion_keeps_canonical_witness :
  (forall e, In e (walked canonicalTemplate) -> plain e = true /\ noLower e = true)
  /\ processStructureElements (Some canonicalTemplate) true None
     = Ok (WS.mk 0 (utf16 "。")
             (padTo30 [utf16 "XA"; utf16 "的"; utf16 "MM"; utf16 "DD"])).
Proof.
  assert (H : forall e, In e (walked canonicalTemplate) ->
                        plain e = true /\ noLower e = true)
    by (intros e [<-|[<-|[<-|[<-|[]]]]]; split; reflexivity).
  split; [exact H|].
  exact (expansion_keeps_canonical canonicalTemplate true None H).
Defined.

(* ================================================================== *)
(** * More on the poetry engine *)
(* ================================================================== *)

Lemma lowerUnit_not_capital (c : N) : ~ (65 <= lowerUnit c <= 90)%N.
Proof.
  unfold lowerUnit. destruct ((65 <=? c) && (c <=? 90))%N eqn:E.
  - apply andb_true_iff in E as [E1 E2]. apply N.leb_le in E1, E2. lia.
  - apply andb_false_iff in E as [E|E]; apply N.leb_gt in E; lia.
Qed.

Lemma toLowerCase_no_capital (s : jstring) (c : N) :
  toLowerCase s = s -> In c s -> ~ (65 <= c <= 90)%N.
Proof.
  intros H Hc. rewrite <- H in Hc. unfold toLowerCase in Hc.
  apply in_map_iff in Hc as (d & <- & _). apply lowerUnit_not_capital.
Qed.

(** X13.  On plain text (ASCII, white space and Chinese characters,
    where the case mapping is that of JavaScript) the value of
    [normalizeRhymeScheme] is plain text in lower case, with no capital
    letter, it is trimmed, and it is never one of the spellings that the
    function replaces (o, uo, ui, in, un, vn, ing, ve, iu, z). *)
Theorem normalizeRhymeScheme_range (x : jstring) :
  plain x = true ->
  plain (normalizeRhymeScheme x) = true
  /\ toLowerCase (normalizeRhymeScheme x) = normalizeRhymeScheme x
  /\ (forall c, In c (normalizeRhymeScheme x) -> ~ (65 <= c <= 90)%N)
  /\ trim (normalizeRhymeScheme x) = normalizeRhymeScheme x
  /\ ~ In (normalizeRhymeScheme x) rhymeAliases.
Proof.
  intros Hx.
  assert (Hlow : toLowerCase (normalizeRhymeScheme x) = normalizeRhymeScheme x).
  { unfold normalizeRhymeScheme. cbv zeta.
    assert (F : toLowerCase (trim (toLowerCase x)) = trim (toLowerCase x))
      by (rewrite <- trim_toLowerCase, toLowerCase_idem; reflexivity).
    set (y := trim (toLowerCase x)) in *.
    repeat match goal with
    | |- context [if ?b then _ else _] => destruct b; [reflexivity|]
    end.
    exact F. }
  split; [exact (plain_normalizeRhymeScheme x Hx)|].
  split; [exact Hlow|].
  split; [intros c Hc; exact (toLowerCase_no_capital _ c Hlow Hc)|].
  split.
  - unfold normalizeRhymeScheme. cbv zeta.
    pose proof (trim_idem (toLowerCase x)) as F. fold (trim (toLowerCase x)) in F.
    set (y := trim (toLowerCase x)) in *.
    repeat match goal with
    | |- context [if ?b then _ else _] => destruct b; [reflexivity|]
    end.
    exact F.
  - intros Hin. pose proof (normalizeRhymeScheme_idem x) as Hid.
    cbn [rhymeAliases map In] in Hin.
    repeat (destruct Hin as [Ha|Hin];
            [rewrite <- Ha in Hid; vm_compute in Hid; discriminate Hid|]).
    exact Hin.
Qed.

(** The scheme [" Ang "] of the interactive prompt. *)
Lemma normalizeRhymeScheme_range_witness :
  plain (utf16 " Ang ") = true
  /\ normalizeRhymeScheme (utf16 " Ang ") = utf16 "ang"
  /\ ~ In (normalizeRhymeScheme (utf16 " Ang ")) rhymeAliases.
Proof.
  assert (H : plain (utf16 " Ang ") = true) by reflexivity.
  split; [exact H|]. split; [reflexivity|].
  exact (proj2 (proj2 (proj2 (proj2
           (normalizeRhymeScheme_range (utf16 " Ang ") H))))).
Defined.

(** X14.  [normalizePartOfSpeech] warns of an unknown tag exactly on the
    strings that [isPartOfSpeech] refuses, so the walk of a line, which
    normalizes only what [isPartOfSpeech] accepts, never reaches the
    warning; each of the eleven tags is accepted and normalized to itself,
    and every string that is not a member name of [Object.prototype] is
    normalized to one of the eleven tags. *)
Theorem part_of_speech_normalization (element : jstring) :
  warnsUnknown element = negb (isPartOfSpeech element)
  /\ (In element partOfSpeechTags ->
      isPartOfSpeech element = true /\ normalizePartOfSpeech element = Some element)
  /\ (~ In element objectPrototypeKeys ->
      exists tag, normalizePartOfSpeech element = Some tag /\
                  In tag partOfSpeechTags).
Proof.
  split; [|split].
  - unfold warnsUnknown, isPartOfSpeech.
    destruct (oneOf element partOfSpeechTags),
             (oneOf (toUpperCase element) partOfSpeechTags),
             (inLegacyMappings element); reflexivity.
  - intros H. cbn [partOfSpeechTags map In] in H.
    repeat (destruct H as [<-|H]; [split; reflexivity|]). contradiction.
  - apply normalizePartOfSpeech_tag.
Qed.

(** X15.  Every line of a generated poem is trimmed: it neither begins nor
    ends with white space. *)
Theorem poem_lines_trimmed (D : DataService) (options : PoetryGenerationOptions)
  (r : Rng) :
  match generatePoetry D options r with
  | (Ok poem, _) =>
      Forall (fun line => trim line = line /\ cleanStart line) (lines poem)
  | (Throw _, _) => True
  end.
Proof.
  destruct (generatePoetry D options r) as [[poem|e] r'] eqn:Hrun; [|exact I].
  unfold generatePoetry in Hrun.
  apply bind_Ok in Hrun as (structures & r1 & _ & Hrun).
  apply bind_Ok in Hrun as (ls & r2 & Hlines & Hret).
  unfold ret in Hret. injection Hret as <- _. cbn [lines].
  apply mapM_Ok in Hlines. clear - Hlines.
  induction Hlines as [|structure line structures ls (ra & rb & H) _ IH];
    constructor; [|exact IH].
  destruct (generateLine_trim _ _ _ _ _ _ H) as (body & _ & ->).
  split; [apply trim_idem|].
  unfold trim. apply trimEnd_cleanStart, trimStart_cleanStart.
Qed.

(** X16.  With an empty template table and at least one stanza of at
    least one line, generation fails with a [TypeError], in both styles
    and before any word is selected. *)
Theorem empty_table_fails (D : DataService) (options : PoetryGenerationOptions)
  (r : Rng) :
  getSentenceStructures D = [] ->
  1 <= paragraphCount options ->
  1 <= linesPerParagraph options ->
  fst (generatePoetry D options r) = Throw TypeError.
Proof.
  intros Hnil Hp Hl.
  destruct (createStructure_empty D (paragraphCount options)
              (linesPerParagraph options) (style options) (rhymeScheme options)
              r Hnil Hp Hl) as (r' & E).
  unfold generatePoetry. rewrite (bind_throw _ _ _ _ _ E). reflexivity.
Qed.

Lemma empty_table_fails_witness :
  getSentenceStructures emptyTableData = []
  /\ 1 <= paragraphCount sampleOptions
  /\ 1 <= linesPerParagraph sampleOptions
  /\ fst (generatePoetry emptyTableData sampleOptions sampleRng) = Throw TypeError.
Proof.
  assert (H1 : getSentenceStructures emptyTableData = []) by reflexivity.
  assert (H2 : 1 <= paragraphCount sampleOptions) by (simpl; lia).
  assert (H3 : 1 <= linesPerParagraph sampleOptions) by (simpl; lia).
  split; [exact H1|]. split; [exact H2|]. split; [exact H3|].
  exact (empty_table_fails emptyTableData sampleOptions sampleRng H1 H2 H3).
Defined.

Lemma concat_repeat_nil {A} (n : nat) : concat (repeat (@nil A) n) = [].
Proof. induction n as [|n IH]; [reflexivity | exact IH]. Qed.

Lemma createStructure_no_lines (D : DataService) (paragraphCount : nat)
  (style : PoeticStyle) (rs : RhymeOpt) (r : Rng) :
  createStructure D paragraphCount 0 style rs r = (Ok [], r).
Proof.
  unfold createStructure. cbv zeta. change (seq 1 0) with (@nil nat).
  cbn [mapM].
  erewrite bind_run by reflexivity. cbv beta.
  erewrite bind_run; [|apply mapM_const; intros; reflexivity].
  unfold ret. now rewrite concat_repeat_nil.
Qed.

(** X17.  A request for stanzas of no line returns a poem without lines
    and draws nothing, whatever the tables; a request for no stanza on a
    non-empty table also returns a poem without lines, after the templates
    of one stanza have been drawn. *)
Theorem zero_counts (D : DataService) (options : PoetryGenerationOptions)
  (r : Rng) :
  (linesPerParagraph options = 0 ->
   generatePoetry D options r = (Ok (mkPoem [] options), r))
  /\ (paragraphCount options = 0 ->
      getSentenceStructures D <> [] ->
      exists r', generatePoetry D options r = (Ok (mkPoem [] options), r')).
Proof.
  split.
  - intros Hl. unfold generatePoetry. rewrite Hl.
    rewrite (bind_run _ _ _ _ _ (createStructure_no_lines D _ _ _ r)).
    reflexivity.
  - intros Hp Hne.
    destruct (createStructure_total D (paragraphCount options)
                (linesPerParagraph options) (style options)
                (rhymeScheme options) r Hne) as (bases & r' & _ & _ & _ & E).
    exists r'. unfold generatePoetry. rewrite (bind_run _ _ _ _ _ E), Hp.
    reflexivity.
Qed.

(** X18.  A line is rendered from the first 27 slots of its structure
    alone: two structures that share them, and the punctuation, give the
    same line, so the slots that expansion pushes beyond the 27th
    are never rendered. *)
Theorem line_reads_27_slots (D : DataService) (s1 s2 : WorkingStructure)
  (options : PoetryGenerationOptions) (r : Rng) :
  firstn 27 (WS.elements s1) = firstn 27 (WS.elements s2) ->
  WS.punctuation s1 = WS.punctuation s2 ->
  generateLine D s1 options r = generateLine D s2 options r.
Proof.
  intros He Hp.
  assert (Hnth : forall i, i < 27 ->
            nth i (WS.elements s1) [] = nth i (WS.elements s2) []).
  { intros i Hi.
    pose proof (nth_firstn 27 (WS.elements s1) i []) as H1.
    pose proof (nth_firstn 27 (WS.elements s2) i []) as H2.
    apply Nat.ltb_lt in Hi. rewrite Hi in H1, H2.
    rewrite <- H1, <- H2, He. reflexivity. }
  assert (Hloop : forall fuel i line r0,
            generateLineLoop D s1 options fuel i line r0
            = generateLineLoop D s2 options fuel i line r0).
  { induction fuel as [|fuel IH]; intros i line r0; [reflexivity|].
    cbn [generateLineLoop].
    destruct (Nat.ltb_spec i 27) as [Hi|Hi]; [|reflexivity].
    cbv zeta. rewrite (Hnth i Hi).
    destruct (eqb (nth i (WS.elements s2) []) []); [reflexivity|].
    destruct (isPartOfSpeech (nth i (WS.elements s2) [])); [|apply IH].
    unfold bind.
    destruct (selectWordForElement D _ options r0) as [[word|e] r1];
      [apply IH | reflexivity]. }
  unfold generateLine, bind. rewrite Hloop, Hp. reflexivity.
Qed.

(** The 31 slots of an overfull structure and its first 27. *)
Lemma line_reads_27_slots_witness :
  firstn 27 (WS.elements overfullWorking)
  = firstn 27 (WS.elements (WS.mk 0 (utf16 "。")
                              (firstn 27 (WS.elements overfullWorking))))
  /\ generateLine sampleData overfullWorking sampleOptions sampleRng
     = generateLine sampleData
         (WS.mk 0 (utf16 "。") (firstn 27 (WS.elements overfullWorking)))
         sampleOptions sampleRng.
Proof.
  assert (H1 : firstn 27 (WS.elements overfullWorking)
               = firstn 27 (WS.elements (WS.mk 0 (utf16 "。")
                                           (firstn 27 (WS.elements overfullWorking)))))
    by reflexivity.
  split; [exact H1|].
  exact (line_reads_27_slots sampleData overfullWorking
           (WS.mk 0 (utf16 "。") (firstn 27 (WS.elements overfullWorking)))
           sampleOptions sampleRng H1 eq_refl).
Defined.

Lemma selectWord_flag (D : DataService) (tag : jstring) (b1 b2 : bool)
  (rs : RhymeOpt) (r : Rng) :
  wantsRhyme b1 rs = false -> wantsRhyme b2 rs = false ->
  selectWord D (Ctx.mk tag b1 rs) r = selectWord D (Ctx.mk tag b2 rs) r.
Proof.
  intros H1 H2.
  unfold selectWord, selectBasicWord, selectIntransitiveVerb, selectLocationNoun,
    selectPersonNoun, selectProgressiveVerb.
  cbn [Ctx.partOfSpeech Ctx.needsRhyme Ctx.rhymeScheme].
  rewrite H1, H2. reflexivity.
Qed.

Lemma wantsRhyme_no_scheme (rs : RhymeOpt) (b : bool) :
  wantsRhyme true rs = false -> wantsRhyme b rs = false.
Proof. destruct b; [trivial | reflexivity]. Qed.

Lemma generateLineLoop_flag (D : DataService) (structure : WorkingStructure)
  (options : PoetryGenerationOptions) (b : bool) :
  wantsRhyme true (rhymeScheme options) = false ->
  forall fuel i line r,
    generateLineLoop D structure options fuel i line r
    = generateLineLoop D structure (withUseRhyme b options) fuel i line r.
Proof.
  intros Hw. induction fuel as [|fuel IH]; intros i line r; [reflexivity|].
  cbn [generateLineLoop].
  destruct (i <? 27); [|reflexivity]. cbv zeta.
  destruct (eqb (nth i (WS.elements structure) []) []); [reflexivity|].
  destruct (isPartOfSpeech (nth i (WS.elements structure) [])); [|apply IH].
  assert (E : selectWordForElement D
                (normalizePartOfSpeech (nth i (WS.elements structure) []))
                options r
              = selectWordForElement D
                  (normalizePartOfSpeech (nth i (WS.elements structure) []))
                  (withUseRhyme b options) r).
  { unfold selectWordForElement.
    destruct (normalizePartOfSpeech _); [|reflexivity].
    cbn [withUseRhyme useRhyme rhymeScheme].
    apply selectWord_flag; apply wantsRhyme_no_scheme, Hw. }
  unfold bind. rewrite E.
  destruct (selectWordForElement D _ (withUseRhyme b options) r) as [[w|e] r1];
    [apply IH | reflexivity].
Qed.

Lemma mapM_ext {A B} (f g : A -> M B) (l : list A) (r : Rng) :
  (forall a r0, f a r0 = g a r0) -> mapM f l r = mapM g l r.
Proof.
  intros H. revert r. induction l as [|a l IH]; intros r; [reflexivity|].
  cbn [mapM]. unfold bind at 1 3. rewrite H.
  destruct (g a r) as [[b|e] r1]; [|reflexivity].
  unfold bind. rewrite IH. reflexivity.
Qed.

(** X19.  Without a rhyme scheme (absent or empty) the flag [useRhyme] has
    no effect: generation draws the same templates and the same words and
    returns the same lines, or fails the same way, whatever the flag. *)
Theorem rhyme_flag_without_scheme (D : DataService)
  (options : PoetryGenerationOptions) (b : bool) (r : Rng) :
  wantsRhyme true (rhymeScheme options) = false ->
  generatePoetry D (withUseRhyme b options) r
  = match generatePoetry D options r with
    | (Ok poem, r') => (Ok (mkPoem (lines poem) (withUseRhyme b options)), r')
    | (Throw e, r') => (Throw e, r')
    end.
Proof.
  intros Hw. unfold generatePoetry.
  cbn [withUseRhyme paragraphCount linesPerParagraph style rhymeScheme].
  fold (withUseRhyme b options).
  unfold bind at 1 3.
  destruct (createStructure D (paragraphCount options) (linesPerParagraph options)
              (style options) (rhymeScheme options) r) as [[structures|e] r1];
    [|reflexivity].
  cbv beta. unfold bind.
  rewrite (mapM_ext (fun structure => generateLine D structure (withUseRhyme b options))
             (fun structure => generateLine D structure options) structures r1).
  - unfold ret.
    destruct (mapM (fun structure => generateLine D structure options) structures r1)
      as [[ls|e] r2]; reflexivity.
  - intros structure r0. unfold generateLine, bind.
    rewrite <- (generateLineLoop_flag D structure options b Hw). reflexivity.
Qed.

(** The sample options have no scheme. *)
Lemma rhyme_flag_without_scheme_witness :
  wantsRhyme true (rhymeScheme sampleOptions) = false
  /\ generatePoetry sampleData (withUseRhyme true sampleOptions) sampleRng
     = (Ok (mkPoem (lines samplePoem) (withUseRhyme true sampleOptions)),
        snd sampleRun).
Proof.
  assert (H : wantsRhyme true (rhymeScheme sampleOptions) = false) by reflexivity.
  split; [exact H|].
  exact (eq_trans
           (rhyme_flag_without_scheme sampleData sampleOptions true sampleRng H)
           (eq_refl : match generatePoetry sampleData sampleOptions sampleRng with
                      | (Ok poem, r') =>
                          (Ok (mkPoem (lines poem) (withUseRhyme true sampleOptions)), r')
                      | (Throw e, r') => (Throw e, r')
                      end
                      = (Ok (mkPoem (lines samplePoem)
                               (withUseRhyme true sampleOptions)), snd sampleRun))).
Defined.

Lemma nth_after {A} (front rest : list A) (e d : A) :
  nth (length front) (front ++ e :: rest) d = e.
Proof. induction front as [|a front IH]; [reflexivity | exact IH]. Qed.

Lemma nth_after_nil {A} (front : list A) (d : A) (k : nat) :
  nth (length front) (front ++ repeat d k) d = d.
Proof.
  induction front as [|a front IH]; [|exact IH].
  destruct k; reflexivity.
Qed.

(** The walk over a run of literal slots appends them. *)
Lemma walk_literals (D : DataService) (ws : WorkingStructure)
  (options : PoetryGenerationOptions) (lits : list jstring) :
  forall (front rest : list jstring) (fuel : nat) (line : jstring) (r : Rng),
    WS.elements ws = front ++ lits ++ rest ->
    forallb literalSlot lits = true ->
    length front + length lits <= 27 ->
    generateLineLoop D ws options (length lits + fuel) (length front) line r
    = generateLineLoop D ws options fuel (length front + length lits)
        (line ++ literalText lits) r.
Proof.
  induction lits as [|e lits IH]; intros front rest fuel line r He Hl Hn.
  - cbn. now rewrite Nat.add_0_r, app_nil_r.
  - cbn [forallb] in Hl. apply andb_true_iff in Hl as [Hlit Hl].
    unfold literalSlot in Hlit.
    apply andb_true_iff in Hlit as [Hlit Hpos].
    apply andb_true_iff in Hlit as [Hne _].
    apply negb_true_iff in Hne, Hpos.
    cbn [length] in Hn.
    cbn [length Nat.add generateLineLoop].
    destruct (Nat.ltb_spec (length front) 27) as [_|F]; [|lia].
    cbv zeta.
    replace (nth (length front) (WS.elements ws) []) with e
      by (rewrite He; cbn [app]; now rewrite nth_after).
    rewrite Hne, Hpos.
    assert (He' : WS.elements ws = (front ++ [e]) ++ lits ++ rest)
      by (rewrite He, <- app_assoc; reflexivity).
    pose proof (IH (front ++ [e]) rest fuel (line ++ e) r He' Hl) as H.
    rewrite length_app in H. cbn [length] in H.
    rewrite H by lia.
    unfold literalText. cbn [concat]. rewrite <- app_assoc.
    replace (length front + 1 + length lits) with (length front + S (length lits))
      by lia.
    reflexivity.
Qed.

(** At a progressive-verb slot the walk selects the verb and resumes three
    slots further. *)
Lemma walk_compound (D : DataService) (ws : WorkingStructure)
  (options : PoetryGenerationOptions) (front rest : list jstring)
  (fuel : nat) (line : jstring) (r : Rng) :
  WS.elements ws = front ++ utf16 "DV" :: rest ->
  length front < 27 ->
  generateLineLoop D ws options (S fuel) (length front) line r
  = (word <- selectWord D (Ctx.mk (utf16 "DV") (useRhyme options)
                             (rhymeScheme options)) ;;
     generateLineLoop D ws options fuel (length front + 3) (line ++ word)) r.
Proof.
  intros He Hn. cbn [generateLineLoop].
  destruct (Nat.ltb_spec (length front) 27) as [_|F]; [|lia].
  cbv zeta. rewrite He, nth_after.
  change (eqb (utf16 "DV") []) with false.
  change (isPartOfSpeech (utf16 "DV")) with true.
  change (normalizePartOfSpeech (utf16 "DV")) with (Some (utf16 "DV")).
  change (isCompoundVerb (Some (utf16 "DV"))) with true.
  cbn [selectWordForElement].
  replace (length front + 2 + 1) with (length front + 3) by lia.
  reflexivity.
Qed.

Lemma walk_end (D : DataService) (ws : WorkingStructure)
  (options : PoetryGenerationOptions) (fuel i : nat) (line : jstring) (r : Rng) :
  nth i (WS.elements ws) [] = [] ->
  generateLineLoop D ws options (S fuel) i line r = (Ok line, r).
Proof.
  intros H. cbn [generateLineLoop]. destruct (i <? 27); [|reflexivity].
  cbv zeta. rewrite H. reflexivity.
Qed.

Lemma forallb_literal_noLower (lits : list jstring) (e : jstring) :
  forallb literalSlot lits = true -> In e lits -> noLower e = true.
Proof.
  intros H Hin. rewrite forallb_forall in H. specialize (H e Hin).
  unfold literalSlot in H. apply andb_true_iff in H as [H _].
  apply andb_true_iff in H as [_ H]. exact H.
Qed.

(** X20.  In an expandable template (['E']) made of literal slots in
    plain text (ASCII, white space and Chinese characters) around one
    ['Dd'] slot, the line is the literals with one progressive verb in
    the place of ['Dd'], followed by the punctuation: the walk skips the
    slots 着 and DO that expansion pushes after DV, and the resultative
    rule is not called. *)
Theorem compound_slot_rendering (D : DataService) (t : SentenceStructure)
  (options : PoetryGenerationOptions) (pre post : list jstring) (r : Rng) :
  SS.limitedRhyme t = utf16 "E" ->
  walked t = pre ++ [utf16 "Dd"] ++ post ->
  forallb plain (pre ++ post) = true ->
  forallb literalSlot pre = true ->
  forallb literalSlot post = true ->
  length pre + 3 + length post <= 27 ->
  generateLine D (expand t) options r
  = (word <- selectWord D (Ctx.mk (utf16 "DV") (useRhyme options)
                             (rhymeScheme options)) ;;
     ret (trim (literalText pre ++ word ++ literalText post
                ++ SS.punctuation t))) r.
Proof.
  intros Hlr Hw _ Hpre Hpost Hn.
  assert (He : WS.elements (expand t)
               = [] ++ pre ++ (utf16 "DV" :: utf16 "着" :: utf16 "DO" :: post
                               ++ repeat [] (30 - (length pre + 3 + length post)))).
  { unfold expand, padTo30. cbn [WS.elements]. rewrite Hw, Hlr.
    rewrite !flat_map_app.
    rewrite (flat_map_singleton _ pre)
      by (intros e Hin; apply processElement_noLower;
          exact (forallb_literal_noLower pre e Hpre Hin)).
    rewrite (flat_map_singleton _ post)
      by (intros e Hin; apply processElement_noLower;
          exact (forallb_literal_noLower post e Hpost Hin)).
    cbn [flat_map app].
    change (processElement (utf16 "E") (utf16 "Dd"))
      with [utf16 "DV"; utf16 "着"; utf16 "DO"].
    cbn [app]. rewrite !length_app. cbn [length].
    rewrite <- !app_assoc. cbn [app].
    replace (length pre + S (S (S (length post))))
      with (length pre + 3 + length post) by lia.
    reflexivity. }
  set (pad := repeat [] (30 - (length pre + 3 + length post))) in *.
  unfold generateLine.
  replace 27 with (length pre + S (length post + S (25 - length pre - length post)))
    by lia.
  unfold bind at 1.
  rewrite (walk_literals D (expand t) options pre [] _ _ [] r He Hpre)
    by (cbn; lia).
  cbn [length Nat.add app].
  assert (He2 : WS.elements (expand t)
                = pre ++ utf16 "DV" :: (utf16 "着" :: utf16 "DO" :: post ++ pad))
    by exact He.
  rewrite (walk_compound D (expand t) options pre _ _ _ r He2) by lia.
  unfold bind.
  destruct (selectWord D (Ctx.mk (utf16 "DV") (useRhyme options)
                            (rhymeScheme options)) r) as [[word|e] r1];
    [|reflexivity].
  assert (He3 : WS.elements (expand t)
                = (pre ++ [utf16 "DV"; utf16 "着"; utf16 "DO"]) ++ post ++ pad)
    by (rewrite He2, <- app_assoc; reflexivity).
  pose proof (walk_literals D (expand t) options post
                (pre ++ [utf16 "DV"; utf16 "着"; utf16 "DO"]) pad
                (S (25 - length pre - length post))
                (literalText pre ++ word) r1 He3 Hpost) as Hwalk.
  rewrite length_app in Hwalk. cbn [length] in Hwalk.
  rewrite Hwalk by lia.
  rewrite walk_end.
  - unfold ret. cbn [WS.punctuation expand]. rewrite <- !app_assoc. reflexivity.
  - rewrite He3, app_assoc.
    replace (length pre + 3 + length post)
      with (length ((pre ++ [utf16 "DV"; utf16 "着"; utf16 "DO"]) ++ post))
      by (rewrite !length_app; cbn [length]; lia).
    apply nth_after_nil.
Qed.

(** 啊， + verb + 吧 + ！ on the sample tables. *)
Lemma compound_slot_rendering_witness :
  SS.limitedRhyme exclaimTemplate = utf16 "E"
  /\ walked exclaimTemplate = [utf16 "啊，"] ++ [utf16 "Dd"] ++ [utf16 "吧"]
  /\ fst (generateLine sampleData (expand exclaimTemplate) sampleOptions sampleRng)
     = Ok (utf16 "啊，骑着马吧！").
Proof.
  assert (H1 : SS.limitedRhyme exclaimTemplate = utf16 "E") by reflexivity.
  assert (H2 : walked exclaimTemplate
               = [utf16 "啊，"] ++ [utf16 "Dd"] ++ [utf16 "吧"]) by reflexivity.
  assert (H0 : forallb plain ([utf16 "啊，"] ++ [utf16 "吧"]) = true) by reflexivity.
  assert (H3 : forallb literalSlot [utf16 "啊，"] = true) by reflexivity.
  assert (H4 : forallb literalSlot [utf16 "吧"] = true) by reflexivity.
  assert (H5 : length [utf16 "啊，"] + 3 + length [utf16 "吧"] <= 27)
    by (simpl; lia).
  split; [exact H1|]. split; [exact H2|].
  exact (eq_trans
           (f_equal fst
              (compound_slot_rendering sampleData exclaimTemplate sampleOptions
                 [utf16 "啊，"] [utf16 "吧"] sampleRng H1 H2 H0 H3 H4 H5))
           eq_refl).
Defined.

(* ================================================================== *)
(** * Draws made by a generation *)
(* ================================================================== *)

Lemma spends_ret {A} (a : A) : spends (ret a) 0.
Proof. intros r. cbn. split; [reflexivity | lia]. Qed.

Lemma spends_throw {A} (e : Error) : spends (@throw A e) 0.
Proof. intros r. cbn. split; [reflexivity | lia]. Qed.

Lemma spends_lift {A} (x : Result A) : spends (lift x) 0.
Proof. intros r. cbn. split; [reflexivity | lia]. Qed.

Lemma spends_weaken {A} (m : M A) (j k : nat) : j <= k -> spends m j -> spends m k.
Proof. intros Hjk H r. destruct (H r) as [Hs Hd]. split; [exact Hs | lia]. Qed.

(** Sequencing adds the draws; the second computation may rely on what
    the first one returns. *)
Lemma spends_bind {A B} (m : M A) (k : A -> M B) (P : A -> Prop) (i j : nat) :
  spends m i ->
  (forall r a r', m r = (Ok a, r') -> P a) ->
  (forall a, P a -> spends (k a) j) ->
  spends (bind m k) (i + j).
Proof.
  intros Hm HP Hk r. unfold bind.
  pose proof (Hm r) as [Hs Hd]. pose proof (HP r) as HPr.
  destruct (m r) as [[a|e] r1]; cbn [snd] in *.
  - destruct (Hk a (HPr a r1 eq_refl) r1) as [Hs' Hd'].
    split; [congruence | lia].
  - split; [exact Hs | lia].
Qed.

Lemma spends_bind_any {A B} (m : M A) (k : A -> M B) (i j : nat) :
  spends m i -> (forall a, spends (k a) j) -> spends (bind m k) (i + j).
Proof.
  intros Hm Hk.
  apply (spends_bind m k (fun _ => True)); [exact Hm | trivial | intros a _; apply Hk].
Qed.

Lemma spends_randomIndex (n : nat) : spends (randomIndex n) 1.
Proof. intros r. cbn. split; [reflexivity | lia]. Qed.

Lemma spends_getRandomWord (words : list WordRecord) : spends (getRandomWord words) 1.
Proof.
  intros r. pose proof (getRandomWord_outcome words r) as H.
  destruct (getRandomWord words r) as [[w|e] r']; cbn [snd].
  - destruct H as [_ ->]. cbn. split; [reflexivity | lia].
  - destruct H as (_ & _ & ->). split; [reflexivity | lia].
Qed.

Lemma spends_pick (words : list WordRecord) :
  spends (w <- getRandomWord words ;; ret (word w)) 1.
Proof.
  apply (spends_bind_any _ _ 1 0); [apply spends_getRandomWord|].
  intros w. apply spends_ret.
Qed.

Lemma spends_if {A} (c : bool) (m1 m2 : M A) (k : nat) :
  spends m1 k -> spends m2 k -> spends (if c then m1 else m2) k.
Proof. destruct c; trivial. Qed.

Lemma spends_zero {A} (m : M A) (k : nat) : spends m 0 -> spends m k.
Proof. apply spends_weaken. lia. Qed.

Lemma spends_selectBasicWord (words : list WordRecord) (needsRhyme : bool)
  (rs : RhymeOpt) : spends (selectBasicWord words needsRhyme rs) 1.
Proof. unfold selectBasicWord. cbv zeta. apply spends_if; apply spends_pick. Qed.

Lemma spends_selectIntransitiveVerb (words : list WordRecord) (needsRhyme : bool)
  (rs : RhymeOpt) : spends (selectIntransitiveVerb words needsRhyme rs) 1.
Proof.
  unfold selectIntransitiveVerb. apply (spends_bind_any _ _ 1 0).
  - apply spends_if; [unfold getRandomRhymingWord; cbv zeta|];
      apply spends_getRandomWord.
  - intros w. cbv zeta. apply spends_if; apply spends_ret.
Qed.

Lemma spends_selectLocationNoun (words : list WordRecord) (needsRhyme : bool)
  (rs : RhymeOpt) : spends (selectLocationNoun words needsRhyme rs) 1.
Proof.
  unfold selectLocationNoun. cbv zeta. apply spends_if; [apply spends_pick|].
  apply spends_if; [apply spends_zero, spends_throw | apply spends_pick].
Qed.

Lemma spends_selectPersonNoun (words : list WordRecord) (needsRhyme : bool)
  (rs : RhymeOpt) : spends (selectPersonNoun words needsRhyme rs) 1.
Proof.
  unfold selectPersonNoun. cbv zeta. apply spends_if; [apply spends_pick|].
  apply spends_if; [apply spends_zero, spends_throw | apply spends_pick].
Qed.

Lemma spends_selectSimpleVerb (words : list WordRecord) :
  spends (selectSimpleVerb words) 1.
Proof.
  unfold selectSimpleVerb. cbv zeta.
  apply spends_if; [apply spends_zero, spends_throw | apply spends_pick].
Qed.

Lemma spends_selectProgressiveVerb (words : list WordRecord) (needsRhyme : bool)
  (rs : RhymeOpt) : spends (selectProgressiveVerb words needsRhyme rs) 1.
Proof.
  unfold selectProgressiveVerb. cbv zeta.
  apply spends_if; [apply spends_zero, spends_throw|].
  apply (spends_bind_any _ _ 1 0); [apply spends_getRandomWord|].
  intros w. apply spends_if; apply spends_ret.
Qed.

Lemma spends_selectResultativeVerb (words : list WordRecord) :
  spends (selectResultativeVerb words) 1.
Proof.
  unfold selectResultativeVerb. cbv zeta.
  apply spends_if; [apply spends_zero, spends_throw|].
  apply (spends_bind_any _ _ 1 0); [apply spends_getRandomWord|].
  intros w. apply spends_if; apply spends_ret.
Qed.

Lemma spends_selectSpecialWord (D : DataService) : spends (selectSpecialWord D) 1.
Proof.
  unfold selectSpecialWord. cbv zeta.
  apply spends_if; [apply spends_zero, spends_ret|].
  apply (spends_bind_any _ _ 1 0); [apply spends_randomIndex|].
  intros i. destruct (nth_error (getSpecialWords D) i);
    [apply spends_ret | apply spends_throw].
Qed.

Lemma spends_selectWord (D : DataService) (context : WordSelectionContext) :
  spends (selectWord D context) 1.
Proof.
  unfold selectWord. cbv zeta.
  apply (spends_bind_any _ _ 0 1); [apply spends_lift|]. intros words.
  apply spends_if; [apply spends_selectBasicWord|].
  apply spends_if; [apply spends_selectIntransitiveVerb|].
  apply spends_if; [apply spends_selectLocationNoun|].
  apply spends_if; [apply spends_selectPersonNoun|].
  apply spends_if; [apply spends_selectSimpleVerb|].
  apply spends_if; [apply spends_selectProgressiveVerb|].
  apply spends_if; [apply spends_selectResultativeVerb|].
  apply spends_if; [apply spends_selectSpecialWord|].
  apply spends_zero, spends_throw.
Qed.

Lemma spends_generateLineLoop (D : DataService) (structure : WorkingStructure)
  (options : PoetryGenerationOptions) :
  forall fuel i line, spends (generateLineLoop D structure options fuel i line) fuel.
Proof.
  induction fuel as [|fuel IH]; intros i line; [apply spends_ret|].
  cbn [generateLineLoop].
  apply spends_if; [|apply (spends_weaken _ 0); [lia | apply spends_ret]].
  cbv zeta.
  apply spends_if; [apply (spends_weaken _ 0); [lia | apply spends_ret]|].
  apply spends_if.
  - apply (spends_bind_any _ _ 1 fuel).
    + unfold selectWordForElement. destruct (normalizePartOfSpeech _).
      * apply spends_selectWord.
      * apply (spends_weaken _ 0 1); [lia | apply spends_throw].
    + intros word. apply IH.
  - apply (spends_weaken _ fuel); [lia | apply IH].
Qed.

Lemma spends_generateLine (D : DataService) (structure : WorkingStructure)
  (options : PoetryGenerationOptions) :
  spends (generateLine D structure options) 27.
Proof.
  unfold generateLine. apply (spends_bind_any _ _ 27 0).
  - apply spends_generateLineLoop.
  - intros line. apply spends_ret.
Qed.

Lemma spends_mapM {A B} (f : A -> M B) (k : nat) (l : list A) :
  (forall a, spends (f a) k) -> spends (mapM f l) (k * length l).
Proof.
  intros Hf. induction l as [|a l IH].
  - apply (spends_weaken _ 0); [lia | apply spends_ret].
  - cbn [mapM length]. apply (spends_weaken _ (k + (k * length l + 0))); [lia|].
    apply spends_bind_any; [apply Hf|]. intros b.
    apply spends_bind_any; [exact IH|]. intros bs. apply spends_ret.
Qed.

Lemma spends_selectQuietLoop (structures : list SentenceStructure)
  (needsRhyme : bool) (rs : RhymeOpt) (budget : nat) :
  spends (selectQuietLoop structures needsRhyme rs budget) budget.
Proof.
  induction budget as [|budget IH]; [apply spends_ret|].
  cbn [selectQuietLoop].
  apply (spends_bind_any _ _ 1 budget); [apply spends_randomIndex|].
  intros i. destruct (nth_error structures i) as [s|];
    [|apply spends_zero, spends_throw].
  apply spends_if; [exact IH|].
  apply spends_if; [exact IH|].
  apply spends_zero, spends_ret.
Qed.

Lemma spends_selectBoldLoop (structures : list SentenceStructure)
  (needsRhyme : bool) (rs : RhymeOpt) (budget : nat) :
  spends (selectBoldLoop structures needsRhyme rs budget) budget.
Proof.
  induction budget as [|budget IH]; [apply spends_ret|].
  cbn [selectBoldLoop].
  apply (spends_bind_any _ _ 1 budget); [apply spends_randomIndex|].
  intros i. destruct (nth_error structures i) as [s|].
  - apply spends_if; [exact IH|]. apply spends_zero, spends_ret.
  - apply spends_zero. apply spends_if; [apply spends_throw | apply spends_ret].
Qed.

Lemma mapM_length {A B} (f : A -> M B) (l : list A) (r r' : Rng) (bs : list B) :
  mapM f l r = (Ok bs, r') -> length bs = length l.
Proof.
  intros H. apply mapM_Ok in H. symmetry. exact (Forall2_length_eq _ _ _ H).
Qed.

Lemma concat_length_uniform {A} (n : nat) (ls : list (list A)) :
  Forall (fun l => length l = n) ls -> length (concat ls) = length ls * n.
Proof.
  induction 1 as [|l ls Hl _ IH]; [reflexivity|].
  cbn [concat length]. rewrite length_app, IH, Hl. lia.
Qed.

(** The structures that [createStructure] returns are as many as the
    lines asked for. *)
Lemma createStructure_length (D : DataService) (paragraphCount linesPerParagraph : nat)
  (style : PoeticStyle) (rs : RhymeOpt) (r r' : Rng)
  (structures : list WorkingStructure) :
  createStructure D paragraphCount linesPerParagraph style rs r = (Ok structures, r') ->
  length structures = paragraphCount * linesPerParagraph.
Proof.
  unfold createStructure. cbv zeta. intros H.
  apply bind_Ok in H as (temp & r1 & _ & H).
  apply bind_Ok in H as (wss & r2 & Hwss & H).
  unfold ret in H. injection H as <- _.
  pose proof (mapM_length _ _ _ _ _ Hwss) as Hlen. rewrite length_seq in Hlen.
  apply mapM_Ok in Hwss.
  rewrite (concat_length_uniform linesPerParagraph), Hlen; [reflexivity|].
  clear - Hwss. induction Hwss as [|p ws ps wss (ra & rb & Hp) _ IH];
    constructor; [|exact IH].
  apply mapM_length in Hp. now rewrite length_seq in Hp.
Qed.

Lemma spends_createStructure (D : DataService) (paragraphCount linesPerParagraph : nat)
  (style : PoeticStyle) (rs : RhymeOpt) :
  spends (createStructure D paragraphCount linesPerParagraph style rs)
         (100 * linesPerParagraph).
Proof.
  unfold createStructure. cbv zeta.
  apply (spends_weaken _ (100 * length (seq 1 linesPerParagraph) + (0 + 0)));
    [rewrite length_seq; lia|].
  apply spends_bind_any.
  - apply spends_mapM. intros lineIndex. destruct style.
    + apply (spends_selectQuietLoop _ _ _ 100).
    + apply (spends_selectBoldLoop _ _ _ 100).
  - intros temp. apply spends_bind_any; [|intros wss; apply spends_ret].
    apply (spends_weaken _ (0 * length (seq 1 paragraphCount))); [lia|].
    apply spends_mapM. intros paragraphIndex.
    apply (spends_weaken _ (0 * length (seq 1 linesPerParagraph))); [lia|].
    apply spends_mapM. intros lineIndex. apply spends_lift.
Qed.

(** X21.  A generation draws from the random source a bounded number of
    times, whether it returns or fails: at most 100 draws for the template
    of each line position and at most 27 for the words of each line, that
    is [100 * linesPerParagraph + 27 * paragraphCount * linesPerParagraph]
    draws in all. *)
Theorem generation_draw_bound (D : DataService) (options : PoetryGenerationOptions)
  (r : Rng) :
  let r' := snd (generatePoetry D options r) in
  source r' = source r
  /\ drawn r <= drawn r'
  /\ drawn r' <= drawn r + 100 * linesPerParagraph options
                 + 27 * (paragraphCount options * linesPerParagraph options).
Proof.
  cbv zeta.
  assert (H : spends (generatePoetry D options)
                (100 * linesPerParagraph options
                 + (27 * (paragraphCount options * linesPerParagraph options) + 0))).
  { unfold generatePoetry.
    apply (spends_bind _ _
             (fun structures => length structures
                = paragraphCount options * linesPerParagraph options)).
    - apply spends_createStructure.
    - intros r0 structures r1 E. eapply createStructure_length. exact E.
    - intros structures Hlen. apply spends_bind_any; [|intros ls; apply spends_ret].
      rewrite <- Hlen. apply spends_mapM. intros structure.
      apply spends_generateLine. }
  destruct (H r) as [Hs Hd]. split; [exact Hs|]. lia.
Qed.

(* ================================================================== *)
(** * The text of a saved poem *)
(* ================================================================== *)

Lemma unitsUint_uintUnits (d : Decimal.uint) : unitsUint (uintUnits d) = Some d.
Proof. induction d as [|d IH|d IH|d IH|d IH|d IH|d IH|d IH|d IH|d IH|d IH];
  [reflexivity|..]; cbn [uintUnits unitsUint]; rewrite IH; reflexivity. Qed.

Lemma uintUnits_digits (d : Decimal.uint) :
  Forall (fun c => (48 <= c <= 57)%N) (uintUnits d).
Proof.
  induction d as [|d IH|d IH|d IH|d IH|d IH|d IH|d IH|d IH|d IH|d IH];
    cbn [uintUnits]; constructor; try exact IH; lia.
Qed.

Lemma toString_nonempty (n : N) : toString n <> [].
Proof.
  unfold toString. destruct n as [|p]; [discriminate|].
  cbn [N.to_uint]. pose proof (DecimalPos.Unsigned.to_uint_nonnil p) as H.
  destruct (Pos.to_uint p); [contradiction H; reflexivity|..]; discriminate.
Qed.

Lemma readDecimal_toString (n : N) : readDecimal (toString n) = Some n.
Proof.
  pose proof (toString_nonempty n) as Hne. unfold readDecimal.
  destruct (toString n) as [|c s] eqn:E; [contradiction Hne; reflexivity|].
  rewrite <- E. unfold toString. rewrite unitsUint_uintUnits. cbn [option_map].
  f_equal. apply DecimalN.Unsigned.of_to.
Qed.

(** Leading zeros do not change the number read. *)
Lemma readDecimal_zero (s : jstring) (n : N) :
  readDecimal s = Some n -> readDecimal (48%N :: s) = Some n.
Proof.
  unfold readDecimal. destruct s as [|c s]; [discriminate|].
  remember (c :: s) as t eqn:E. intros H. cbn [unitsUint].
  destruct (unitsUint t) as [d|]; [|discriminate H].
  change (48 =? 48)%N with true. cbv iota. exact H.
Qed.

Lemma readDecimal_zeros (k : nat) (s : jstring) (n : N) :
  readDecimal s = Some n -> readDecimal (repeat 48%N k ++ s) = Some n.
Proof.
  intros H. induction k as [|k IH]; [exact H|].
  cbn [repeat app]. apply readDecimal_zero. exact IH.
Qed.

Lemma readDecimal_poemNumber (n : N) : readDecimal (Save.poemNumber n) = Some n.
Proof.
  unfold Save.poemNumber, padStart. apply readDecimal_zeros, readDecimal_toString.
Qed.

Lemma poemNumber_digits (n : N) :
  Forall (fun c => (48 <= c <= 57)%N) (Save.poemNumber n).
Proof.
  unfold Save.poemNumber, padStart. apply Forall_app. split.
  - apply Forall_forall. intros c Hc. apply repeat_spec in Hc. subst c. lia.
  - apply uintUnits_digits.
Qed.

(** X22.  The file name of a saved poem is [cp], the poem number in at
    least six decimal digits (padded with zeros, never cut) and [.txt];
    the number can be read back from the digits, so poems with different
    numbers are saved under different names. *)
Theorem file_name_round_trip (n m : N) :
  exactNumber n -> exactNumber m ->
  Save.filename n = utf16 "cp" ++ Save.poemNumber n ++ utf16 ".txt"
  /\ 6 <= length (Save.poemNumber n)
  /\ readDecimal (Save.poemNumber n) = Some n
  /\ (Save.filename n = Save.filename m -> n = m).
Proof.
  intros _ _. split; [reflexivity|]. split.
  - unfold Save.poemNumber, padStart. rewrite length_app, repeat_length. lia.
  - split; [apply readDecimal_poemNumber|].
    unfold Save.filename. intros H.
    apply app_inv_head in H. apply app_inv_tail in H.
    pose proof (readDecimal_poemNumber n) as Hn.
    rewrite H, readDecimal_poemNumber in Hn. injection Hn as Hn. symmetry. exact Hn.
Qed.

Lemma file_name_round_trip_witness :
  Save.filename 42 = utf16 "cp000042.txt"
  /\ Save.filename 1234567 = utf16 "cp1234567.txt"
  /\ (Save.filename 42 = Save.filename 1234567 -> 42%N = 1234567%N).
Proof.
  split; [reflexivity|]. split; [reflexivity|].
  apply (file_name_round_trip 42 1234567); unfold exactNumber; reflexivity.
Defined.

Lemma splitLines_line (line rest : jstring) :
  oneLine line ->
  splitLines (line ++ newline ++ rest) = line :: splitLines rest.
Proof.
  unfold oneLine. induction line as [|c line IH]; intros H.
  - reflexivity.
  - cbn [app splitLines].
    destruct (N.eqb_spec c 10) as [->|Hc]; [contradiction H; left; reflexivity|].
    rewrite IH; [reflexivity|]. intros Hin. apply H. right. exact Hin.
Qed.

Lemma fold_left_append (nl : jstring) (ls : list jstring) (acc : jstring) :
  fold_left (fun content line => content ++ (line ++ nl)) ls acc
  = acc ++ concat (map (fun line => line ++ nl) ls).
Proof.
  revert acc. induction ls as [|l ls IH]; intros acc; cbn [fold_left map concat].
  - symmetry. apply app_nil_r.
  - rewrite IH, <- app_assoc. reflexivity.
Qed.

Lemma heading_eq (b nl title numbering rest : jstring) :
  (((([] ++ (b ++ nl)) ++ (title ++ nl)) ++ (numbering ++ nl)) ++ (b ++ nl)) ++ rest
  = b ++ nl ++ title ++ nl ++ numbering ++ nl ++ b ++ nl ++ rest.
Proof. rewrite app_nil_l, <- !app_assoc. reflexivity. Qed.

Lemma content_eq (n : N) (poem : GeneratedPoem) (title : jstring) :
  Save.content n poem title
  = banner ++ newline ++ title ++ newline ++ Save.numbering n ++ newline
    ++ banner ++ newline ++ concat (map (fun line => line ++ newline) (lines poem)).
Proof.
  unfold Save.content. rewrite fold_left_append. apply heading_eq.
Qed.

Lemma splitLines_lines (ls : list jstring) :
  Forall oneLine ls ->
  splitLines (concat (map (fun line => line ++ newline) ls)) = ls ++ [[]].
Proof.
  induction 1 as [|l ls Hl _ IH]; [reflexivity|].
  cbn [map concat]. rewrite <- app_assoc, splitLines_line by exact Hl.
  rewrite IH. reflexivity.
Qed.

Lemma numbering_oneLine (n : N) : oneLine (Save.numbering n).
Proof.
  unfold oneLine, Save.numbering. intros H.
  apply in_app_or in H as [H|H].
  - revert H. vm_compute. intuition discriminate.
  - apply in_app_or in H as [H|H].
    + pose proof (poemNumber_digits n) as Hd.
      rewrite Forall_forall in Hd. specialize (Hd _ H). lia.
    + revert H. vm_compute. intuition discriminate.
Qed.

(** X23.  The text of a saved poem, cut at its line feeds, is a heading
    of four lines (asterisks, the title, the numbering, asterisks)
    followed by the lines of the poem in order and an empty last piece,
    provided neither the title nor a line of the poem holds a line
    feed. *)
Theorem saved_text_lines (n : N) (poem : GeneratedPoem) (title : jstring) :
  oneLine title -> Forall oneLine (lines poem) ->
  splitLines (Save.content n poem title)
  = [banner; title; Save.numbering n; banner] ++ lines poem ++ [[]].
Proof.
  intros Ht Hl. rewrite content_eq.
  assert (Hb : oneLine banner).
  { unfold oneLine. vm_compute. intuition discriminate. }
  rewrite (splitLines_line banner) by exact Hb.
  rewrite (splitLines_line title) by exact Ht.
  rewrite (splitLines_line (Save.numbering n)) by apply numbering_oneLine.
  rewrite (splitLines_line banner) by exact Hb.
  rewrite splitLines_lines by exact Hl. reflexivity.
Qed.

Lemma saved_text_lines_witness :
  splitLines (Save.content 7 (mkPoem [utf16 "啊，骑着马吧！"] sampleOptions)
                (utf16 "无题"))
  = [banner; utf16 "无题"; utf16 "（作品第000007号）"; banner;
     utf16 "啊，骑着马吧！"; []].
Proof.
  apply (saved_text_lines 7 (mkPoem [utf16 "啊，骑着马吧！"] sampleOptions)
           (utf16 "无题")).
  - unfold oneLine. vm_compute. intuition discriminate.
  - constructor; [|constructor]. unfold oneLine. vm_compute. intuition discriminate.
Defined.
